(** * luciphor_prep: modification masses and peptide notations

    A shallow embedding of [bin/luciphor_prep.py] and the properties of
    its modification catalog ([Mods]) and of its peptide records ([PSM]).

    Python values are modelled as follows.
    - [float] is the kernel's binary64 ([PrimFloat.float]); [+], [-], unary
      [-], [==] and [>] are the IEEE operations, [round], [float()] and
      [str()] are defined below from the exact value of a float.
    - [str] is [list ascii]; the model covers ASCII text.
    - a [dict] keyed by strings is a [gmap]; the dict keyed by floats is an
      association list in insertion order whose keys are compared with [==].
    - an uncaught exception is [Raise e]; it ends the run. *)

From Stdlib Require Import ZArith Floats Ascii String List Lia Bool DecimalString.
From stdpp Require Import base option list gmap strings.

Set Warnings "-inexact-float".

(** ** Exceptions *)

Inductive exn : Set :=
  KeyError | ValueError | IndexError | OverflowError | StopIteration | SystemExit.

Inductive result (A : Type) : Type :=
| Ok (a : A)
| Raise (e : exn).
Arguments Ok {A} a.
Arguments Raise {A} e.

#[global] Instance result_ret : MRet result := fun A a => Ok a.
#[global] Instance result_bind : MBind result := fun A B f r =>
  match r with Ok a => f a | Raise e => Raise e end.

#[global] Instance result_fmap : FMap result := fun A B f r =>
  match r with Ok a => Ok (f a) | Raise e => Raise e end.

#[global] Instance exn_eq_dec : EqDecision exn.
Proof. solve_decision. Defined.

#[global] Instance result_eq_dec {A} `{EqDecision A} : EqDecision (result A).
Proof. solve_decision. Defined.

Definition is_ok {A} (r : result A) : bool :=
  match r with Ok _ => true | Raise _ => false end.

(** a [for] loop over [l] that updates [b] and that an exception leaves *)
Fixpoint foldM {A B} (f : B → A → result B) (b : B) (l : list A) : result B :=
  match l with
  | [] => Ok b
  | x :: l' => b' ← f b x; foldM f b' l'
  end.

(** ** Characters and strings *)

Definition pystr : Type := list ascii.

(** A string literal. *)
Definition s2l (s : string) : pystr := list_ascii_of_string s.

Definition code (c : ascii) : N := N_of_ascii c.

Definition in_range (lo hi c : ascii) : bool :=
  (code lo <=? code c)%N && (code c <=? code hi)%N.

Definition is_upper (c : ascii) : bool := in_range "A" "Z" c.
Definition is_digit (c : ascii) : bool := in_range "0" "9" c.

Definition ascii_eqb (a b : ascii) : bool := bool_decide (a = b).

(** [c.lower()] and [c.upper()] on ASCII. *)
Definition lower_char (c : ascii) : ascii :=
  if is_upper c then ascii_of_N (code c + 32) else c.

Definition lower (s : pystr) : pystr := map lower_char s.

(** [sep.join(l)] *)
Fixpoint join (sep : pystr) (l : list pystr) : pystr :=
  match l with
  | [] => []
  | [x] => x
  | x :: l' => x ++ sep ++ join sep l'
  end.

(** [s.split(sep)] for a separator of one character. *)
Fixpoint split (sep : ascii) (s : pystr) : list pystr :=
  match s with
  | [] => [[]]
  | c :: s' =>
      if ascii_eqb c sep then [] :: split sep s'
      else match split sep s' with
           | [] => [[c]]
           | w :: ws => (c :: w) :: ws
           end
  end.

(** [sub in s] *)
Fixpoint starts_with (p s : pystr) : bool :=
  match p, s with
  | [], _ => true
  | _ :: _, [] => false
  | a :: p', b :: s' => ascii_eqb a b && starts_with p' s'
  end.

Fixpoint contains (p s : pystr) : bool :=
  starts_with p s || match s with [] => false | _ :: s' => contains p s' end.

(** [str(n)] and [int(s)] for integers. *)
Definition str_int (z : Z) : pystr := s2l (NilZero.string_of_int (Z.to_int z)).

Definition digit_val (c : ascii) : Z := Z.of_N (code c - 48).

Definition int_digits (s : pystr) : Z :=
  fold_left (fun acc c => (10 * acc + digit_val c)%Z) s 0%Z.

(** The longest prefix whose characters satisfy [p], and the rest. *)
Fixpoint span (p : ascii → bool) (s : pystr) : pystr * pystr :=
  match s with
  | c :: s' => if p c then let '(a, b) := span p s' in (c :: a, b) else ([], s)
  | [] => ([], [])
  end.

(** ** Python floats

    [round], [float()] and [str()] are defined through the exact value
    of a float, [(-1)^s * m * 2^e] as [Prim2SF] gives it, and through the
    correctly rounded conversion [nearest] of a rational to a float. *)

Module PyFloat.
Local Open Scope Z_scope.

(** [a / b] rounded to the nearest integer, ties to even ([0 <= a], [0 < b]). *)
Definition round_half_even (a b : Z) : Z :=
  let q := a / b in
  let r := a mod b in
  match 2 * r ?= b with
  | Lt => q
  | Gt => q + 1
  | Eq => if Z.even q then q else q + 1
  end.

(** The float nearest to [(-1)^s * p / q], ties to even ([0 <= p], [0 < q]):
    the quotient is cut below the last bit a binary64 can hold and rounded
    once, from the cut and the position of what was cut off. *)
Definition nearest (s : bool) (p q : Z) : float :=
  if p =? 0 then SF2Prim (S754_zero s)
  else
    let k := 1074 + Z.log2_up q in
    let n := p * 2 ^ k in
    let m := n / q in
    let r := n mod q in
    let loc := if r =? 0 then loc_Exact else loc_Inexact (2 * r ?= q) in
    SF2Prim (binary_round_aux prec emax s m (- k) loc).

(** the float nearest to [(-1)^s * d * 10^x] *)
Definition nearest_dec (s : bool) (d x : Z) : float :=
  if 0 <=? x then nearest s (d * 10 ^ x) 1 else nearest s d (10 ^ (- x)).

(** [x == y], [x > y], truth value of a float *)
Definition eq (x y : float) : bool := PrimFloat.eqb x y.
Definition gt (x y : float) : bool := PrimFloat.ltb y x.
Definition truthy (x : float) : bool := negb (PrimFloat.eqb x 0%float).

(** [round(x, nd)] for [0 <= nd]: the decimal with [nd] places nearest to
    the exact value of [x] (ties to even), then the float nearest to it;
    infinities, nans and zeros round to themselves. *)
Definition round_nd (x : float) (nd : Z) : float :=
  match Prim2SF x with
  | S754_finite s m e =>
      let num := Zpos m * 10 ^ nd in
      let n := if 0 <=? e then num * 2 ^ e else round_half_even num (2 ^ (- e)) in
      nearest s n (10 ^ nd)
  | _ => x
  end.

(** [round(x)]: an [int], ties to even. *)
Definition round_int (x : float) : result Z :=
  match Prim2SF x with
  | S754_nan => Raise ValueError
  | S754_infinity _ => Raise OverflowError
  | S754_zero _ => Ok 0
  | S754_finite s m e =>
      let n := if 0 <=? e then Zpos m * 2 ^ e else round_half_even (Zpos m) (2 ^ (- e)) in
      Ok (if s then - n else n)
  end.

(** *** [float(s)] *)

Definition is_space (c : ascii) : bool :=
  let n := code c in
  ((9 <=? n) && (n <=? 13) || (28 <=? n) && (n <=? 32))%N.

Definition strip (s : pystr) : pystr :=
  let s1 := snd (span is_space s) in
  rev (snd (span is_space (rev s1))).

(** Underscores may stand between two digits only; they are removed. *)
Fixpoint drop_underscores (prev : option ascii) (s : pystr) : option pystr :=
  match s with
  | [] => if bool_decide (prev = Some "_"%char) then None else Some []
  | c :: s' =>
      if ascii_eqb c "_" then
        match prev with
        | Some p => if is_digit p then drop_underscores (Some c) s' else None
        | None => None
        end
      else if bool_decide (prev = Some "_"%char) && negb (is_digit c) then None
      else cons c <$> drop_underscores (Some c) s'
  end.

Definition take_sign (s : pystr) : bool * pystr :=
  match s with
  | "-"%char :: s' => (true, s')
  | "+"%char :: s' => (false, s')
  | _ => (false, s)
  end.

(** decimal exponent part: nothing, or [e], a sign and digits *)
Definition parse_exponent (s : pystr) : option Z :=
  match s with
  | [] => Some 0
  | c :: s' =>
      if ascii_eqb (lower_char c) "e" then
        let '(neg, ds) := take_sign s' in
        match ds with
        | [] => None
        | _ :: _ => if forallb is_digit ds
                    then Some (if neg then - int_digits ds else int_digits ds)
                    else None
        end
      else None
  end.

Definition parse_decimal (neg : bool) (s : pystr) : option float :=
  let '(ip, r1) := span is_digit s in
  let '(fp, r2) := match r1 with
                   | "."%char :: r => span is_digit r
                   | _ => ([], r1)
                   end in
  match ip ++ fp with
  | [] => None
  | ds =>
      x ← parse_exponent r2;
      let d := int_digits ds in
      let x' := x - Z.of_nat (length fp) in
      let nd := Z.of_nat (length (str_int d)) in
      Some (if d =? 0 then nearest neg 0 1
            else if 310 <? x' + nd then (if neg then neg_infinity else infinity)
            else if x' + nd <? -330 then nearest neg 0 1
            else nearest_dec neg d x')
  end.

Definition float_of_str (s : pystr) : result float :=
  match drop_underscores None (strip s) with
  | None => Raise ValueError
  | Some t =>
      let '(neg, body) := take_sign t in
      let w := lower body in
      if bool_decide (w = s2l "inf") || bool_decide (w = s2l "infinity")
      then Ok (if neg then neg_infinity else infinity)
      else if bool_decide (w = s2l "nan") then Ok nan
      else match parse_decimal neg body with
           | Some f => Ok f
           | None => Raise ValueError
           end
  end.

(** *** [str(x)] and [repr(x)]

    The shortest decimal that [float()] reads back as [x]; with more
    than one of that length, the one nearest to [x]. *)

(** the exact value of a finite float as a fraction *)
Definition num_of (m : positive) (e : Z) : Z := if 0 <=? e then Zpos m * 2 ^ e else Zpos m.
Definition den_of (e : Z) : Z := if 0 <=? e then 1 else 2 ^ (- e).

(** [vn / vd < 10 ^ k] *)
Definition below_pow10 (vn vd k : Z) : bool :=
  if 0 <=? k then vn <? vd * 10 ^ k else vn * 10 ^ (- k) <? vd.

(** the [k] with [10 ^ (k - 1) <= vn / vd < 10 ^ k] *)
Definition decimal_point (m : positive) (e : Z) : Z :=
  let est := (Z.log2 (Zpos m) + e) * 30103 / 100000 in
  let vn := num_of m e in
  let vd := den_of e in
  match filter (fun k => below_pow10 vn vd k) (map (fun i => est - 2 + i) [0; 1; 2; 3; 4; 5; 6]) with
  | k :: _ => k
  | [] => est + 5
  end.

(** The candidates with [n] digits: [vn / vd * 10 ^ (n - k)] rounded down
    and up, nearest first. *)
Definition candidates (vn vd k n : Z) : list Z :=
  let '(a, b) := if 0 <=? n - k then (vn * 10 ^ (n - k), vd) else (vn, vd * 10 ^ (k - n)) in
  let lo := a / b in
  let r := a mod b in
  if r =? 0 then [lo]
  else match 2 * r ?= b with
       | Lt => [lo; lo + 1]
       | Gt => [lo + 1; lo]
       | Eq => if Z.even lo then [lo; lo + 1] else [lo + 1; lo]
       end.

Fixpoint strip_zeros_rev (s : pystr) : pystr :=
  match s with
  | "0"%char :: s' => strip_zeros_rev s'
  | _ => s
  end.

(** the digits of [c] without the zeros at its end *)
Definition digits_of (c : Z) : pystr := rev (strip_zeros_rev (rev (str_int c))).

(** the shortest digits and the place of the decimal point *)
Definition shortest (x : float) (s : bool) (m : positive) (e : Z) : pystr * Z :=
  let vn := num_of m e in
  let vd := den_of e in
  let k := decimal_point m e in
  let reads_back n c := PrimFloat.eqb (nearest_dec s c (k - n)) x in
  let found :=
    flat_map (fun n => map (fun c => (n, c)) (filter (reads_back n) (candidates vn vd k n)))
             (map Z.of_nat (seq 1 17)) in
  match found with
  | (n, c) :: _ => (digits_of c, if c =? 10 ^ n then k + 1 else k)
  | [] => ([], k)
  end.

Definition zeros (n : Z) : pystr := repeat "0"%char (Z.to_nat n).

Definition repr (x : float) : pystr :=
  match Prim2SF x with
  | S754_nan => s2l "nan"
  | S754_infinity s => s2l (if s then "-inf" else "inf")
  | S754_zero s => s2l (if s then "-0.0" else "0.0")
  | S754_finite s m e =>
      let '(ds, decpt) := shortest x s m e in
      let nd := Z.of_nat (length ds) in
      let sign := if s then s2l "-" else [] in
      if (decpt <=? -4) || (16 <? decpt) then
        let x10 := decpt - 1 in
        let mant := match ds with
                    | [d] => [d]
                    | d :: rest => d :: "."%char :: rest
                    | [] => []
                    end in
        let ex := str_int (Z.abs x10) in
        sign ++ mant ++ s2l "e" ++ s2l (if x10 <? 0 then "-" else "+")
             ++ (if Z.abs x10 <? 10 then s2l "0" else []) ++ ex
      else if decpt <=? 0 then sign ++ s2l "0." ++ zeros (- decpt) ++ ds
      else if decpt <? nd then
        sign ++ take (Z.to_nat decpt) ds ++ s2l "." ++ drop (Z.to_nat decpt) ds
      else sign ++ ds ++ zeros (decpt - nd) ++ s2l ".0"
  end.
End PyFloat.

(** ** Regular expressions

    A pattern is given by its match at the start of a text: the groups and
    the number of characters matched.  None of the patterns of the program
    matches the empty string.  [finditer] scans from left to right and
    resumes after each match, as [re.finditer] does. *)

Section Regex.
Context {G : Type}.
Variable pat : pystr → option (G * nat).

Record rmatch : Type := RMatch { m_start : nat; m_end : nat; m_groups : G }.

(** [skip] characters still belong to the last match. *)
Fixpoint finditer_from (pos skip : nat) (s : pystr) : list rmatch :=
  match s with
  | [] => []
  | _ :: s' =>
      match skip with
      | S k => finditer_from (S pos) k s'
      | O =>
          match pat s with
          | Some (g, n) => RMatch pos (pos + n) g :: finditer_from (S pos) (n - 1) s'
          | None => finditer_from (S pos) 0 s'
          end
      end
  end.

Definition finditer (s : pystr) : list rmatch := finditer_from 0 0 s.

(** [re.sub(pattern, repl, s)] with a function [repl] of the groups *)
Fixpoint sub_from (repl : G → pystr) (skip : nat) (s : pystr) : pystr :=
  match s with
  | [] => []
  | c :: s' =>
      match skip with
      | S k => sub_from repl k s'
      | O =>
          match pat s with
          | Some (g, n) => repl g ++ sub_from repl (n - 1) s'
          | None => c :: sub_from repl 0 s'
          end
      end
  end.

Definition re_sub (repl : G → pystr) (s : pystr) : pystr := sub_from repl 0 s.
End Regex.
Arguments RMatch {G} m_start m_end m_groups.

(** [s[a:b]] for [0 <= a] and [0 <= b] *)
Definition slice (a b : nat) (s : pystr) : pystr := take (b - a) (drop a s).

Definition is_delta_char (c : ascii) : bool :=
  is_digit c || ascii_eqb c "." || ascii_eqb c "+" || ascii_eqb c "-".

Definition is_mass_char (c : ascii) : bool := is_digit c || ascii_eqb c ".".

(** [[0-9\.+\-]+] *)
Definition re_delta_run (s : pystr) : option pystr :=
  match span is_delta_char s with
  | ([], _) => None
  | (run, _) => Some run
  end.

(** [([A-Z]){0,1}([0-9\.+\-]+)]: the residue is taken when it is there
    and the run follows it, else the run has to start the text. *)
Definition re_msgf (s : pystr) : option ((option ascii * pystr) * nat) :=
  let without := (fun run => ((None, run), length run)) <$> re_delta_run s in
  match s with
  | c :: s' =>
      if is_upper c then
        match re_delta_run s' with
        | Some run => Some ((Some c, run), S (length run))
        | None => without
        end
      else without
  | [] => None
  end.

(** [[\+\-][0-9.]+] *)
Definition re_signed_mass (s : pystr) : option (pystr * nat) :=
  match s with
  | c :: s' =>
      if ascii_eqb c "+" || ascii_eqb c "-" then
        match span is_mass_char s' with
        | ([], _) => None
        | (run, _) => Some (c :: run, S (length run))
        end
      else None
  | [] => None
  end.

(** [\[([0-9]+)\]] *)
Definition re_bracket (s : pystr) : option (pystr * nat) :=
  match s with
  | "["%char :: r =>
      match span is_digit r with
      | ([], _) => None
      | (ds, "]"%char :: _) => Some (ds, 2 + length ds)
      | _ => None
      end
  | _ => None
  end.

(** [([A-Z]){0,1}\[([0-9]+)\]] *)
Definition re_luci (s : pystr) : option ((option ascii * pystr) * nat) :=
  let without := (fun '(ds, n) => ((None, ds), n)) <$> re_bracket s in
  match s with
  | c :: s' =>
      if is_upper c then
        match re_bracket s' with
        | Some (ds, n) => Some ((Some c, ds), S n)
        | None => without
        end
      else without
  | [] => None
  end.

(** [([A-Z])\[[0-9]+\]] *)
Definition re_residue_mass (s : pystr) : option (ascii * nat) :=
  match s with
  | c :: s' =>
      if is_upper c then (fun '(_, n) => (c, S n)) <$> re_bracket s' else None
  | [] => None
  end.


(** [re.findall] for a pattern without groups: the matched texts *)
Definition findall (pat : pystr → option (pystr * nat)) (s : pystr) : list pystr :=
  m_groups <$> finditer pat s.

(** ** Module constants *)

Definition NON_BLOCKING_MODS : gmap pystr (list pystr) :=
  {[ s2l "GG" := [s2l "TMTpro"; s2l "TMT6plex"; s2l "iTRAQ8plex"; s2l "iTRAQ4plex"] ]}.

Definition aa_weights_monoiso : gmap ascii float :=
  list_to_map
    [ ("A"%char, 71.03711%float); ("R"%char, 156.10111%float);
      ("N"%char, 114.04293%float); ("D"%char, 115.02694%float);
      ("C"%char, 103.00919%float); ("E"%char, 129.04259%float);
      ("Q"%char, 128.05858%float); ("G"%char, 57.02146%float);
      ("H"%char, 137.05891%float); ("I"%char, 113.08406%float);
      ("L"%char, 113.08406%float); ("K"%char, 128.09496%float);
      ("M"%char, 131.04049%float); ("F"%char, 147.06841%float);
      ("P"%char, 97.05276%float); ("S"%char, 87.03203%float);
      ("T"%char, 101.04768%float); ("W"%char, 186.07931%float);
      ("Y"%char, 163.06333%float); ("V"%char, 99.06841%float);
      ("U"%char, 150.953636%float); ("O"%char, 237.147727%float) ].

(** The two tables are looked up by evaluation only. *)
#[global] Opaque NON_BLOCKING_MODS aa_weights_monoiso.

(** [d[k]] on a dict keyed by strings or characters *)
Definition getitem {K V} `{Countable K} (d : gmap K V) (k : K) : result V :=
  match d !! k with
  | Some v => Ok v
  | None => Raise KeyError
  end.

(** [l[i]] *)
Definition index {A} (l : list A) (i : nat) : result A :=
  match l !! i with
  | Some v => Ok v
  | None => Raise IndexError
  end.

(** ** class Mods *)

(** A modification definition, one per residue; [adjusted_mass] is [None]
    for the [False] the parser writes. *)
Record mod_def : Type := ModDef {
  name : pystr;
  mass : float;
  adjusted_mass : option float;
  residue : ascii;
  var : bool;
  pos : pystr;
  name_lower : pystr
}.

Definition set_adjusted_mass (m : mod_def) (a : float) : mod_def :=
  {| name := name m; mass := mass m; adjusted_mass := Some a; residue := residue m;
     var := var m; pos := pos m; name_lower := name_lower m |}.

Record Mods : Type := MkMods {
  mods : list mod_def;
  fixedmods : list mod_def;
  varmods : list mod_def;
  has_varmods_on_fixmod_residues : bool
}.

(** The characters of [set(s)], each once.  Python fixes no order for the
    elements of a set: the order here is one of the orders a run can meet,
    and the properties below are stated by membership, not by that order. *)
Definition set_of (s : pystr) : list ascii := remove_dups s.

(** One line of the modification file, or one modification passed by the
    user, as the dicts appended to [self.mods]. *)
Definition mod_entries (fields : list pystr) (lowername : pystr) : result (list mod_def) :=
  nm ← index fields 4;
  ps ← index fields 3;
  varfix ← index fields 2;
  residues ← index fields 1;
  mapM (fun res =>
          m0 ← index fields 0;
          m ← PyFloat.float_of_str m0;
          Ok (ModDef nm m None res (bool_decide (varfix = s2l "opt")) ps lowername))
       (set_of residues).

Definition skipped_line (line : pystr) : bool :=
  match line with
  | [] => true
  | c :: _ => ascii_eqb c "#" || contains (s2l "NumMods") line
  end.

Definition modfile_line (mods_to_find : list pystr) (line : pystr) : result (list mod_def) :=
  if skipped_line line then Ok []
  else
    let msplit := split "," line in
    nm ← index msplit 4;
    _ ← index msplit 3;
    _ ← index msplit 2;
    _ ← index msplit 1;
    if bool_decide (lower nm = s2l "tmt6plex") && bool_decide (s2l "tmt10plex" ∈ mods_to_find)
    then mod_entries msplit (s2l "tmt10plex")
    else if bool_decide (lower nm ∈ mods_to_find) then mod_entries msplit (lower nm)
    else Ok [].

Definition passed_mod (mtofind : pystr) : result (list mod_def) :=
  let moddef := split "," mtofind in
  if bool_decide (length moddef = 5)
  then nm ← index moddef 4; mod_entries moddef (lower nm)
  else Ok [].

(** the first two loops of [parse_msgf_modfile]: what is in [self.mods] *)
Definition read_mods (modfile : list pystr) (mods_passed : list pystr) : result (list mod_def) :=
  from_file ← mapM (modfile_line (lower <$> mods_passed)) modfile;
  from_user ← mapM passed_mod mods_passed;
  Ok (concat from_file ++ concat from_user).

(** [fixedpos]: the fixed modifications of each residue, in the order of
    [self.mods]. *)
Definition fixedpos_add (fixedpos : gmap ascii (list mod_def)) (m : mod_def)
  : gmap ascii (list mod_def) :=
  match fixedpos !! residue m with
  | Some l => <[residue m := l ++ [m]]> fixedpos
  | None => <[residue m := [m]]> fixedpos
  end.

Definition build_fixedpos (ms : list mod_def) : gmap ascii (list mod_def) :=
  fold_left (fun fp m => if var m then fp else fixedpos_add fp m) ms ∅.

(** [adjustment] after the loop over [fixedpos.get(mod['residue'], [])];
    it starts as the integer 0, which the first [+=] turns into a float. *)
Definition adjustment_of (nonblocked_fixed : list pystr) (fmods : list mod_def) : float :=
  fold_left (fun adjustment fmod =>
               if bool_decide (name fmod ∈ nonblocked_fixed) then adjustment
               else (adjustment + mass fmod)%float)
            fmods 0%float.

(** the body of the loop over [self.varmods] *)
Definition adjust (fixedpos : gmap ascii (list mod_def)) (m : mod_def) : mod_def :=
  let nonblocked_fixed := default [] (NON_BLOCKING_MODS !! name m) in
  let adjustment := adjustment_of nonblocked_fixed (default [] (fixedpos !! residue m)) in
  set_adjusted_mass m (PyFloat.round_nd (- (adjustment - mass m))%float 5).

(** The partition into fixed and variable modifications and the adjusted
    masses.  The dicts of [self.varmods] are those of [self.mods]: writing
    [adjusted_mass] through one list shows in the other, so both lists
    hold the adjusted definitions. *)
Definition finalize (ms : list mod_def) : Mods :=
  let fixedpos := build_fixedpos ms in
  let adjust_var m := if var m then adjust fixedpos m else m in
  {| mods := adjust_var <$> ms;
     fixedmods := filter (fun m => var m = false) ms;
     varmods := adjust fixedpos <$> filter (fun m => var m = true) ms;
     has_varmods_on_fixmod_residues :=
       existsb (fun m => bool_decide (is_Some (fixedpos !! residue m)))
               (filter (fun m => var m = true) ms) |}.

(** [Mods().parse_msgf_modfile(modfile, mods_passed)]; [modfile] is the
    list of the file's lines. *)
Definition parse_msgf_modfile (modfile : list pystr) (mods_passed : list pystr) : result Mods :=
  finalize <$> read_mods modfile mods_passed.

Definition get_mass_or_adj (m : mod_def) : float :=
  match adjusted_mass m with
  | Some a => if PyFloat.truthy a then a else mass m
  | None => mass m
  end.

Definition get_luci_input_mod_line (m : mod_def) : pystr :=
  let res :=
    if bool_decide (pos m = s2l "N-term") then "["%char
    else if bool_decide (pos m = s2l "C-term") then "]"%char
    else residue m in
  res :: s2l " " ++ PyFloat.repr (get_mass_or_adj m).

(** *** The dict keyed by masses

    Keys are floats: a key is found when it is [==] to the one looked up. *)
Definition massdict : Type := list (float * list mod_def).

Fixpoint mass_lookup (d : massdict) (k : float) : option (list mod_def) :=
  match d with
  | [] => None
  | (k', l) :: d' => if PyFloat.eq k' k then Some l else mass_lookup d' k
  end.

(** [d[k].append(m)], or [d[k] = [m]] when that raises [KeyError] *)
Fixpoint mass_append (d : massdict) (k : float) (m : mod_def) : massdict :=
  match d with
  | [] => [(k, [m])]
  | (k', l) :: d' =>
      if PyFloat.eq k' k then (k', l ++ [m]) :: d' else (k', l) :: mass_append d' k m
  end.

Definition msgfmass_mod_dict (self : Mods) : massdict :=
  fold_left (fun mod_map m => mass_append mod_map (PyFloat.round_nd (get_mass_or_adj m) 3) m)
            (mods self) [].

(** the key of a variable modification in [lucimass_mod_dict] *)
Definition lucimass_key (m : mod_def) : result pystr :=
  aa ← getitem aa_weights_monoiso (residue m);
  n ← PyFloat.round_int (aa + get_mass_or_adj m)%float;
  Ok (residue m :: str_int n).

Definition lucimass_mod_dict (self : Mods) : result (gmap pystr mod_def) :=
  foldM (fun modmap m => k ← lucimass_key m; Ok (<[k := m]> modmap)) ∅ (varmods self).

(** *** [get_msgf_modlines] *)

(** The first loop: definitions grouped by mass; the run exits when a
    group holds two names. *)
Definition group_mod (grouped : massdict) (m : mod_def) : result massdict :=
  let mass := get_mass_or_adj m in
  match mass_lookup grouped mass with
  | None => Ok (grouped ++ [(mass, [m])])
  | Some l =>
      if bool_decide (length (remove_dups (name <$> (l ++ [m]))) = 1)
      then Ok (mass_append grouped mass m)
      else Raise SystemExit
  end.

(** [line_res]: the residues of each [var__pos], in the order the keys
    were first seen *)
Fixpoint line_res_add (line_res : list (pystr * list ascii)) (mid : pystr) (res : ascii)
  : list (pystr * list ascii) :=
  match line_res with
  | [] => [(mid, [res])]
  | (k, l) :: rest =>
      if bool_decide (k = mid) then (k, l ++ [res]) :: rest
      else (k, l) :: line_res_add rest mid res
  end.

Definition mid_of (m : mod_def) : pystr :=
  s2l (if var m then "1" else "0") ++ s2l "__" ++ pos m.

(** The lines of one group.  [mid.split('__')] gives two parts, the flag
    and [pos], unless [pos] itself holds the separator. *)
Definition group_lines (g : float * list mod_def) : result (list pystr) :=
  let '(mass, ms) := g in
  first ← index ms 0;
  let line_res := fold_left (fun lr m => line_res_add lr (mid_of m) (residue m)) ms [] in
  mapM (fun '(mid, residues) =>
          let parts := drop 3 mid in
          if contains (s2l "__") parts then Raise ValueError
          else
            let vf := s2l (if starts_with (s2l "1") mid then "opt" else "fix") in
            Ok (PyFloat.repr mass ++ s2l "," ++ residues ++ s2l "," ++ vf ++ s2l ","
                ++ parts ++ s2l "," ++ name first))
       line_res.

Definition get_msgf_modlines (self : Mods) : result (list pystr) :=
  grouped ← foldM group_mod [] (mods self);
  lines ← mapM group_lines grouped;
  Ok (concat lines).

(** ** class PSM *)

Inductive modtype : Set := fixed | labile | stable | variable.

#[global] Instance modtype_eq_dec : EqDecision modtype.
Proof. solve_decision. Defined.

(** A modification seen on a peptide.  [parse_luciphor_peptide] writes
    no [adjusted_mass] key: [obs_adjusted_mass] is then [None], and
    [Some a] holds the value [a] of the definition otherwise. *)
Record obs_mod : Type := ObsMod {
  site : ascii * Z;
  type : modtype;
  obs_mass : float;
  obs_name : pystr;
  obs_name_lower : pystr;
  obs_adjusted_mass : option (option float)
}.

(** [False] in a field that is not set yet is [None]. *)
Record PSM : Type := MkPSM {
  psm_mods : list obs_mod;
  top_flr : option pystr;
  top_score : option pystr;
  lucispecid : option pystr;
  alt_ptm_locs : list (list pystr);
  sequence : option pystr;
  seq_in_scorepep_fmt : option pystr
}.

(** [PSM()] *)
Definition new_PSM : PSM := MkPSM [] None None None [] None None.

Definition get_modtype (m : mod_def) (labileptmnames stableptmnames : list pystr) : modtype :=
  if negb (var m) then fixed
  else if bool_decide (name_lower m ∈ labileptmnames) then labile
  else if bool_decide (name_lower m ∈ stableptmnames) then stable
  else variable.

(** [barepep[-1]] *)
Definition last_char (s : pystr) : result ascii :=
  match last s with
  | Some c => Ok c
  | None => Raise IndexError
  end.

(** *** [parse_msgf_peptide] *)

(** [msgf_mods[float(mass)][0]] and the dict appended to [self.mods] *)
Definition resolve_delta (msgf_mods : massdict) (labileptmnames stableptmnames : list pystr)
    (res : ascii) (sitenum : Z) (mass_token : pystr) : result obs_mod :=
  f ← PyFloat.float_of_str mass_token;
  l ← match mass_lookup msgf_mods f with Some l => Ok l | None => Raise KeyError end;
  m ← index l 0;
  Ok (ObsMod (res, sitenum) (get_modtype m labileptmnames stableptmnames)
             (mass m) (name m) (name_lower m) (Some (adjusted_mass m))).

(** the signed masses of the second group of a match *)
Definition delta_tokens (group2 : pystr) : list pystr := findall re_signed_mass group2.

(** The body of the loop over the matches; the state is [barepep],
    [start] and [self.mods]. *)
Definition msgf_step (msgfseq : pystr) (msgf_mods : massdict)
    (labileptmnames stableptmnames : list pystr)
    (st : pystr * nat * list obs_mod) (x : rmatch (G := option ascii * pystr))
  : result (pystr * nat * list obs_mod) :=
  let '(barepep, start, obs) := st in
  '(barepep', res, sitenum) ←
    match fst (m_groups x) with
    | Some _ =>
        let barepep' := barepep ++ slice start (m_start x + 1) msgfseq in
        res ← last_char barepep';
        Ok (barepep', res, (Z.of_nat (length barepep') - 1)%Z)
    | None => Ok (barepep, "["%char, (-100)%Z)
    end;
  new ← mapM (resolve_delta msgf_mods labileptmnames stableptmnames res sitenum)
             (delta_tokens (snd (m_groups x)));
  Ok (barepep', m_end x, obs ++ new).

Definition set_mods_sequence (self : PSM) (obs : list obs_mod) (s : pystr) : PSM :=
  {| psm_mods := obs; top_flr := top_flr self; top_score := top_score self;
     lucispecid := lucispecid self; alt_ptm_locs := alt_ptm_locs self;
     sequence := Some s; seq_in_scorepep_fmt := seq_in_scorepep_fmt self |}.

Definition parse_msgf_peptide (self : PSM) (msgfseq : pystr) (msgf_mods : massdict)
    (labileptmnames stableptmnames : list pystr) : result PSM :=
  '(barepep, start, obs) ←
    foldM (msgf_step msgfseq msgf_mods labileptmnames stableptmnames) ([], 0, [])
          (finditer re_msgf msgfseq);
  Ok (set_mods_sequence self obs (barepep ++ drop start msgfseq)).

(** *** [parse_luciphor_peptide] *)

Record luciline : Type := LuciLine {
  globalFLR : pystr;
  pep1score : pystr;
  specId : pystr;
  predictedPep1 : pystr
}.

(** [int(s)] for a text of digits.  Python refuses to convert a text of
    more than 4300 digits to an integer. *)
Definition py_int (s : pystr) : result Z :=
  if (4300 <? length s)%nat then Raise ValueError else Ok (int_digits s).

(** [f'{r}{n}'] for a group [r], [None] when it did not match, and an
    integer [n] *)
Definition luci_key_of (r : option ascii) (n : Z) : pystr :=
  match r with
  | Some c => [c]
  | None => s2l "None"
  end ++ str_int n.

(** [f'{x.group(1)}{int(x.group(2))}'], for digits that [int()] converts *)
Definition luci_key (g : option ascii * pystr) : pystr :=
  luci_key_of (fst g) (int_digits (snd g)).

(** [barepep] after [if x.group(1) is not None: barepep += modpep[start:x.start()+1]] *)
Definition bare_after (modpep barepep : pystr) (start : nat)
    (x : rmatch (G := option ascii * pystr)) : pystr :=
  match fst (m_groups x) with
  | Some _ => barepep ++ slice start (m_start x + 1) modpep
  | None => barepep
  end.

Definition luci_step (modpep : pystr) (ptms_map : gmap pystr mod_def)
    (labileptms stabileptms : list pystr)
    (st : pystr * nat * list obs_mod) (x : rmatch (G := option ascii * pystr))
  : result (pystr * nat * list obs_mod) :=
  let '(barepep, start, obs) := st in
  let barepep' := bare_after modpep barepep start x in
  n ← py_int (snd (m_groups x));
  ptm ← getitem ptms_map (luci_key_of (fst (m_groups x)) n);
  if bool_decide (name_lower ptm ∈ labileptms) then
    let sitenum := if bool_decide (length barepep' = 0)
                   then (-100)%Z else (Z.of_nat (length barepep') - 1)%Z in
    res ← (if bool_decide (length barepep' = 0) then Ok "["%char else last_char barepep');
    Ok (barepep', m_end x,
        obs ++ [ObsMod (res, sitenum) (get_modtype ptm labileptms stabileptms)
                       (mass ptm) (name ptm) (name_lower ptm) None])
  else Ok (barepep', m_end x, obs).

(** the score-permutation form of a peptide of the second tool *)
Definition scorepep_fmt (modpep : pystr) : pystr :=
  re_sub re_residue_mass (fun c => [lower_char c]) modpep.

Definition parse_luciphor_peptide (self : PSM) (line : luciline) (ptms_map : gmap pystr mod_def)
    (labileptms stabileptms : list pystr) : result PSM :=
  let modpep := predictedPep1 line in
  '(barepep, start, obs) ←
    foldM (luci_step modpep ptms_map labileptms stabileptms) ([], 0, [])
          (finditer re_luci modpep);
  Ok {| psm_mods := obs; top_flr := Some (globalFLR line);
        top_score := Some (pep1score line); lucispecid := Some (specId line);
        alt_ptm_locs := alt_ptm_locs self;
        sequence := Some (barepep ++ drop start modpep);
        seq_in_scorepep_fmt := Some (scorepep_fmt modpep) |}.

(** *** Alternative localizations *)

Record scorepep : Type := ScorePep {
  curPermutation : pystr;
  score : pystr
}.


Definition add_alt_ptm_locs (self : PSM) (labels : list pystr) : PSM :=
  {| psm_mods := psm_mods self; top_flr := top_flr self; top_score := top_score self;
     lucispecid := lucispecid self; alt_ptm_locs := alt_ptm_locs self ++ [labels];
     sequence := sequence self; seq_in_scorepep_fmt := seq_in_scorepep_fmt self |}.



(** *** Input of the second tool *)

Definition has_labileptms (self : PSM) : bool :=
  existsb (fun m => bool_decide (type m = labile)) (psm_mods self).

Definition has_stableptms (self : PSM) : bool :=
  existsb (fun m => bool_decide (type m = stable)) (psm_mods self).

(** one entry of [lucimods] *)
Definition lucimod (m : obs_mod) : result (Z * pystr) :=
  aa ← getitem aa_weights_monoiso (fst (site m));
  Ok (snd (site m), PyFloat.repr (obs_mass m + aa)%float).

Definition render_lucimod (x : Z * pystr) : pystr := str_int (fst x) ++ s2l "=" ++ snd x.

Definition luciphor_input_sites (self : PSM) : result pystr :=
  lucimods ← mapM lucimod (filter (fun m => type m ≠ fixed) (psm_mods self));
  Ok (join (s2l ",") (render_lucimod <$> lucimods)).

(** *** Modifications of the PSM table and the top peptide *)

Definition set_psm_mods (self : PSM) (obs : list obs_mod) : PSM :=
  {| psm_mods := obs; top_flr := top_flr self; top_score := top_score self;
     lucispecid := lucispecid self; alt_ptm_locs := alt_ptm_locs self;
     sequence := sequence self; seq_in_scorepep_fmt := seq_in_scorepep_fmt self |}.

(** [{m['name']: m for m in self.mods}] *)
Definition mods_by_name (ms : list obs_mod) : gmap pystr obs_mod :=
  fold_left (fun d m => <[obs_name m := m]> d) ms ∅.

(** [existing_mods] is made once, before the loop. *)
Definition add_ptms_from_psm (self : PSM) (psmmods : list obs_mod) : PSM :=
  let existing_mods := mods_by_name (psm_mods self) in
  set_psm_mods self
    (fold_left (fun mods psmmod =>
                  if bool_decide (existing_mods !! obs_name psmmod = None)
                  then mods ++ [psmmod] else mods)
               psmmods (psm_mods self)).

Definition output_types : list modtype := [labile; stable].

(** [f'{ptm["site"][0]}{ptm["site"][1] + 1}'] *)
Definition site_str (ptm : obs_mod) : pystr :=
  fst (site ptm) :: str_int (snd (site ptm) + 1).

(** [ptmsites[name].append(site)], or [ptmsites[name] = [site]] when that
    raises [KeyError]; the dict keeps the order in which its keys came. *)
Fixpoint ptmsites_add (ptmsites : list (pystr * list pystr)) (nm site : pystr)
  : list (pystr * list pystr) :=
  match ptmsites with
  | [] => [(nm, [site])]
  | (k, l) :: rest =>
      if bool_decide (k = nm) then (k, l ++ [site]) :: rest
      else (k, l) :: ptmsites_add rest nm site
  end.

Definition render_ptmsites (x : pystr * list pystr) : pystr :=
  fst x ++ s2l ":" ++ join (s2l ",") (snd x).

Definition topptm_output (self : PSM) : pystr :=
  let ptmsites :=
    fold_left (fun ptmsites ptm =>
                 if bool_decide (type ptm ∈ output_types)
                 then ptmsites_add ptmsites (obs_name ptm) (site_str ptm)
                 else ptmsites)
              (psm_mods self) [] in
  join (s2l "_") (render_ptmsites <$> ptmsites).

(** ** The loop of [main] over the PSM table *)

Definition tab : ascii := ascii_of_N 9.
Definition newline : ascii := ascii_of_N 10.

Record columns : Type := Columns {
  pepcol : nat;
  spfile : nat;
  charge : nat;
  scan : nat;
  evalue : nat
}.

(** [header.index(x)] *)
Fixpoint list_index (x : pystr) (l : list pystr) : result nat :=
  match l with
  | [] => Raise ValueError
  | y :: l' => if bool_decide (y = x) then Ok 0 else S <$> list_index x l'
  end.

Definition find_columns (header : list pystr) : result columns :=
  c1 ← list_index (s2l "Peptide") header;
  c2 ← list_index (s2l "SpectraFile") header;
  c3 ← list_index (s2l "Charge") header;
  c4 ← list_index (s2l "ScanNum") header;
  c5 ← list_index (s2l "PSM q-value") header;
  Ok (Columns c1 c2 c3 c4 c5).

Definition lucipsms_header : pystr :=
  join [tab] (s2l <$> ["srcFile"; "scanNum"; "charge"; "PSMscore"; "peptide"; "modSites"]%string).

(** ['{}'.format(psm.sequence)] *)
Definition str_sequence (self : PSM) : pystr := default (s2l "False") (sequence self).

(** The body of the loop: what one line of the table adds to the file of
    the second tool, [None] when nothing is written. *)
Definition psm_row (cols : columns) (msgf_mod_map : massdict) (labileptms othermods : list pystr)
    (line : pystr) : result (option pystr) :=
  let fields := split tab line in
  pep ← index fields (pepcol cols);
  psm ← parse_msgf_peptide new_PSM pep msgf_mod_map labileptms othermods;
  if has_labileptms psm then
    f1 ← index fields (spfile cols);
    f2 ← index fields (scan cols);
    f3 ← index fields (charge cols);
    f4 ← index fields (evalue cols);
    sites ← luciphor_input_sites psm;
    Ok (Some (newline :: join [tab] [f1; f2; f3; f4; str_sequence psm; sites]))
  else Ok None.

(** What [main] writes to the file of the second tool, from the
    modification file, the arguments and the lines of the PSM table. *)
Definition main_lucipsms (modfile : list pystr) (args_labileptms args_mods : list pystr)
    (psmfile : list pystr) : result pystr :=
  let labileptms := lower <$> args_labileptms in
  let othermods := lower <$> args_mods in
  msgfmods ← parse_msgf_modfile modfile (args_labileptms ++ args_mods);
  let msgf_mod_map := msgfmass_mod_dict msgfmods in
  header ← match psmfile with h :: _ => Ok h | [] => Raise StopIteration end;
  cols ← find_columns (split tab header);
  rows ← mapM (psm_row cols msgf_mod_map labileptms othermods) (drop 1 psmfile);
  Ok (lucipsms_header ++ concat (default [] <$> rows)).

(** ** The values [main] passes to the template

    The template itself is a file of the run; what is modelled is the lists
    [main] makes for it.  [dmasses] is a [set] of floats: the list holds its
    elements in the order they were added, the order in which the template
    meets them is not fixed. *)

Record luci_config : Type := LuciConfig {
  lucifixed : list pystr;
  lucivar : list pystr;
  target_mods : list pystr;
  decoy_mods : list float;
  nlosses : list pystr;
  decoy_nloss : list pystr
}.

(** [s.add(x)] on a set of floats *)
Definition float_set_add (s : list float) (x : float) : list float :=
  if existsb (fun y => PyFloat.eq y x) s then s else s ++ [x].

(** the loop that makes [lucifixed] *)
Definition lucifixed_loop (msgfmods : Mods) : list pystr :=
  fold_left (fun lucifixed m => lucifixed ++ [get_luci_input_mod_line m]) (fixedmods msgfmods) [].

(** the loop that makes [lucivar]: a labile definition is passed over *)
Definition lucivar_loop (msgfmods : Mods) (labileptms : list pystr) : list pystr :=
  fold_left (fun lucivar m =>
               if bool_decide (name_lower m ∈ labileptms) then lucivar
               else lucivar ++ [get_luci_input_mod_line m])
            (varmods msgfmods) [].

(** The body of the last loop over [msgfmods.varmods]; the state is
    [target_mods], [decoy_mods], [nlosses] and [decoy_nloss]. *)
Definition target_step (labileptms : list pystr)
    (st : list pystr * list float * list pystr * list pystr) (m : mod_def)
  : list pystr * list float * list pystr * list pystr :=
  let '(target_mods, decoy_mods, nlosses, decoy_nloss) := st in
  let '(target_mods, decoy_mods) :=
    if bool_decide (name_lower m ∈ labileptms)
    then (target_mods ++ [get_luci_input_mod_line m], float_set_add decoy_mods (get_mass_or_adj m))
    else (target_mods, decoy_mods) in
  if bool_decide (name m = s2l "Phospho")
  then (target_mods, decoy_mods, nlosses ++ [s2l "sty -H3PO4 -97.97690"],
        decoy_nloss ++ [s2l "X -H3PO4 -97.07690"])
  else (target_mods, decoy_mods, nlosses, decoy_nloss).

Definition main_config (msgfmods : Mods) (args_labileptms : list pystr) : luci_config :=
  let labileptms := lower <$> args_labileptms in
  let '(target_mods, decoy_mods, nlosses, decoy_nloss) :=
    fold_left (target_step labileptms) (varmods msgfmods) ([], [], [], []) in
  LuciConfig (lucifixed_loop msgfmods) (lucivar_loop msgfmods labileptms)
             target_mods decoy_mods nlosses decoy_nloss.

(** ** Specifications

    The definitions below follow the words of the specification; the
    theorems compare them with the program. *)

(** [a] and [b] are the same number: the same float, or two floats that
    Python finds [==] (as the two zeros are). *)
Definition same_number (a b : float) : Prop := a = b ∨ PyFloat.eq a b = true.

(** The names of the fixed modifications that do not block the variable
    modification [v]. *)
Definition non_blocking_for (v : mod_def) : list pystr :=
  default [] (NON_BLOCKING_MODS !! name v).

(** The fixed definitions on the residue of [v] whose name is not listed
    as non-blocking for the name of [v]. *)
Definition blocking_fixed (ms : list mod_def) (v : mod_def) : list mod_def :=
  filter (fun f => var f = false ∧ residue f = residue v ∧ name f ∉ non_blocking_for v) ms.

(** the sum of a list of masses, from the left *)
Definition mass_sum (l : list float) : float := fold_left PrimFloat.add l 0%float.

Definition blocking_mass_sum (ms : list mod_def) (v : mod_def) : float :=
  mass_sum (mass <$> blocking_fixed ms v).

(** ** Example catalogs *)

Definition mk_mod (nm : string) (m : float) (res : ascii) (v : bool) (ps : string) : mod_def :=
  ModDef (s2l nm) m None res v (s2l ps) (lower (s2l nm)).

Definition phospho_S : mod_def := mk_mod "Phospho" 79.966331 "S" true "any".
Definition tmt_K : mod_def := mk_mod "TMT6plex" 229.162932 "K" false "any".
Definition acetyl_K : mod_def := mk_mod "Acetyl" 42.010565 "K" true "any".
Definition gg_K : mod_def := mk_mod "GG" 114.042927 "K" true "any".

(** The signed masses of a peptide of the first tool, from left to right. *)
Definition all_delta_tokens (msgfseq : pystr) : list pystr :=
  concat ((fun x : rmatch => delta_tokens (snd (m_groups x))) <$> finditer re_msgf msgfseq).

(** The key of a definition in the lookup of the first tool. *)
Definition msgf_key (m : mod_def) : float := PyFloat.round_nd (get_mass_or_adj m) 3.

(** The modification [o] seen at a token was made from the definition [m]. *)
Definition observed_from (labileptmnames stableptmnames : list pystr)
    (o : obs_mod) (m : mod_def) : Prop :=
  type o = get_modtype m labileptmnames stableptmnames
  ∧ obs_mass o = mass m ∧ obs_name o = name m ∧ obs_name_lower o = name_lower m
  ∧ obs_adjusted_mass o = Some (adjusted_mass m).

(** Each list of the dict is not empty and holds definitions of [ms]
    under a key that is the rounded mass of each of them. *)
Definition well_keyed (d : massdict) (ms : list mod_def) : Prop :=
  ∀ k l, (k, l) ∈ d → l ≠ [] ∧ ∀ m, m ∈ l → m ∈ ms ∧ same_number k (msgf_key m).

(** No two keys of the dict are [==]. *)
Fixpoint distinct_keys (d : massdict) : Prop :=
  match d with
  | [] => True
  | (k, _) :: d' => (∀ k' l', (k', l') ∈ d' → PyFloat.eq k k' = false) ∧ distinct_keys d'
  end.

(** The modification [o] resolves the token [tok] through the lookup [d]:
    the float of the token finds a list, and [o] is made from its first
    definition. *)
Definition resolved_from (d : massdict) (labileptmnames stableptmnames : list pystr)
    (o : obs_mod) (tok : pystr) : Prop :=
  ∃ f m l, PyFloat.float_of_str tok = Ok f ∧ mass_lookup d f = Some (m :: l)
           ∧ observed_from labileptmnames stableptmnames o m.

(** No entry of the lookup [d] matches the token [tok]. *)
Definition unresolvable (d : massdict) (tok : pystr) : Prop :=
  ∀ f, PyFloat.float_of_str tok = Ok f → mass_lookup d f = None.

(** The matches of a scan lie one after the other, from [p] on and
    before [hi]. *)
Fixpoint ordered_from {G} (p hi : nat) (xs : list (rmatch (G := G))) : Prop :=
  match xs with
  | [] => True
  | x :: xs' => p ≤ m_start x ∧ m_start x < hi ∧ ordered_from (m_end x) hi xs'
  end.

(** An entry of the lookup [d] matches the token [tok]. *)
Definition resolvable (d : massdict) (tok : pystr) : Prop :=
  ∃ f, PyFloat.float_of_str tok = Ok f ∧ is_Some (mass_lookup d f).

(** The key of the second tool, as the specification words it: the
    residue, then the integer nearest to the monoisotopic mass of the
    residue plus the mass [eff]. *)
Definition residue_mass_key (res : ascii) (eff : float) : result pystr :=
  aa ← getitem aa_weights_monoiso res;
  n ← PyFloat.round_int (aa + eff)%float;
  Ok (res :: str_int n).

(** The last variable definition with the key [k]. *)
Definition last_with_key (vs : list mod_def) (k : pystr) : option mod_def :=
  last (filter (fun v => lucimass_key v = Ok k) vs).

Definition sulfo_S : mod_def := mk_mod "Sulfo" 79.956815 "S" true "any".
Definition cam_C : mod_def := mk_mod "Carbamidomethyl" 57.021464 "C" false "any".
Definition custom_C : mod_def := mk_mod "Custom" 57.021464 "C" true "any".

(** A catalog with two names of one mass, and a PSM table with one row. *)
Definition two_names_modfile : list pystr :=
  [s2l "15.994915,M,opt,any,Oxidation"; s2l "15.994915,P,opt,any,Hydroxylation"].

Definition psm_header : pystr :=
  join [tab] (s2l <$> ["SpectraFile"; "ScanNum"; "Charge"; "Peptide"; "PSM q-value"]%string).

Definition psm_line (pep : string) : pystr :=
  join [tab] (s2l <$> ["f1.mzML"; "12"; "2"; pep; "0.001"]%string).

(** Phospho for the localization, and Acetyl on the N-terminus of the protein. *)
Definition nterm_modfile : list pystr :=
  [s2l "79.966331,STY,opt,any,Phospho"; s2l "42.010565,*,opt,Prot-N-term,Acetyl"].

(** The peptide [+42.011PEPS+79.966TIDE] as [parse_msgf_peptide] reads it. *)
Definition nterm_acetyl : obs_mod :=
  ObsMod ("["%char, (-100)%Z) stable 42.010565 (s2l "Acetyl") (s2l "acetyl")
         (Some (Some 42.01056%float)).

Definition nterm_psm : PSM :=
  set_mods_sequence new_PSM
    [ nterm_acetyl;
      ObsMod ("S"%char, 3%Z) labile 79.966331 (s2l "Phospho") (s2l "phospho")
             (Some (Some 79.96633%float)) ]
    (s2l "PEPSTIDE").

(** The site of a modification of the second tool: the N-terminus of the
    protein while the bare sequence is empty, else the last residue of the
    bare sequence and its index from 0. *)
Definition anchor (barepep : pystr) : ascii * Z :=
  match last barepep with
  | Some c => (c, (Z.of_nat (length barepep) - 1)%Z)
  | None => ("["%char, (-100)%Z)
  end.

(** The definition a match of the second tool resolves to is labile. *)
Definition is_labile_match (ptms_map : gmap pystr mod_def) (labileptms : list pystr)
    (x : rmatch (G := option ascii * pystr)) : bool :=
  match ptms_map !! luci_key (m_groups x) with
  | Some ptm => bool_decide (name_lower ptm ∈ labileptms)
  | None => false
  end.

(** The effective mass of a modification seen on a peptide. *)
Definition obs_effective_mass (m : obs_mod) : float :=
  match obs_adjusted_mass m with
  | Some (Some a) => if PyFloat.truthy a then a else obs_mass m
  | _ => obs_mass m
  end.

(** The field [modSites] as the specification words it: the labile sites
    only, each with the monoisotopic mass of its residue plus the effective
    mass of the modification. *)
Definition claimed_modsites (self : PSM) : result pystr :=
  entries ← mapM (fun m =>
                    aa ← getitem aa_weights_monoiso (fst (site m));
                    Ok (str_int (snd (site m)) ++ s2l "="
                        ++ PyFloat.repr (aa + obs_effective_mass m)%float))
                 (filter (fun m => type m = labile) (psm_mods self));
  Ok (join (s2l ",") entries).

(** One entry of [modSites] as the program writes it: the index of the
    site, then the raw mass of the modification plus the monoisotopic mass
    of the residue. *)
Definition site_entry (e : pystr) (m : obs_mod) : Prop :=
  ∃ aa, aa_weights_monoiso !! fst (site m) = Some aa
        ∧ e = str_int (snd (site m)) ++ s2l "=" ++ PyFloat.repr (obs_mass m + aa)%float.

(** A catalog with TMT fixed on K, Phospho and Acetyl, and its columns. *)
Definition tmt_modfile : list pystr :=
  [s2l "79.966331,S,opt,any,Phospho"; s2l "229.162932,K,fix,any,TMT6plex";
   s2l "42.010565,K,opt,any,Acetyl"].

(** A catalog with Phospho on S, T and Y and Oxidation on M. *)
Definition phospho_ox_modfile : list pystr :=
  [s2l "79.966331,STY,opt,any,Phospho"; s2l "15.994915,M,opt,any,Oxidation"].

Definition psm_columns : columns := Columns 3 0 2 1 4.

Definition tmt_peptide : string := "PEPS+79.966TIK+229.163DEK-187.152R".

(** a row of the second tool's input file *)
Definition lucipsms_row (fields : list string) : pystr := newline :: join [tab] (s2l <$> fields).




(** The candidate [sp] is accepted for the record [self]: it differs from
    the form of the top peptide and its score is above the threshold. *)
Definition accepted (self : PSM) (minscore : float) (sp : scorepep) : bool :=
  bool_decide (Some (curPermutation sp) ≠ seq_in_scorepep_fmt self)
  && match PyFloat.float_of_str (score sp) with
     | Ok f => PyFloat.gt f minscore
     | Raise _ => false
     end.





(** [c] and [ds] are an uppercase residue and the digits of an integer mass. *)
Definition is_residue_mass (c : ascii) (ds : pystr) : Prop :=
  is_upper c = true ∧ ds ≠ [] ∧ Forall (fun d => is_digit d = true) ds.

(** The text starts with a residue immediately followed by a bracketed
    integer mass. *)
Definition starts_with_residue_mass (s : pystr) : Prop :=
  ∃ c ds rest, is_residue_mass c ds ∧ s = c :: "["%char :: ds ++ "]"%char :: rest.

(** The score-permutation form as the specification words it: every
    residue immediately followed by a bracketed integer mass is replaced by
    its lowercase letter, and every other character is kept. *)
Inductive lowered : pystr → pystr → Prop :=
| lowered_nil : lowered [] []
| lowered_residue_mass c ds rest out :
    is_residue_mass c ds → lowered rest out →
    lowered (c :: "["%char :: ds ++ "]"%char :: rest) (lower_char c :: out)
| lowered_other c s out :
    ¬ starts_with_residue_mass (c :: s) → lowered s out → lowered (c :: s) (c :: out).

(** The elements of a list, each once, in the order in which they first
    occur. *)
Fixpoint first_occurrences (l : list pystr) : list pystr :=
  match l with
  | [] => []
  | x :: l' => x :: filter (fun y => y ≠ x) (first_occurrences l')
  end.

(** The modifications the output of the top peptide shows. *)
Definition shown_mods (self : PSM) : list obs_mod :=
  filter (fun m => type m = labile ∨ type m = stable) (psm_mods self).

(** The sites of the modifications named [nm], counted from 1. *)
Definition sites_of (nm : pystr) (ms : list obs_mod) : list pystr :=
  site_str <$> filter (fun m => obs_name m = nm) ms.

(** The definition [d] holds the fields of a line or of a passed
    definition: the mass, one residue of the residues, [opt] or not, the
    position and the name. *)
Definition entry_of_fields (fields : list pystr) (d : mod_def) : Prop :=
  fields !! 4 = Some (name d) ∧ fields !! 3 = Some (pos d)
  ∧ (∃ varfix, fields !! 2 = Some varfix ∧ (var d = true ↔ varfix = s2l "opt"))
  ∧ (∃ residues, fields !! 1 = Some residues ∧ residue d ∈ residues)
  ∧ (∃ m0, fields !! 0 = Some m0 ∧ PyFloat.float_of_str m0 = Ok (mass d)).

(** The name [nm] of a line is one of the names looked for. *)
Definition wanted (mods_to_find : list pystr) (nm : pystr) : Prop :=
  lower nm ∈ mods_to_find ∨ (lower nm = s2l "tmt6plex" ∧ s2l "tmt10plex" ∈ mods_to_find).

(** Two definitions of one effective mass and of two names. *)
Definition same_mass_other_name (m1 m2 : mod_def) : Prop :=
  PyFloat.eq (get_mass_or_adj m1) (get_mass_or_adj m2) = true ∧ name m1 ≠ name m2.

(** A line of modifications for the first tool: the mass, the residues,
    [opt] or [fix], the position and the name of the definition [m]. *)
Definition modline (k : float) (residues : pystr) (m : mod_def) : pystr :=
  PyFloat.repr k ++ s2l "," ++ residues ++ s2l ","
    ++ s2l (if var m then "opt" else "fix") ++ s2l "," ++ pos m ++ s2l "," ++ name m.

(** The dict after [d[key].append(m)], or [d[key] = [m]], for each
    definition of [ms]. *)
Definition grouped_by (key : mod_def → float) (ms : list mod_def) : massdict :=
  fold_left (fun d m => mass_append d (key m) m) ms [].

(** The pattern [([A-Z]){0,1}] followed by the pattern [core]. *)
Definition opt_residue {G} (core : pystr → option (G * nat)) (s : pystr)
  : option ((option ascii * G) * nat) :=
  let without := (fun '(g, n) => ((None, g), n)) <$> core s in
  match s with
  | c :: s' =>
      if is_upper c then
        match core s' with
        | Some (g, n) => Some ((Some c, g), S n)
        | None => without
        end
      else without
  | [] => None
  end.

(** [[0-9\.+\-]+], with the length of the match *)
Definition delta_run (s : pystr) : option (pystr * nat) :=
  (fun run => (run, length run)) <$> re_delta_run s.

(** [barepep] and [start] after the loop of a parser over the matches [xs] *)
Definition bare_scan (s : pystr) (xs : list (rmatch (G := option ascii * pystr)))
    (st : pystr * nat) : pystr * nat :=
  fold_left (fun '(b, start) x => (bare_after s b start x, m_end x)) xs st.

(** The text without the matches of a pattern. *)
Definition without_matches {G} (core : pystr → option (G * nat)) (s : pystr) : pystr :=
  re_sub core (fun _ => []) s.

(** The modification [o] is on the N-terminus of the protein, or at an
    index of [seq], from 0, that holds its residue. *)
Definition site_in (seq : pystr) (o : obs_mod) : Prop :=
  site o = ("["%char, (-100)%Z)
  ∨ ∃ i, snd (site o) = Z.of_nat i ∧ seq !! i = Some (fst (site o)).

(** The names of the columns [main] looks for in the header of the PSM
    table. *)
Definition psm_column_names : list pystr :=
  s2l <$> ["Peptide"; "SpectraFile"; "Charge"; "ScanNum"; "PSM q-value"]%string.

(** [i] is the first position of [x] in [l]. *)
Definition first_position (x : pystr) (l : list pystr) (i : nat) : Prop :=
  l !! i = Some x ∧ ∀ j, j < i → l !! j ≠ Some x.

(** The bracketed masses of a peptide of the second tool have at most
    4300 digits, so that [int()] converts each of them. *)
Definition short_masses (modpep : pystr) : Prop :=
  Forall (fun x : rmatch (G := option ascii * pystr) => length (snd (m_groups x)) ≤ 4300)
         (finditer re_luci modpep).

(** A peptide of the second tool as its residues and its bracketed
    masses. *)
Inductive luci_token : Type :=
| Res (c : ascii)
| Mass (ds : pystr).

Definition render_token (t : luci_token) : pystr :=
  match t with
  | Res c => [c]
  | Mass ds => "["%char :: ds ++ ["]"%char]
  end.

Definition render_tokens (toks : list luci_token) : pystr := concat (render_token <$> toks).

(** A residue is a capital letter; a mass has digits, one at least and
    4300 at most. *)
Definition well_formed_token (t : luci_token) : Prop :=
  match t with
  | Res c => is_upper c = true
  | Mass ds => ds ≠ [] ∧ Forall (fun d => is_digit d = true) ds ∧ length ds ≤ 4300
  end.

#[global] Instance well_formed_token_dec (t : luci_token) : Decision (well_formed_token t).
Proof. destruct t; simpl; apply _. Defined.

Fixpoint residues_of (toks : list luci_token) : pystr :=
  match toks with
  | [] => []
  | Res c :: rest => c :: residues_of rest
  | Mass _ :: rest => residues_of rest
  end.

(** The modification recorded for the definition [ptm] after the bare
    sequence [bare]. *)
Definition recorded (ptm : mod_def) (bare : pystr) (labileptms stabileptms : list pystr) : obs_mod :=
  ObsMod (anchor bare) (get_modtype ptm labileptms stabileptms)
         (mass ptm) (name ptm) (name_lower ptm) None.

(** The modifications of a peptide as the specification words them: a
    mass is looked up with the residue right before it ([prev]), and it is
    recorded exactly when the name key of its definition is in the labile
    set, at the last residue of the bare sequence so far, or at the
    N-terminus of the protein while that sequence is empty. *)
Fixpoint token_mods (ptms_map : gmap pystr mod_def) (labileptms stabileptms : list pystr)
    (bare : pystr) (prev : option ascii) (toks : list luci_token) : list obs_mod :=
  match toks with
  | [] => []
  | Res c :: rest => token_mods ptms_map labileptms stabileptms (bare ++ [c]) (Some c) rest
  | Mass ds :: rest =>
      match ptms_map !! luci_key (prev, ds) with
      | Some ptm =>
          if bool_decide (name_lower ptm ∈ labileptms)
          then recorded ptm bare labileptms stabileptms
               :: token_mods ptms_map labileptms stabileptms bare None rest
          else token_mods ptms_map labileptms stabileptms bare None rest
      | None => token_mods ptms_map labileptms stabileptms bare None rest
      end
  end.

(** Every mass of the peptide, with the residue right before it, is a key
    of the lookup. *)
Fixpoint tokens_resolve (ptms_map : gmap pystr mod_def) (prev : option ascii)
    (toks : list luci_token) : Prop :=
  match toks with
  | [] => True
  | Res c :: rest => tokens_resolve ptms_map (Some c) rest
  | Mass ds :: rest =>
      is_Some (ptms_map !! luci_key (prev, ds)) ∧ tokens_resolve ptms_map None rest
  end.

#[global] Instance tokens_resolve_dec (ptms_map : gmap pystr mod_def) (prev : option ascii)
    (toks : list luci_token) : Decision (tokens_resolve ptms_map prev toks).
Proof. revert prev. induction toks as [|[c|ds] rest IH]; intros prev; simpl; apply _. Defined.

(** * Theorems *)

(** ** Exceptions and loops *)

Lemma bind_Ok {A B} (r : result A) (f : A → result B) (b : B) :
  r ≫= f = Ok b → ∃ a, r = Ok a ∧ f a = Ok b.
Proof. destruct r as [a|e]; [eauto | discriminate]. Qed.

Lemma bind_Raise {A B} (r : result A) (f : A → result B) (e : exn) :
  r ≫= f = Raise e → r = Raise e ∨ ∃ a, r = Ok a ∧ f a = Raise e.
Proof. destruct r as [a|e']; intros H; [right; eauto | left; by inversion H]. Qed.

Lemma bind_Ok_eq {A B} (a : A) (f : A → result B) : Ok a ≫= f = f a.
Proof. reflexivity. Qed.

Lemma fmap_Ok {A B} (f : A → B) (r : result A) (b : B) :
  f <$> r = Ok b → ∃ a, r = Ok a ∧ b = f a.
Proof. destruct r as [a|e]; [|discriminate]. intros [= <-]. eauto. Qed.

(** splits a hypothesis on a sequence of statements that ended well *)
Ltac inv_ok H :=
  repeat match type of H with
    | _ ≫= _ = Ok _ =>
        let a := fresh "a" in let Ha := fresh "Ha" in
        apply bind_Ok in H as (a & Ha & H)
    | Ok _ = Ok _ => injection H as H
    | Raise _ = Ok _ => discriminate H
    end.

Lemma mapM_cons {A B} (f : A → result B) (x : A) (l : list A) :
  mapM f (x :: l) = y ← f x; k ← mapM f l; Ok (y :: k).
Proof. reflexivity. Qed.

Lemma mapM_Ok {A B} (f : A → result B) (l : list A) (k : list B) :
  mapM f l = Ok k ↔ Forall2 (fun x y => f x = Ok y) l k.
Proof.
  revert k. induction l as [|x l IH]; intros k.
  - split; [intros [= <-]; constructor | inversion 1; subst; reflexivity].
  - rewrite mapM_cons. split.
    + intros H. inv_ok H. subst k. constructor; [done|]. by apply IH.
    + inversion 1 as [|? y ? k' Hy Hk]; subst. rewrite Hy. simpl.
      apply IH in Hk. by rewrite Hk.
Qed.

Lemma mapM_Raise {A B} (f : A → result B) (l : list A) (e : exn) :
  mapM f l = Raise e → ∃ x, x ∈ l ∧ f x = Raise e.
Proof.
  induction l as [|x l IH]; [discriminate|].
  rewrite mapM_cons. intros H.
  apply bind_Raise in H as [H|(y & Hy & H)].
  - exists x. split; [constructor | done].
  - apply bind_Raise in H as [H|(k & Hk & H)]; [|discriminate].
    destruct (IH H) as (x' & Hin & Hx'). exists x'. split; [by constructor | done].
Qed.

Lemma foldM_cons {A B} (f : B → A → result B) (b : B) (x : A) (l : list A) :
  foldM f b (x :: l) = b' ← f b x; foldM f b' l.
Proof. reflexivity. Qed.

(** decides a conjunction of closed equations by evaluation, from left to right *)
Ltac by_evaluation :=
  lazymatch goal with
  | |- _ ∧ _ => split; [vm_compute; reflexivity | by_evaluation]
  | _ => vm_compute; reflexivity
  end.

(** ** Facts on floats *)


Lemma Prim2SF_eq x y : Prim2SF x = Prim2SF y → x = y.
Proof.
  intros H. rewrite <- (SF2Prim_Prim2SF x), <- (SF2Prim_Prim2SF y). by rewrite H.
Qed.

Lemma SFopp_binary_round s m e :
  SFopp (binary_round prec emax s m e) = binary_round prec emax (negb s) m e.
Proof.
  unfold binary_round, binary_round_aux.
  destruct (shl_align _ _ _) as [mz ez].
  destruct (shr_fexp _ _ _ _ _) as [mrs' e'].
  destruct (shr_fexp _ _ _ _ _) as [mrs'' e''].
  destruct (shr_m mrs''); simpl; try done.
  by destruct (Z.leb _ _).
Qed.

Lemma SFopp_binary_normalize m e :
  m ≠ 0%Z →
  SFopp (binary_normalize prec emax m e false) = binary_normalize prec emax (- m) e false.
Proof.
  destruct m; [done | |]; intros _; simpl; apply SFopp_binary_round.
Qed.

Lemma SFsub_opp x y :
  SFopp (SF64sub x y) = SF64sub y x
  ∨ (SFopp (SF64sub x y) = S754_zero true ∧ SF64sub y x = S754_zero false).
Proof.
  unfold SF64sub.
  destruct x as [sx|sx| |sx mx ex], y as [sy|sy| |sy my ey];
    try (by repeat (match goal with s : bool |- _ => destruct s end); simpl; auto).
  unfold SFsub. rewrite (Z.min_comm ey ex).
  set (a := cond_Zopp sx _). set (b := cond_Zopp sy _).
  destruct (decide (a - b = 0)%Z) as [Hz|Hz].
  - right. replace (b - a)%Z with 0%Z by lia. by rewrite Hz.
  - left. rewrite SFopp_binary_normalize by done. f_equal. lia.
Qed.

Lemma opp_sub (a b : float) : same_number (- (a - b)) (b - a).
Proof.
  destruct (SFsub_opp (Prim2SF a) (Prim2SF b)) as [H|[H1 H2]].
  - left. apply Prim2SF_eq. by rewrite opp_spec, !sub_spec.
  - right. unfold PyFloat.eq. by rewrite FloatAxioms.eqb_spec, opp_spec, !sub_spec, H1, H2.
Qed.

Lemma sub_zero (a : float) : (a - 0)%float = a.
Proof.
  apply Prim2SF_eq. rewrite sub_spec.
  change (Prim2SF 0) with (S754_zero false).
  by destruct (Prim2SF a) as [[]|[]| |].
Qed.

Lemma SFeqb_true x y :
  SFeqb x y = true →
  x = y ∨ ∃ sx sy, x = S754_zero sx ∧ y = S754_zero sy.
Proof.
  unfold SFeqb, SFcompare.
  destruct x as [sx|sx| |sx mx ex], y as [sy|sy| |sy my ey];
    try (by repeat (match goal with s : bool |- _ => destruct s end); simpl; auto);
    try (right; eauto; fail).
  destruct sx, sy; try done.
  - destruct (Z.compare_spec ex ey); try done. subst.
    destruct (Pos.compare_cont Eq mx my) eqn:Hm; try done.
    apply Pos.compare_eq in Hm. subst. auto.
  - destruct (Z.compare_spec ex ey); try done. subst.
    destruct (Pos.compare_cont Eq mx my) eqn:Hm; try done.
    apply Pos.compare_eq in Hm. subst. auto.
Qed.

Lemma same_number_cases a b :
  same_number a b →
  a = b ∨ ∃ sa sb, Prim2SF a = S754_zero sa ∧ Prim2SF b = S754_zero sb.
Proof.
  intros [->|H]; [by left|].
  unfold PyFloat.eq in H. rewrite FloatAxioms.eqb_spec in H.
  destruct (SFeqb_true _ _ H) as [?|?]; [left; by apply Prim2SF_eq | by right].
Qed.

Lemma same_number_round a b nd :
  same_number a b → same_number (PyFloat.round_nd a nd) (PyFloat.round_nd b nd).
Proof.
  intros H. destruct (same_number_cases _ _ H) as [->|(sa & sb & Ha & Hb)]; [by left|].
  right. unfold PyFloat.round_nd. rewrite Ha, Hb.
  unfold PyFloat.eq. by rewrite FloatAxioms.eqb_spec, Ha, Hb.
Qed.

(** ** The catalog *)

Lemma fixedpos_add_lookup fp m r :
  fixedpos_add fp m !! r =
    if decide (residue m = r) then Some (default [] (fp !! r) ++ [m]) else fp !! r.
Proof.
  unfold fixedpos_add. case_decide as Hr.
  - subst r. destruct (fp !! residue m); by rewrite lookup_insert_eq.
  - destruct (fp !! residue m); by rewrite lookup_insert_ne.
Qed.

(** [fixedpos] holds, for each residue, its fixed modifications in the
    order of [self.mods], and no key for a residue without any. *)
Lemma build_fixedpos_lookup ms r :
  default [] (build_fixedpos ms !! r) = filter (fun f => var f = false ∧ residue f = r) ms.
Proof.
  unfold build_fixedpos.
  induction ms as [|m ms IH] using rev_ind; [done|].
  rewrite fold_left_app, filter_app. simpl.
  destruct (var m) eqn:Hv.
  - rewrite IH. rewrite filter_cons_False by (intros [? _]; congruence).
    by rewrite filter_nil, app_nil_r.
  - rewrite fixedpos_add_lookup. case_decide as Hr.
    + simpl. rewrite IH. by rewrite filter_cons_True, filter_nil.
    + rewrite IH. rewrite filter_cons_False by (intros [_ ?]; congruence).
      by rewrite filter_nil, app_nil_r.
Qed.

Lemma build_fixedpos_is_Some ms r :
  is_Some (build_fixedpos ms !! r) ↔ ∃ f, f ∈ ms ∧ var f = false ∧ residue f = r.
Proof.
  unfold build_fixedpos.
  induction ms as [|m ms IH] using rev_ind.
  - simpl. rewrite lookup_empty. split; [by intros [? ?]|]. intros (f & Hf & _). by apply elem_of_nil in Hf.
  - rewrite fold_left_app. simpl. destruct (var m) eqn:Hv.
    + rewrite IH. split; intros (f & Hf & Hvf & Hr).
      * exists f. rewrite elem_of_app. auto.
      * exists f. rewrite elem_of_app in Hf. destruct Hf as [Hf|Hf]; [done|].
        apply list_elem_of_singleton in Hf. congruence.
    + rewrite fixedpos_add_lookup. case_decide as Hr.
      * split; [intros _|by eauto]. exists m. rewrite elem_of_app, list_elem_of_singleton. auto.
      * rewrite IH. split; intros (f & Hf & Hvf & Hrf).
        -- exists f. rewrite elem_of_app. auto.
        -- exists f. rewrite elem_of_app in Hf. destruct Hf as [Hf|Hf]; [done|].
           apply list_elem_of_singleton in Hf. congruence.
Qed.

Lemma adjustment_of_from (nb : list pystr) (fmods : list mod_def) (acc : float) :
  fold_left (fun adjustment fmod =>
               if bool_decide (name fmod ∈ nb) then adjustment
               else (adjustment + mass fmod)%float) fmods acc
  = fold_left PrimFloat.add (mass <$> filter (fun f => name f ∉ nb) fmods) acc.
Proof.
  revert acc. induction fmods as [|f fmods IH]; intros acc; [done|].
  simpl. case_bool_decide as Hn.
  - rewrite filter_cons_False by tauto. apply IH.
  - rewrite filter_cons_True by done. simpl. apply IH.
Qed.

(** The adjustment of the program is the sum of the specification. *)
Lemma adjustment_is_blocking_sum ms v :
  adjustment_of (non_blocking_for v) (default [] (build_fixedpos ms !! residue v))
  = blocking_mass_sum ms v.
Proof.
  unfold adjustment_of, blocking_mass_sum, mass_sum, blocking_fixed.
  rewrite adjustment_of_from, build_fixedpos_lookup, list_filter_filter.
  do 2 f_equal. apply list_filter_iff. tauto.
Qed.

Lemma adjust_spec ms v :
  ∃ a, adjust (build_fixedpos ms) v = set_adjusted_mass v a
       ∧ same_number a (PyFloat.round_nd (mass v - blocking_mass_sum ms v) 5).
Proof.
  eexists. split; [reflexivity|].
  apply same_number_round.
  fold (non_blocking_for v). rewrite adjustment_is_blocking_sum. apply opp_sub.
Qed.

(** The variable definitions are those of [self.mods]: the adjusted mass
    written through [self.varmods] is seen through [self.mods]. *)
Lemma varmods_of_mods ms :
  varmods (finalize ms) = filter (fun m => var m = true) (mods (finalize ms)).
Proof.
  unfold finalize. simpl. generalize (build_fixedpos ms). intros fp.
  induction ms as [|m ms IH]; [done|].
  rewrite fmap_cons. destruct (var m) eqn:Hv.
  - rewrite !filter_cons_True by done. rewrite fmap_cons. by rewrite IH.
  - rewrite !filter_cons_False by congruence. apply IH.
Qed.

(** C1, as amended: after [parse_msgf_modfile] has finalized the catalog,
    the adjusted mass of a variable definition [v] is
    [round(v.mass - M, 5)], with [M] the sum of the masses of the fixed
    definitions on the residue of [v] whose name is not listed as
    non-blocking for the name of [v]; and when there is no such fixed
    definition it is [round(v.mass, 5)] (not [v.mass] itself). *)
Theorem adjusted_mass_after_finalize (ms : list mod_def) (v : mod_def) :
  v ∈ varmods (finalize ms) →
  ∃ a, adjusted_mass v = Some a
     ∧ same_number a (PyFloat.round_nd (mass v - blocking_mass_sum ms v) 5)
     ∧ (blocking_fixed ms v = [] → same_number a (PyFloat.round_nd (mass v) 5)).
Proof.
  unfold finalize. simpl. intros Hv.
  apply list_elem_of_fmap in Hv as (v0 & -> & _).
  destruct (adjust_spec ms v0) as (a & -> & Ha).
  exists a. split; [done|]. split; [exact Ha|].
  intros Hnil.
  assert (blocking_mass_sum ms v0 = 0%float) as Hz.
  { unfold blocking_mass_sum.
    change (blocking_fixed ms v0) with (blocking_fixed ms (set_adjusted_mass v0 a)).
    by rewrite Hnil. }
  rewrite Hz in Ha. simpl in Ha. by rewrite sub_zero in Ha.
Qed.

(** With TMT6plex fixed on K, the adjusted mass of Acetyl on K. *)
Lemma adjusted_mass_after_finalize_witness :
  ∃ a, adjusted_mass (set_adjusted_mass acetyl_K (-187.15237)) = Some a
     ∧ same_number a
         (PyFloat.round_nd
            (mass (set_adjusted_mass acetyl_K (-187.15237))
             - blocking_mass_sum [tmt_K; acetyl_K] (set_adjusted_mass acetyl_K (-187.15237))) 5)
     ∧ (blocking_fixed [tmt_K; acetyl_K] (set_adjusted_mass acetyl_K (-187.15237)) = [] →
        same_number a (PyFloat.round_nd (mass (set_adjusted_mass acetyl_K (-187.15237))) 5)).
Proof.
  apply (adjusted_mass_after_finalize [tmt_K; acetyl_K]).
  vm_compute. constructor.
Defined.

(** C1 as stated fails: Phospho on S with no fixed modification on S has
    the mass 79.966331 and the adjusted mass 79.96633. *)
Lemma adjusted_mass_not_raw_mass :
  ∃ c v,
    parse_msgf_modfile [s2l "79.966331,S,opt,any,Phospho"] [s2l "Phospho"] = Ok c
    ∧ fixedmods c = []
    ∧ varmods c = [v]
    ∧ blocking_fixed (mods c) v = []
    ∧ mass v = 79.966331%float
    ∧ adjusted_mass v = Some 79.96633%float
    ∧ PyFloat.eq 79.96633 79.966331 = false.
Proof.
  eexists _, _. by_evaluation.
Qed.

(** ** The lookup of the first tool *)

Lemma pyeq_zeros a b sa sb :
  Prim2SF a = S754_zero sa → Prim2SF b = S754_zero sb → PyFloat.eq a b = true.
Proof.
  intros Ha Hb. unfold PyFloat.eq. by rewrite FloatAxioms.eqb_spec, Ha, Hb.
Qed.

Lemma pyeq_cases a b :
  PyFloat.eq a b = true →
  a = b ∨ ∃ sa sb, Prim2SF a = S754_zero sa ∧ Prim2SF b = S754_zero sb.
Proof. intros H. apply same_number_cases. by right. Qed.

Lemma pyeq_sym a b : PyFloat.eq a b = true → PyFloat.eq b a = true.
Proof.
  intros H. destruct (pyeq_cases _ _ H) as [->|(sa & sb & Ha & Hb)]; [done|].
  by eapply pyeq_zeros.
Qed.

Lemma pyeq_trans a b c :
  PyFloat.eq a b = true → PyFloat.eq b c = true → PyFloat.eq a c = true.
Proof.
  intros H1 H2.
  destruct (pyeq_cases _ _ H1) as [->|(sa & sb & Ha & Hb)]; [done|].
  destruct (pyeq_cases _ _ H2) as [<-|(sb' & sc & _ & Hc)]; [done|].
  by eapply pyeq_zeros.
Qed.

Lemma same_number_eq k a f :
  same_number k a → PyFloat.eq k f = true → PyFloat.eq a f = true.
Proof.
  intros [->|H] Hk; [done|]. eapply pyeq_trans; [|exact Hk]. by apply pyeq_sym.
Qed.

Lemma mass_append_elem d k m k1 l1 :
  (k1, l1) ∈ mass_append d k m →
  (k1 = k ∧ l1 = [m] ∧ mass_lookup d k = None)
  ∨ (∃ l0, (k1, l0) ∈ d ∧ (l1 = l0 ∨ (l1 = l0 ++ [m] ∧ PyFloat.eq k1 k = true))).
Proof.
  induction d as [|[k' l'] d IH]; simpl.
  - rewrite list_elem_of_singleton. intros [= -> ->]. by left.
  - destruct (PyFloat.eq k' k) eqn:Hk.
    + rewrite !elem_of_cons. intros [[= -> ->]|Hin]; right.
      * exists l'. split; [by left | right; done].
      * exists l1. split; [by right | by left].
    + rewrite elem_of_cons. intros [[= -> ->]|Hin].
      * right. exists l'. split; [by left | by left].
      * destruct (IH Hin) as [(-> & -> & Hl)|(l0 & Hl0 & Hl1)]; [by left|].
        right. exists l0. split; [by right | done].
Qed.

Lemma mass_append_well_keyed d ms m :
  well_keyed d ms → well_keyed (mass_append d (msgf_key m) m) (ms ++ [m]).
Proof.
  intros Hd k l Hin.
  apply mass_append_elem in Hin as [(-> & -> & _)|(l0 & Hl0 & Hl)].
  - split; [done|]. intros m' ->%list_elem_of_singleton.
    split; [apply elem_of_app; right; constructor | by left].
  - destruct (Hd _ _ Hl0) as [Hne Hms].
    destruct Hl as [->|[-> Hk]].
    + split; [done|]. intros m' Hm'. destruct (Hms _ Hm') as [? ?].
      split; [apply elem_of_app; by left | done].
    + split; [by destruct l0|]. intros m' [Hm'| ->%list_elem_of_singleton]%elem_of_app.
      * destruct (Hms _ Hm') as [? ?]. split; [apply elem_of_app; by left | done].
      * split; [apply elem_of_app; right; constructor | by right].
Qed.

Lemma mass_append_distinct d k m :
  distinct_keys d → distinct_keys (mass_append d k m).
Proof.
  induction d as [|[k' l'] d IH]; simpl.
  - intros _. split; [|done]. intros ? ? Hin. by apply elem_of_nil in Hin.
  - intros [Hk' Hd]. destruct (PyFloat.eq k' k) eqn:Hk; simpl.
    + done.
    + split; [|by apply IH]. intros k1 l1 Hin.
      apply mass_append_elem in Hin as [(-> & _ & _)|(l0 & Hl0 & _)]; [done|].
      by eapply Hk'.
Qed.

Lemma mass_append_filed d k m :
  ∃ k' l, (k', l) ∈ mass_append d k m ∧ m ∈ l ∧ (k' = k ∨ PyFloat.eq k' k = true).
Proof.
  induction d as [|[k' l'] d IH]; simpl.
  - exists k, [m]. split; [constructor|]. split; [constructor | by left].
  - destruct (PyFloat.eq k' k) eqn:Hk.
    + exists k', (l' ++ [m]). split; [constructor|].
      split; [apply elem_of_app; right; constructor | by right].
    + destruct IH as (k1 & l1 & Hin & Hm & Hk1).
      exists k1, l1. split; [by constructor | done].
Qed.

Lemma mass_append_keeps d k m k1 l1 m1 :
  (k1, l1) ∈ d → m1 ∈ l1 → ∃ l, (k1, l) ∈ mass_append d k m ∧ m1 ∈ l.
Proof.
  induction d as [|[k' l'] d IH]; simpl; [by intros ?%elem_of_nil|].
  rewrite elem_of_cons. intros [[= -> ->]|Hin] Hm1.
  - destruct (PyFloat.eq k' k).
    + exists (l' ++ [m]). split; [constructor | apply elem_of_app; by left].
    + exists l'. split; [constructor | done].
  - destruct (PyFloat.eq k' k).
    + exists l1. split; [by constructor | done].
    + destruct (IH Hin Hm1) as (l & Hl & Hml). exists l. split; [by constructor | done].
Qed.

Lemma msgfmass_invariant (ms : list mod_def) :
  let d := fold_left (fun mod_map m => mass_append mod_map (msgf_key m) m) ms [] in
  well_keyed d ms ∧ distinct_keys d
  ∧ ∀ m, m ∈ ms → ∃ k l, (k, l) ∈ d ∧ m ∈ l ∧ same_number k (msgf_key m).
Proof.
  induction ms as [|m ms IH] using rev_ind; simpl.
  - split; [intros ? ? ?%elem_of_nil; done|]. split; [done|]. by intros ? ?%elem_of_nil.
  - rewrite fold_left_app. simpl. destruct IH as (Hw & Hd & Hf).
    split; [by apply mass_append_well_keyed|]. split; [by apply mass_append_distinct|].
    intros m' [Hm'| ->%list_elem_of_singleton]%elem_of_app.
    + destruct (Hf _ Hm') as (k & l & Hin & Hml & Hk).
      destruct (mass_append_keeps _ (msgf_key m) m _ _ _ Hin Hml) as (l2 & Hl2 & Hm2).
      by exists k, l2.
    + destruct (mass_append_filed (fold_left (fun mod_map m => mass_append mod_map (msgf_key m) m) ms [])
                  (msgf_key m) m) as (k & l & Hin & Hml & Hk).
      exists k, l. split; [done|]. split; [done|]. destruct Hk as [->|Hk]; [by left | by right].
Qed.

Lemma mass_lookup_Some d f l :
  mass_lookup d f = Some l → ∃ k, (k, l) ∈ d ∧ PyFloat.eq k f = true.
Proof.
  induction d as [|[k' l'] d IH]; simpl; [done|].
  destruct (PyFloat.eq k' f) eqn:Hk.
  - intros [= ->]. exists k'. split; [constructor | done].
  - intros H. destruct (IH H) as (k & Hin & Hkf). exists k. split; [by constructor | done].
Qed.

Lemma mass_lookup_distinct d k l f :
  distinct_keys d → (k, l) ∈ d → PyFloat.eq k f = true → mass_lookup d f = Some l.
Proof.
  induction d as [|[k' l'] d IH]; simpl; [by intros _ ?%elem_of_nil|].
  intros [Hk' Hd]. rewrite elem_of_cons. intros [[= -> ->]|Hin] Hkf.
  - by rewrite Hkf.
  - destruct (PyFloat.eq k' f) eqn:Hk'f.
    + specialize (Hk' _ _ Hin). apply pyeq_sym in Hkf.
      by rewrite (pyeq_trans _ _ _ Hk'f Hkf) in Hk'.
    + by apply IH.
Qed.

(** What a mass finds in the lookup of the first tool: a list that is
    not empty, of definitions of the catalog whose effective mass, rounded
    to three decimals, is [==] to the mass looked up. *)
Lemma msgfmass_lookup (self : Mods) (f : float) (l : list mod_def) :
  mass_lookup (msgfmass_mod_dict self) f = Some l →
  l ≠ [] ∧ ∀ m, m ∈ l → m ∈ mods self ∧ PyFloat.eq (msgf_key m) f = true.
Proof.
  intros H. apply mass_lookup_Some in H as (k & Hin & Hk).
  destruct (msgfmass_invariant (mods self)) as (Hw & _ & _).
  destruct (Hw _ _ Hin) as [Hne Hl]. split; [done|].
  intros m Hm. destruct (Hl _ Hm) as [Hms Hsame]. split; [done|].
  by eapply same_number_eq.
Qed.

(** A definition of the catalog is found under its rounded effective
    mass, unless that is not a number. *)
Lemma msgfmass_finds (self : Mods) (m : mod_def) :
  m ∈ mods self → PyFloat.eq (msgf_key m) (msgf_key m) = true →
  ∃ l, mass_lookup (msgfmass_mod_dict self) (msgf_key m) = Some l ∧ m ∈ l.
Proof.
  intros Hm Hnum.
  destruct (msgfmass_invariant (mods self)) as (_ & Hd & Hf).
  destruct (Hf _ Hm) as (k & l & Hin & Hml & Hk).
  exists l. split; [|done]. eapply mass_lookup_distinct; [done..|].
  destruct Hk as [->|Hk]; done.
Qed.

(** ** Parsing the notation of the first tool *)

Lemma resolve_delta_Ok d lab stab res sitenum tok o :
  resolve_delta d lab stab res sitenum tok = Ok o →
  resolved_from d lab stab o tok ∧ site o = (res, sitenum).
Proof.
  unfold resolve_delta. intros H. inv_ok H.
  destruct (mass_lookup d a) as [l|] eqn:Hl; [|discriminate].
  injection Ha0 as <-. unfold index in Ha1.
  destruct l as [|m l]; [discriminate|]. injection Ha1 as <-. subst o.
  split; [|done]. exists a, m, l. by repeat split.
Qed.

Lemma msgf_step_Ok s d lab stab barepep start obs x barepep' start' obs' :
  msgf_step s d lab stab (barepep, start, obs) x = Ok (barepep', start', obs') →
  ∃ new, obs' = obs ++ new
         ∧ Forall2 (resolved_from d lab stab) new (delta_tokens (snd (m_groups x))).
Proof.
  unfold msgf_step. intros H. apply bind_Ok in H as ([[b res] sn] & _ & H).
  apply bind_Ok in H as (new & Hnew & H). injection H as <- <- <-.
  exists new. split; [done|].
  apply mapM_Ok in Hnew. apply Forall2_flip.
  eapply Forall2_impl; [exact Hnew|]. intros tok o Ho. by apply resolve_delta_Ok in Ho as [? _].
Qed.

Lemma msgf_loop_Ok s d lab stab xs barepep start obs barepep' start' obs' :
  foldM (msgf_step s d lab stab) (barepep, start, obs) xs = Ok (barepep', start', obs') →
  ∃ new, obs' = obs ++ new
         ∧ Forall2 (resolved_from d lab stab) new
             (concat ((fun x : rmatch => delta_tokens (snd (m_groups x))) <$> xs)).
Proof.
  revert barepep start obs. induction xs as [|x xs IH]; intros barepep start obs.
  - intros [= <- <- <-]. exists []. by rewrite app_nil_r.
  - rewrite foldM_cons. intros H. apply bind_Ok in H as ([[b1 s1] o1] & Hstep & H).
    apply msgf_step_Ok in Hstep as (new1 & -> & Hnew1).
    apply IH in H as (new2 & -> & Hnew2).
    exists (new1 ++ new2). rewrite app_assoc. split; [done|].
    rewrite fmap_cons. simpl. by apply Forall2_app.
Qed.

(** The modifications of a parsed peptide are those of its signed masses,
    one for each and in their order. *)
Lemma parse_msgf_peptide_mods self s d lab stab psm :
  parse_msgf_peptide self s d lab stab = Ok psm →
  Forall2 (resolved_from d lab stab) (psm_mods psm) (all_delta_tokens s).
Proof.
  unfold parse_msgf_peptide. intros H. apply bind_Ok in H as ([[b st] obs] & Hloop & H).
  injection H as <-. apply msgf_loop_Ok in Hloop as (new & -> & Hnew). exact Hnew.
Qed.

(** *** The scan *)

Lemma ordered_from_weaken {G} (p q hi : nat) (xs : list (rmatch (G := G))) :
  q ≤ p → ordered_from p hi xs → ordered_from q hi xs.
Proof. destruct xs as [|x xs]; simpl; [done|]. intros ? (? & ? & ?). repeat split; [lia|done..]. Qed.

Lemma finditer_from_ordered {G} (pat : pystr → option (G * nat)) (pos skip : nat) (s : pystr) :
  ordered_from (pos + skip) (pos + length s) (finditer_from pat pos skip s).
Proof.
  revert pos skip. induction s as [|c s IH]; intros pos skip; simpl; [done|].
  destruct skip as [|k].
  - destruct (pat (c :: s)) as [[g n]|]; simpl.
    + split; [lia|]. split; [lia|].
      replace (pos + S (length s)) with (S pos + length s) by lia.
      eapply ordered_from_weaken; [|apply IH]. lia.
    + replace (pos + S (length s)) with (S pos + length s) by lia.
      eapply ordered_from_weaken; [|apply IH]. lia.
  - replace (pos + S (length s)) with (S pos + length s) by lia.
    replace (pos + S k) with (S pos + k) by lia. apply IH.
Qed.

Lemma finditer_ordered {G} (pat : pystr → option (G * nat)) (s : pystr) :
  ordered_from 0 (length s) (finditer pat s).
Proof. apply (finditer_from_ordered pat 0 0 s). Qed.

Lemma mapM_is_Ok {A B} (f : A → result B) (l : list A) :
  Forall (fun x => ∃ y, f x = Ok y) l → ∃ k, mapM f l = Ok k.
Proof.
  induction 1 as [|x l [y Hy] _ [k Hk]]; [by exists []|].
  exists (y :: k). rewrite mapM_cons, Hy. simpl. by rewrite Hk.
Qed.

Lemma resolve_delta_is_Ok d lab stab res sitenum tok :
  resolvable d tok → (∀ f, mass_lookup d f ≠ Some []) →
  ∃ o, resolve_delta d lab stab res sitenum tok = Ok o.
Proof.
  intros (f & Hf & [l Hl]) Hne. unfold resolve_delta. rewrite Hf. simpl. rewrite Hl. simpl.
  destruct l as [|m l]; [by destruct (Hne f)|]. simpl. eauto.
Qed.

Lemma last_char_slice barepep start stop s :
  start < stop → start < length s →
  ∃ c, last_char (barepep ++ slice start stop s) = Ok c.
Proof.
  intros H1 H2. unfold last_char, slice.
  destruct (last (barepep ++ take (stop - start) (drop start s))) as [c|] eqn:Hl; [eauto|].
  apply last_None in Hl. apply app_eq_nil in Hl as [_ Hl].
  apply (f_equal length) in Hl. rewrite length_take, length_drop in Hl. simpl in Hl. lia.
Qed.

Lemma msgf_step_is_Ok s d lab stab barepep start obs x :
  start ≤ m_start x → m_start x < length s →
  (∀ f, mass_lookup d f ≠ Some []) →
  Forall (resolvable d) (delta_tokens (snd (m_groups x))) →
  ∃ barepep' obs', msgf_step s d lab stab (barepep, start, obs) x = Ok (barepep', m_end x, obs').
Proof.
  intros Hs1 Hs2 Hne Hx. unfold msgf_step.
  destruct (fst (m_groups x)) as [c|].
  - destruct (last_char_slice barepep start (m_start x + 1) s) as [r Hr]; [lia..|].
    rewrite Hr. simpl.
    destruct (mapM_is_Ok (resolve_delta d lab stab r
                (Z.of_nat (length (barepep ++ slice start (m_start x + 1) s)) - 1)%Z)
                (delta_tokens (snd (m_groups x)))) as [new Hnew].
    { eapply Forall_impl; [exact Hx|]. intros tok Htok. by apply resolve_delta_is_Ok. }
    rewrite Hnew. simpl. eauto.
  - simpl.
    destruct (mapM_is_Ok (resolve_delta d lab stab "["%char (-100)%Z)
                (delta_tokens (snd (m_groups x)))) as [new Hnew].
    { eapply Forall_impl; [exact Hx|]. intros tok Htok. by apply resolve_delta_is_Ok. }
    rewrite Hnew. simpl. eauto.
Qed.

Lemma msgf_loop_is_Ok s d lab stab xs barepep start obs :
  ordered_from start (length s) xs →
  (∀ f, mass_lookup d f ≠ Some []) →
  Forall (resolvable d) (concat ((fun x : rmatch => delta_tokens (snd (m_groups x))) <$> xs)) →
  ∃ st, foldM (msgf_step s d lab stab) (barepep, start, obs) xs = Ok st.
Proof.
  intros Hord Hne. revert barepep start obs Hord.
  induction xs as [|x xs IH]; intros barepep start obs Hord Hall; [by eexists|].
  rewrite fmap_cons in Hall. simpl in Hall. apply Forall_app in Hall as [Hx Hxs].
  destruct Hord as (Hs1 & Hs2 & Hord).
  rewrite foldM_cons.
  destruct (msgf_step_is_Ok s d lab stab barepep start obs x) as (b' & obs' & Hstep); [done..|].
  rewrite Hstep. simpl. by apply IH.
Qed.

(** A peptide all of whose signed masses find an entry is parsed. *)
Lemma parse_msgf_peptide_is_Ok self s d lab stab :
  (∀ f, mass_lookup d f ≠ Some []) →
  Forall (resolvable d) (all_delta_tokens s) →
  ∃ psm, parse_msgf_peptide self s d lab stab = Ok psm.
Proof.
  intros Hne Hall. unfold parse_msgf_peptide.
  destruct (msgf_loop_is_Ok s d lab stab (finditer re_msgf s) [] 0 []) as [[[b st] obs] Hst];
    [apply finditer_ordered | done | done |].
  destruct (foldM _ _ _) as [[[b' st'] obs']|e] eqn:Hloop; simpl; [eauto|].
  discriminate Hst.
Qed.

(** C8: every signed mass of a peptide of the first tool is resolved
    through the lookup of the first tool, by a definition of the catalog
    whose effective mass rounded to three decimals is [==] to the float of
    the token; and a token that no entry of the lookup matches ends the run
    with an exception: no modification is dropped.  A peptide whose
    tokens all find an entry is parsed. *)
Theorem delta_tokens_resolved_or_fatal
    (c : Mods) (self : PSM) (msgfseq : pystr) (labileptmnames stableptmnames : list pystr) :
  (∀ psm,
     parse_msgf_peptide self msgfseq (msgfmass_mod_dict c) labileptmnames stableptmnames = Ok psm →
     Forall2 (fun o tok =>
                ∃ f m, PyFloat.float_of_str tok = Ok f
                       ∧ m ∈ mods c
                       ∧ PyFloat.eq (PyFloat.round_nd (get_mass_or_adj m) 3) f = true
                       ∧ observed_from labileptmnames stableptmnames o m)
             (psm_mods psm) (all_delta_tokens msgfseq))
  ∧ (∀ tok,
       tok ∈ all_delta_tokens msgfseq →
       unresolvable (msgfmass_mod_dict c) tok →
       ∃ e, parse_msgf_peptide self msgfseq (msgfmass_mod_dict c)
              labileptmnames stableptmnames = Raise e)
  ∧ (Forall (resolvable (msgfmass_mod_dict c)) (all_delta_tokens msgfseq) →
     ∃ psm, parse_msgf_peptide self msgfseq (msgfmass_mod_dict c)
              labileptmnames stableptmnames = Ok psm).
Proof.
  split; [|split].
  - intros psm Hp. apply parse_msgf_peptide_mods in Hp.
    eapply Forall2_impl; [exact Hp|]. intros o tok (f & m & l & Hf & Hl & Ho).
    apply msgfmass_lookup in Hl as [_ Hl]. destruct (Hl m) as [Hm Hk]; [constructor|].
    by exists f, m.
  - intros tok Hin Hun.
    destruct (parse_msgf_peptide _ _ _ _ _) as [psm|e] eqn:Hp; [|by exists e].
    apply parse_msgf_peptide_mods in Hp.
    apply list_elem_of_lookup in Hin as [i Hi].
    destruct (Forall2_lookup_r _ _ _ _ _ Hp Hi) as (o & _ & f & m & l & Hf & Hl & _).
    by rewrite (Hun f Hf) in Hl.
  - apply parse_msgf_peptide_is_Ok. intros f Hf. by apply msgfmass_lookup in Hf as [? _].
Qed.

(** Phospho is filed under 79.966: the token [+79.9663] finds nothing. *)
Lemma delta_tokens_resolved_or_fatal_witness :
  ∃ e, parse_msgf_peptide new_PSM (s2l "PEPS+79.9663TIK+229.163")
         (msgfmass_mod_dict (finalize [phospho_S; tmt_K])) [s2l "phospho"] [] = Raise e.
Proof.
  apply (proj1 (proj2 (delta_tokens_resolved_or_fatal (finalize [phospho_S; tmt_K]) new_PSM
                  (s2l "PEPS+79.9663TIK+229.163") [s2l "phospho"] [])) (s2l "+79.9663")).
  - vm_compute. constructor.
  - intros f Hf. vm_compute in Hf. injection Hf as <-. vm_compute. reflexivity.
Defined.

(** ** The lookup of the second tool *)

Lemma lucimass_key_spec (v : mod_def) :
  lucimass_key v = residue_mass_key (residue v) (get_mass_or_adj v).
Proof. reflexivity. Qed.

Lemma last_cons_cases {A} (x : A) (l : list A) :
  last (x :: l) = Some (default x (last l)).
Proof.
  revert x. induction l as [|y l IH]; intros x; [done|].
  change (last (x :: y :: l)) with (last (y :: l)). by rewrite (IH y).
Qed.

(** What the loop of [lucimass_mod_dict] leaves under each key. *)
Lemma lucimass_loop_lookup (vs : list mod_def) (acc modmap : gmap pystr mod_def) (k : pystr) :
  foldM (fun modmap m => k ← lucimass_key m; Ok (<[k := m]> modmap)) acc vs = Ok modmap →
  modmap !! k = match last_with_key vs k with Some v => Some v | None => acc !! k end.
Proof.
  unfold last_with_key. revert acc. induction vs as [|v vs IH]; intros acc.
  - by intros [= <-].
  - rewrite foldM_cons. intros H. apply bind_Ok in H as (acc' & Hacc' & H).
    apply bind_Ok in Hacc' as (kv & Hkv & [= <-]).
    rewrite (IH _ H). destruct (decide (kv = k)) as [->|Hne].
    + rewrite filter_cons_True by done. rewrite last_cons_cases, lookup_insert_eq.
      by destruct (last _).
    + rewrite filter_cons_False by congruence. by rewrite lookup_insert_ne.
Qed.

Lemma lucimass_loop_is_Ok (vs : list mod_def) (acc : gmap pystr mod_def) :
  Forall (fun v => ∃ k, lucimass_key v = Ok k) vs →
  ∃ modmap, foldM (fun modmap m => k ← lucimass_key m; Ok (<[k := m]> modmap)) acc vs = Ok modmap.
Proof.
  intros H. revert acc. induction H as [|v vs [k Hk] _ IH]; intros acc; [by eexists|].
  rewrite foldM_cons, Hk, !bind_Ok_eq. apply IH.
Qed.

Lemma lucimass_loop_keys (vs : list mod_def) (acc modmap : gmap pystr mod_def) :
  foldM (fun modmap m => k ← lucimass_key m; Ok (<[k := m]> modmap)) acc vs = Ok modmap →
  Forall (fun v => ∃ k, lucimass_key v = Ok k) vs.
Proof.
  revert acc. induction vs as [|v vs IH]; intros acc; [constructor|].
  rewrite foldM_cons. intros H. apply bind_Ok in H as (acc' & Hacc' & H).
  apply bind_Ok in Hacc' as (kv & Hkv & _). constructor; [eauto | by eapply IH].
Qed.

Lemma last_with_key_Some vs k v :
  last_with_key vs k = Some v → v ∈ vs ∧ lucimass_key v = Ok k.
Proof.
  unfold last_with_key. intros H. apply last_Some in H as [l' Hl'].
  assert (v ∈ filter (fun v => lucimass_key v = Ok k) vs) as Hv.
  { rewrite Hl'. apply elem_of_app. right. constructor. }
  by apply list_elem_of_filter in Hv as [? ?].
Qed.

Lemma last_with_key_is_Some vs k v :
  v ∈ vs → lucimass_key v = Ok k → is_Some (last_with_key vs k).
Proof.
  intros Hv Hk. unfold last_with_key.
  destruct (last _) as [x|] eqn:Hl; [eauto|].
  apply last_None in Hl.
  assert (v ∈ filter (fun v => lucimass_key v = Ok k) vs) as Hin
    by (apply list_elem_of_filter; done).
  rewrite Hl in Hin. by apply elem_of_nil in Hin.
Qed.

(** C7, as amended: when the key of every variable definition can be
    computed, the lookup of the second tool is built, and it holds under
    each key the last variable definition with that key.  So every
    variable definition finds an entry under its key (the residue, then
    the integer nearest to the monoisotopic mass of the residue plus the
    effective mass), and definitions with one key share one entry. *)
Theorem lucimass_entries (self : Mods) :
  (Forall (fun v => ∃ k, residue_mass_key (residue v) (get_mass_or_adj v) = Ok k) (varmods self) →
   ∃ modmap, lucimass_mod_dict self = Ok modmap)
  ∧ (∀ modmap, lucimass_mod_dict self = Ok modmap →
       (∀ k, modmap !! k = last_with_key (varmods self) k)
       ∧ (∀ v, v ∈ varmods self →
            ∃ k v', residue_mass_key (residue v) (get_mass_or_adj v) = Ok k
                    ∧ modmap !! k = Some v' ∧ v' ∈ varmods self
                    ∧ residue_mass_key (residue v') (get_mass_or_adj v') = Ok k)
       ∧ (∀ k v, modmap !! k = Some v →
            v ∈ varmods self ∧ residue_mass_key (residue v) (get_mass_or_adj v) = Ok k)).
Proof.
  unfold lucimass_mod_dict. split; [apply lucimass_loop_is_Ok|].
  intros modmap H.
  assert (∀ k, modmap !! k = last_with_key (varmods self) k) as Hlk.
  { intros k. rewrite (lucimass_loop_lookup _ _ _ k H). rewrite lookup_empty.
    by destruct (last_with_key _ _). }
  split; [exact Hlk|]. split.
  - intros v Hv. apply lucimass_loop_keys in H.
    apply (proj1 (Forall_forall _ _)) with (x := v) in H as [k Hk]; [|done].
    destruct (last_with_key_is_Some _ _ _ Hv Hk) as [v' Hv'].
    exists k, v'. rewrite Hlk. split; [done|]. split; [done|].
    by apply last_with_key_Some in Hv'.
  - intros k v Hkv. rewrite Hlk in Hkv. by apply last_with_key_Some in Hkv.
Qed.

(** Phospho on S and T, with keys S167 and T181. *)
Lemma lucimass_entries_witness :
  ∃ modmap,
    lucimass_mod_dict (finalize [phospho_S; mk_mod "Phospho" 79.966331 "T" true "any"; tmt_K])
    = Ok modmap.
Proof.
  apply (proj1 (lucimass_entries (finalize [phospho_S; mk_mod "Phospho" 79.966331 "T" true "any"; tmt_K]))).
  repeat constructor; eexists; vm_compute; reflexivity.
Defined.

(** C7 as stated fails: Phospho and Sulfo on S both have the key S167;
    the lookup holds one entry for the two definitions, that of Sulfo. *)
Lemma lucimass_one_entry_for_two :
  ∃ c,
    parse_msgf_modfile [s2l "79.966331,S,opt,any,Phospho"; s2l "79.956815,S,opt,any,Sulfo"]
                       [s2l "Phospho"; s2l "Sulfo"] = Ok c
    ∧ (name <$> varmods c) = [s2l "Phospho"; s2l "Sulfo"]
    ∧ (lucimass_key <$> varmods c) = [Ok (s2l "S167"); Ok (s2l "S167")]
    ∧ (size <$> lucimass_mod_dict c) = Ok 1
    ∧ ((fun modmap : gmap pystr mod_def => name <$> modmap !! s2l "S167") <$> lucimass_mod_dict c)
      = Ok (Some (s2l "Sulfo")).
Proof.
  eexists. by_evaluation.
Qed.

(** ** The effective mass *)

Lemma get_mass_or_adj_zero (m : mod_def) (a : float) :
  adjusted_mass m = Some a → PyFloat.eq a 0 = true → get_mass_or_adj m = mass m.
Proof.
  intros Ha Hz. unfold get_mass_or_adj, PyFloat.truthy. rewrite Ha.
  unfold PyFloat.eq in Hz. by rewrite Hz.
Qed.

(** What a variable definition finds under its key in the lookup of the
    second tool. *)
Lemma lucimass_mod_dict_lookup (self : Mods) (modmap : gmap pystr mod_def) (v : mod_def) :
  lucimass_mod_dict self = Ok modmap → v ∈ varmods self →
  ∃ k v', lucimass_key v = Ok k ∧ modmap !! k = Some v' ∧ v' ∈ varmods self
          ∧ lucimass_key v' = Ok k.
Proof.
  unfold lucimass_mod_dict. intros H Hv.
  pose proof (lucimass_loop_keys _ _ _ H) as Hkeys.
  apply (proj1 (Forall_forall _ _)) with (x := v) in Hkeys as [k Hk]; [|done].
  destruct (last_with_key_is_Some _ _ _ Hv Hk) as [v' Hv'].
  exists k, v'. rewrite (lucimass_loop_lookup _ _ _ k H), Hv'.
  split; [done|]. split; [done|]. by apply last_with_key_Some in Hv'.
Qed.

(** C9: a definition whose adjusted mass is zero has its raw mass as
    effective mass, the zero being taken for the value that says "not set":
    the definition is filed in the lookup of the first tool under its raw
    mass rounded to three decimals, has the key of its raw mass in the
    lookup of the second tool, and its line for the second tool shows the
    raw mass. *)
Theorem zero_adjusted_mass_gives_raw_mass (m : mod_def) (a : float) :
  adjusted_mass m = Some a → PyFloat.eq a 0 = true →
  get_mass_or_adj m = mass m
  ∧ (∀ self, m ∈ mods self →
       PyFloat.eq (PyFloat.round_nd (mass m) 3) (PyFloat.round_nd (mass m) 3) = true →
       ∃ l, mass_lookup (msgfmass_mod_dict self) (PyFloat.round_nd (mass m) 3) = Some l ∧ m ∈ l)
  ∧ lucimass_key m = residue_mass_key (residue m) (mass m)
  ∧ (∀ self modmap, lucimass_mod_dict self = Ok modmap → m ∈ varmods self →
       ∃ k, residue_mass_key (residue m) (mass m) = Ok k ∧ is_Some (modmap !! k))
  ∧ (∃ res, get_luci_input_mod_line m = res :: s2l " " ++ PyFloat.repr (mass m)).
Proof.
  intros Ha Hz. pose proof (get_mass_or_adj_zero m a Ha Hz) as Heff.
  split; [done|]. split; [|split; [|split]].
  - intros self Hm Hnum. apply msgfmass_finds in Hm; unfold msgf_key in *; by rewrite Heff in *.
  - by rewrite lucimass_key_spec, Heff.
  - intros self modmap Hd Hm.
    destruct (lucimass_mod_dict_lookup self modmap m Hd Hm) as (k & v' & Hk & Hl & _).
    exists k. rewrite lucimass_key_spec, Heff in Hk. eauto.
  - unfold get_luci_input_mod_line. rewrite Heff. eauto.
Qed.

(** With Carbamidomethyl fixed on C, a variable modification of C with
    the same mass has the adjusted mass -0.0 and the effective mass
    57.021464. *)
Lemma zero_adjusted_mass_gives_raw_mass_witness :
  varmods (finalize [cam_C; custom_C]) = [set_adjusted_mass custom_C (-0)%float]
  ∧ get_mass_or_adj (set_adjusted_mass custom_C (-0)%float) = 57.021464%float.
Proof.
  split; [vm_compute; reflexivity|].
  exact (proj1 (zero_adjusted_mass_gives_raw_mass
                  (set_adjusted_mass custom_C (-0)%float) (-0)%float eq_refl eq_refl)).
Defined.

(** ** Two names of one mass *)

(** C2, the program at a catalog where Oxidation and Hydroxylation have
    one mass: the lookup of the first tool is built, with both under
    15.995; the mass on P is read as Oxidation, the first of the two, and
    the row is left out for want of a labile modification; [main] writes
    its file.  [get_msgf_modlines] ends the run on the same catalog. *)
Lemma two_names_one_mass_resolved :
  ∃ c psm,
    parse_msgf_modfile two_names_modfile [s2l "Hydroxylation"; s2l "Oxidation"] = Ok c
    ∧ ((fun kl : float * list mod_def => (fst kl, name <$> snd kl)) <$> msgfmass_mod_dict c)
      = [(15.995%float, [s2l "Oxidation"; s2l "Hydroxylation"])]
    ∧ parse_msgf_peptide new_PSM (s2l "AP+15.995K") (msgfmass_mod_dict c)
        [s2l "hydroxylation"] [s2l "oxidation"] = Ok psm
    ∧ ((fun o => (site o, type o, obs_name o)) <$> psm_mods psm)
      = [(("P"%char, 1%Z), stable, s2l "Oxidation")]
    ∧ main_lucipsms two_names_modfile [s2l "Hydroxylation"] [s2l "Oxidation"]
        [psm_header; psm_line "AP+15.995K"] = Ok lucipsms_header
    ∧ get_msgf_modlines c = Raise SystemExit.
Proof.
  eexists _, _. by_evaluation.
Qed.

(** ** The sites for the second tool *)

Lemma mapM_raises {A B} (f : A → result B) (l : list A) (x : A) (e : exn) :
  x ∈ l → f x = Raise e → (∀ y e', f y = Raise e' → e' = e) → mapM f l = Raise e.
Proof.
  intros Hin Hx Honly. destruct (mapM f l) as [k|e'] eqn:Hm.
  - apply mapM_Ok in Hm. apply list_elem_of_lookup in Hin as [i Hi].
    destruct (Forall2_lookup_l _ _ _ _ _ Hm Hi) as (y & _ & Hy). congruence.
  - apply mapM_Raise in Hm as (y & _ & Hy). by rewrite (Honly _ _ Hy).
Qed.

Lemma lucimod_raises (m : obs_mod) (e : exn) : lucimod m = Raise e → e = KeyError.
Proof.
  unfold lucimod, getitem. destruct (aa_weights_monoiso !! _); [discriminate|].
  by intros [= <-].
Qed.

Lemma no_weight_of_bracket : aa_weights_monoiso !! "["%char = None.
Proof. vm_compute. reflexivity. Qed.

(** A match without residue puts its modifications on the N-terminus of
    the protein. *)
Lemma msgf_step_no_residue s d lab stab barepep start obs x barepep' start' obs' :
  fst (m_groups x) = None →
  msgf_step s d lab stab (barepep, start, obs) x = Ok (barepep', start', obs') →
  ∃ new, obs' = obs ++ new
         ∧ length new = length (delta_tokens (snd (m_groups x)))
         ∧ Forall (fun o => site o = ("["%char, (-100)%Z)) new.
Proof.
  unfold msgf_step. intros ->. rewrite bind_Ok_eq. intros H.
  apply bind_Ok in H as (new & Hnew & [= <- <- <-]).
  exists new. split; [done|]. apply mapM_Ok in Hnew.
  split; [symmetry; by eapply Forall2_length|].
  apply Forall_forall. intros o Ho. apply list_elem_of_lookup in Ho as [i Hi].
  destruct (Forall2_lookup_r _ _ _ _ _ Hnew Hi) as (tok & _ & Htok).
  by apply resolve_delta_Ok in Htok as [_ ?].
Qed.

(** C10: a PSM with a modification that is not fixed and sits on the
    N-terminus of the protein, at the site ('[', -100), cannot be
    rendered for the second tool: [luciphor_input_sites] raises
    [KeyError], '[' having no monoisotopic mass.  The first tool's
    notation gives such a site to every signed mass without a residue
    before it, and [main] reaches the error on a table with such a
    peptide. *)
Theorem nterm_site_raises_KeyError :
  (∀ (self : PSM) (m : obs_mod),
     m ∈ psm_mods self → type m ≠ fixed → site m = ("["%char, (-100)%Z) →
     luciphor_input_sites self = Raise KeyError)
  ∧ (∀ s d lab stab barepep start obs x barepep' start' obs',
       fst (m_groups x) = None →
       msgf_step s d lab stab (barepep, start, obs) x = Ok (barepep', start', obs') →
       ∃ new, obs' = obs ++ new
              ∧ length new = length (delta_tokens (snd (m_groups x)))
              ∧ Forall (fun o => site o = ("["%char, (-100)%Z)) new)
  ∧ main_lucipsms nterm_modfile [s2l "Phospho"] [s2l "Acetyl"]
      [psm_header; psm_line "+42.011PEPS+79.966TIDE"] = Raise KeyError.
Proof.
  split; [|split; [apply msgf_step_no_residue | vm_compute; reflexivity]].
  intros self m Hm Ht Hs. unfold luciphor_input_sites.
  rewrite (mapM_raises lucimod _ m KeyError); [done| | |].
  - apply list_elem_of_filter. done.
  - unfold lucimod, getitem. rewrite Hs.
    change (("["%char, (-100)%Z).1) with "["%char. by rewrite no_weight_of_bracket.
  - intros y e' Hy. by apply lucimod_raises in Hy.
Qed.

(** The peptide [+42.011PEPS+79.966TIDE], with Acetyl on the N-terminus
    of the protein. *)
Lemma nterm_site_raises_KeyError_witness :
  parse_msgf_peptide new_PSM (s2l "+42.011PEPS+79.966TIDE")
    (msgfmass_mod_dict (finalize [phospho_S; mk_mod "Acetyl" 42.010565 "*" true "Prot-N-term"]))
    [s2l "phospho"] [s2l "acetyl"] = Ok nterm_psm
  ∧ luciphor_input_sites nterm_psm = Raise KeyError.
Proof.
  split; [vm_compute; reflexivity|].
  apply (proj1 nterm_site_raises_KeyError nterm_psm nterm_acetyl).
  - apply list_elem_of_here.
  - discriminate.
  - reflexivity.
Defined.
(** ** Parsing the notation of the second tool *)

Lemma py_int_short (s : pystr) : length s ≤ 4300 → py_int s = Ok (int_digits s).
Proof.
  intros H. unfold py_int. destruct (4300 <? length s) eqn:Hl; [|reflexivity].
  apply Nat.ltb_lt in Hl. lia.
Qed.

Lemma py_int_long (s : pystr) : 4300 < length s → py_int s = Raise ValueError.
Proof. intros H. unfold py_int. apply Nat.ltb_lt in H. by rewrite H. Qed.

Lemma py_int_Ok (s : pystr) (n : Z) : py_int s = Ok n → length s ≤ 4300 ∧ n = int_digits s.
Proof.
  unfold py_int. destruct (4300 <? length s) eqn:Hl; [discriminate|].
  intros [= <-]. apply Nat.ltb_ge in Hl. done.
Qed.

Lemma luci_step_eq modpep ptms_map lab stab barepep start obs x ptm :
  length (snd (m_groups x)) ≤ 4300 →
  ptms_map !! luci_key (m_groups x) = Some ptm →
  luci_step modpep ptms_map lab stab (barepep, start, obs) x =
    Ok (bare_after modpep barepep start x, m_end x,
        if bool_decide (name_lower ptm ∈ lab)
        then obs ++ [ObsMod (anchor (bare_after modpep barepep start x))
                            (get_modtype ptm lab stab) (mass ptm) (name ptm) (name_lower ptm) None]
        else obs).
Proof.
  intros Hlen Hptm. unfold luci_step, getitem. unfold luci_key in Hptm. unfold pystr in *.
  rewrite (py_int_short _ Hlen), bind_Ok_eq. rewrite Hptm, bind_Ok_eq.
  generalize (bare_after modpep barepep start x). intros b.
  case_bool_decide as Hlab; [|reflexivity].
  unfold anchor, last_char. destruct b as [|c b]; [reflexivity|].
  rewrite bool_decide_eq_false_2 by discriminate.
  destruct (last (c :: b)) as [r|] eqn:Hl; [reflexivity | by apply last_None in Hl].
Qed.

Lemma luci_step_Ok modpep ptms_map lab stab barepep start obs x st :
  luci_step modpep ptms_map lab stab (barepep, start, obs) x = Ok st →
  length (snd (m_groups x)) ≤ 4300 ∧ is_Some (ptms_map !! luci_key (m_groups x)).
Proof.
  unfold luci_step, getitem, luci_key. intros H. unfold pystr in *.
  destruct (py_int (snd (m_groups x))) as [n|e] eqn:Hn; [|discriminate H].
  apply py_int_Ok in Hn as [Hlen ->]. split; [exact Hlen|].
  rewrite bind_Ok_eq in H.
  destruct (ptms_map !! _) as [ptm|]; [eauto | discriminate H].
Qed.

(** [int()] raises on a mass of more than 4300 digits, before the lookup *)
Lemma luci_step_long_mass modpep ptms_map lab stab st x :
  4300 < length (snd (m_groups x)) →
  luci_step modpep ptms_map lab stab st x = Raise ValueError.
Proof.
  intros Hlen. destruct st as [[b s] o]. unfold luci_step. unfold pystr in *.
  by rewrite (py_int_long _ Hlen).
Qed.

(** the modifications recorded over a list of matches *)
Lemma luci_loop_Ok modpep ptms_map lab stab xs barepep start obs barepep' start' obs' :
  foldM (luci_step modpep ptms_map lab stab) (barepep, start, obs) xs
    = Ok (barepep', start', obs') →
  ∃ new, obs' = obs ++ new
    ∧ Forall2 (fun o x => ∃ ptm, ptms_map !! luci_key (m_groups x) = Some ptm
                                 ∧ name_lower ptm ∈ lab
                                 ∧ type o = get_modtype ptm lab stab
                                 ∧ obs_mass o = mass ptm ∧ obs_name o = name ptm
                                 ∧ obs_name_lower o = name_lower ptm)
              new (filter (fun x => is_labile_match ptms_map lab x = true) xs).
Proof.
  revert barepep start obs. induction xs as [|x xs IH]; intros barepep start obs.
  - intros [= <- <- <-]. exists []. rewrite app_nil_r. split; [done | constructor].
  - rewrite foldM_cons. intros H. apply bind_Ok in H as ([[b1 s1] o1] & Hstep & H).
    destruct (luci_step_Ok _ _ _ _ _ _ _ _ _ Hstep) as [Hlen [ptm Hptm]].
    rewrite (luci_step_eq _ _ _ _ _ _ _ _ _ Hlen Hptm) in Hstep. injection Hstep as <- <- <-.
    apply IH in H as (new & -> & Hnew).
    unfold is_labile_match at 1.
    case_bool_decide as Hlab.
    + rewrite filter_cons_True by (unfold is_labile_match; rewrite Hptm; by apply bool_decide_eq_true_2).
      eexists (_ :: new). rewrite <- app_assoc. split; [done|].
      constructor; [|done]. exists ptm. by repeat split.
    + rewrite filter_cons_False
        by (unfold is_labile_match; rewrite Hptm; rewrite bool_decide_eq_false_2; done).
      by exists new.
Qed.

Lemma luci_loop_is_Ok modpep ptms_map lab stab xs st :
  Forall (fun x : rmatch (G := option ascii * pystr) => length (snd (m_groups x)) ≤ 4300) xs →
  Forall (fun x : rmatch => is_Some (ptms_map !! luci_key (m_groups x))) xs →
  ∃ st', foldM (luci_step modpep ptms_map lab stab) st xs = Ok st'.
Proof.
  intros Hs H. revert st Hs. induction H as [|x xs [ptm Hptm] _ IH]; intros [[b s] o] Hs; [by eexists|].
  apply Forall_cons in Hs as [Hx Hs].
  rewrite foldM_cons, (luci_step_eq _ _ _ _ _ _ _ _ _ Hx Hptm), bind_Ok_eq. by apply IH.
Qed.

(** ** The rows for the second tool *)

Lemma has_labileptms_true (self : PSM) :
  has_labileptms self = true ↔ Exists (fun m => type m = labile) (psm_mods self).
Proof.
  unfold has_labileptms. rewrite existsb_exists, Exists_exists. split.
  - intros (m & Hin & Hm). exists m. split; [by apply list_elem_of_In | by apply bool_decide_eq_true in Hm].
  - intros (m & Hin & Hm). exists m. split; [by apply list_elem_of_In | by apply bool_decide_eq_true].
Qed.

Lemma has_labileptms_false (self : PSM) :
  has_labileptms self = false ↔ Forall (fun m => type m ≠ labile) (psm_mods self).
Proof.
  rewrite <- not_true_iff_false, has_labileptms_true, <- Forall_Exists_neg.
  apply Forall_iff. tauto.
Qed.

Lemma lucimod_Ok (m : obs_mod) (x : Z * pystr) :
  lucimod m = Ok x → site_entry (render_lucimod x) m.
Proof.
  unfold lucimod, getitem. destruct (aa_weights_monoiso !! _) as [aa|] eqn:Haa; [|discriminate].
  rewrite bind_Ok_eq. intros [= <-]. by exists aa.
Qed.

Lemma lucimod_is_Ok (m : obs_mod) :
  is_Some (aa_weights_monoiso !! fst (site m)) → ∃ x, lucimod m = Ok x.
Proof. intros [aa Haa]. unfold lucimod, getitem. rewrite Haa. by eexists. Qed.

(** The sites of a PSM whose residues all have a monoisotopic mass. *)
Lemma luciphor_input_sites_Ok (self : PSM) :
  Forall (fun m => is_Some (aa_weights_monoiso !! fst (site m)))
         (filter (fun m => type m ≠ fixed) (psm_mods self)) →
  ∃ entries,
    luciphor_input_sites self = Ok (join (s2l ",") entries)
    ∧ Forall2 site_entry entries (filter (fun m => type m ≠ fixed) (psm_mods self)).
Proof.
  intros Hall. unfold luciphor_input_sites.
  destruct (mapM_is_Ok lucimod (filter (fun m => type m ≠ fixed) (psm_mods self))) as [xs Hxs].
  { eapply Forall_impl; [exact Hall|]. intros m. apply lucimod_is_Ok. }
  rewrite Hxs, bind_Ok_eq. exists (render_lucimod <$> xs). split; [done|].
  apply mapM_Ok in Hxs. apply Forall2_fmap_l, Forall2_flip.
  eapply Forall2_impl; [exact Hxs|]. intros m x. apply lucimod_Ok.
Qed.

(** C3, as amended: a row of the first tool's table whose peptide is
    parsed writes nothing when the peptide has no labile modification; when
    it has one, and every residue to render has a monoisotopic mass, it
    writes one row, whose field [modSites] joins with commas one entry for
    every modification that is not fixed (labile, stable or other
    variable), in their order: the index of the site, [=], and the raw mass
    of the modification plus the monoisotopic mass of the residue. *)
Theorem psm_row_filter_and_sites
    (cols : columns) (msgf_mod_map : massdict) (labileptms othermods : list pystr)
    (line pep : pystr) (psm : PSM) :
  index (split tab line) (pepcol cols) = Ok pep →
  parse_msgf_peptide new_PSM pep msgf_mod_map labileptms othermods = Ok psm →
  (Forall (fun m => type m ≠ labile) (psm_mods psm) →
   psm_row cols msgf_mod_map labileptms othermods line = Ok None)
  ∧ (Exists (fun m => type m = labile) (psm_mods psm) →
     ∀ f1 f2 f3 f4,
       index (split tab line) (spfile cols) = Ok f1 →
       index (split tab line) (scan cols) = Ok f2 →
       index (split tab line) (charge cols) = Ok f3 →
       index (split tab line) (evalue cols) = Ok f4 →
       Forall (fun m => is_Some (aa_weights_monoiso !! fst (site m)))
              (filter (fun m => type m ≠ fixed) (psm_mods psm)) →
       ∃ entries,
         psm_row cols msgf_mod_map labileptms othermods line
           = Ok (Some (newline :: join [tab] [f1; f2; f3; f4; str_sequence psm;
                                              join (s2l ",") entries]))
         ∧ Forall2 site_entry entries (filter (fun m => type m ≠ fixed) (psm_mods psm))).
Proof.
  intros Hpep Hpsm. unfold psm_row. rewrite Hpep, bind_Ok_eq, Hpsm, bind_Ok_eq. split.
  - intros Hno. apply has_labileptms_false in Hno. by rewrite Hno.
  - intros Hlab f1 f2 f3 f4 H1 H2 H3 H4 Hall. apply has_labileptms_true in Hlab.
    rewrite Hlab, H1, bind_Ok_eq, H2, bind_Ok_eq, H3, bind_Ok_eq, H4, bind_Ok_eq.
    destruct (luciphor_input_sites_Ok psm Hall) as (entries & Hs & Hentries).
    rewrite Hs, bind_Ok_eq. by exists entries.
Qed.

(** The peptide [PEPS+79.966TIK+229.163DEK-187.152R]: Phospho is labile,
    TMT6plex fixed and Acetyl stable. *)
Lemma psm_row_filter_and_sites_witness :
  ∃ entries,
    psm_row psm_columns (msgfmass_mod_dict (finalize [phospho_S; tmt_K; acetyl_K]))
      [s2l "phospho"] [s2l "tmt6plex"; s2l "acetyl"] (psm_line tmt_peptide)
    = Ok (Some (newline :: join [tab] [s2l "f1.mzML"; s2l "12"; s2l "2"; s2l "0.001";
                                       s2l "PEPSTIKDEKR"; join (s2l ",") entries]))
    ∧ length entries = 2.
Proof.
  destruct (parse_msgf_peptide new_PSM (s2l tmt_peptide)
              (msgfmass_mod_dict (finalize [phospho_S; tmt_K; acetyl_K]))
              [s2l "phospho"] [s2l "tmt6plex"; s2l "acetyl"]) as [psm|e] eqn:Hp;
    [|vm_compute in Hp; discriminate Hp].
  pose proof Hp as Hv. vm_compute in Hv. injection Hv as <-.
  destruct (proj2 (psm_row_filter_and_sites psm_columns _ _ _ (psm_line tmt_peptide)
                     (s2l tmt_peptide) _ eq_refl Hp))
    with (f1 := s2l "f1.mzML") (f2 := s2l "12") (f3 := s2l "2") (f4 := s2l "0.001")
    as (entries & Hrow & Hentries).
  - apply has_labileptms_true. vm_compute. reflexivity.
  - vm_compute. reflexivity.
  - vm_compute. reflexivity.
  - vm_compute. reflexivity.
  - vm_compute. reflexivity.
  - vm_compute. repeat constructor; eexists; reflexivity.
  - exists entries. split; [exact Hrow|]. apply Forall2_length in Hentries. exact Hentries.
Defined.

(** C3 as stated fails: for the peptide [PEPS+79.966TIK+229.163DEK-187.152R]
    the field [modSites] holds the site of Acetyl, which is stable and not
    labile, besides that of Phospho, and the masses are made from the raw
    masses: the words of the specification give [3=166.99836]. *)
Lemma modsites_hold_stable_sites :
  ∃ c psm,
    parse_msgf_modfile tmt_modfile [s2l "Phospho"; s2l "TMT6plex"; s2l "Acetyl"] = Ok c
    ∧ parse_msgf_peptide new_PSM (s2l tmt_peptide) (msgfmass_mod_dict c)
        [s2l "phospho"] [s2l "tmt6plex"; s2l "acetyl"] = Ok psm
    ∧ ((fun m => (site m, type m)) <$> psm_mods psm)
      = [(("S"%char, 3%Z), labile); (("K"%char, 6%Z), fixed); (("K"%char, 9%Z), stable)]
    ∧ psm_row psm_columns (msgfmass_mod_dict c) [s2l "phospho"] [s2l "tmt6plex"; s2l "acetyl"]
        (psm_line tmt_peptide)
      = Ok (Some (lucipsms_row ["f1.mzML"; "12"; "2"; "0.001"; "PEPSTIKDEKR";
                                "3=166.998361,9=170.105525"]))
    ∧ claimed_modsites psm = Ok (s2l "3=166.99836").
Proof.
  eexists _, _. by_evaluation.
Qed.

(** ** Alternative localizations *)








Lemma accepted_add_alt_ptm_locs (self : PSM) (labels : list pystr) minscore sp :
  accepted (add_alt_ptm_locs self labels) minscore sp = accepted self minscore sp.
Proof. reflexivity. Qed.






(** ** The score-permutation form *)

Lemma span_app (p : ascii → bool) (s : pystr) :
  s = fst (span p s) ++ snd (span p s).
Proof.
  induction s as [|c s IH]; [done|]. simpl. destruct (p c); [|done].
  destruct (span p s) as [a b]. simpl in *. by rewrite <- IH.
Qed.

Lemma span_Forall (p : ascii → bool) (s : pystr) :
  Forall (fun c => p c = true) (fst (span p s)).
Proof.
  induction s as [|c s IH]; [constructor|]. simpl. destruct (p c) eqn:Hc; [|constructor].
  destruct (span p s) as [a b]. simpl in *. by constructor.
Qed.

Lemma span_prefix (p : ascii → bool) (a : pystr) (c : ascii) (rest : pystr) :
  Forall (fun c => p c = true) a → p c = false → span p (a ++ c :: rest) = (a, c :: rest).
Proof.
  intros Ha Hc. induction Ha as [|d a Hd _ IH]; simpl.
  - by rewrite Hc.
  - by rewrite Hd, IH.
Qed.

(** The pattern [\[([0-9]+)\]] matches where the text says so. *)
Lemma re_bracket_Some (s ds : pystr) (n : nat) :
  re_bracket s = Some (ds, n) ↔
  ds ≠ [] ∧ Forall (fun d => is_digit d = true) ds ∧ n = 2 + length ds
  ∧ ∃ rest, s = "["%char :: ds ++ "]"%char :: rest.
Proof.
  unfold re_bracket. split.
  - destruct s as [|c s]; [done|].
    destruct (decide (c = "["%char)) as [->|Hc].
    + pose proof (span_app is_digit s) as Happ. pose proof (span_Forall is_digit s) as Hall.
      destruct (span is_digit s) as [a b]. simpl in *.
      destruct a as [|d a]; [done|].
      destruct b as [|e b]; [done|].
      destruct (decide (e = "]"%char)) as [->|He].
      * intros [= <- <-]. split; [done|]. split; [done|]. split; [done|].
        exists b. by rewrite Happ.
      * intros H. exfalso. revert H.
        destruct e as [[] [] [] [] [] [] [] []]; done.
    + intros H. exfalso. revert H.
      destruct c as [[] [] [] [] [] [] [] []]; done.
  - intros (Hne & Hall & -> & rest & ->).
    rewrite (span_prefix is_digit ds "]" rest Hall eq_refl).
    by destruct ds.
Qed.

Lemma re_residue_mass_Some (s : pystr) (c : ascii) (n : nat) :
  re_residue_mass s = Some (c, n) ↔
  ∃ ds rest, is_residue_mass c ds ∧ s = c :: "["%char :: ds ++ "]"%char :: rest
             ∧ n = 3 + length ds.
Proof.
  unfold re_residue_mass. split.
  - destruct s as [|c' s]; [done|]. destruct (is_upper c') eqn:Hup; [|done].
    destruct (re_bracket s) as [[ds m]|] eqn:Hb; [|done].
    intros [= <- <-]. apply re_bracket_Some in Hb as (Hne & Hall & -> & rest & ->).
    exists ds, rest. split; [by split|]. split; [done|]. simpl. lia.
  - intros (ds & rest & (Hup & Hne & Hall) & -> & ->). rewrite Hup.
    assert (re_bracket ("["%char :: ds ++ "]"%char :: rest) = Some (ds, 2 + length ds)) as ->.
    { apply re_bracket_Some. split; [done|]. split; [done|]. split; [done|]. by exists rest. }
    reflexivity.
Qed.

Lemma re_residue_mass_None (s : pystr) :
  re_residue_mass s = None ↔ ¬ starts_with_residue_mass s.
Proof.
  split.
  - intros Hnone (c & ds & rest & Hrm & ->).
    assert (re_residue_mass (c :: "["%char :: ds ++ "]"%char :: rest) = Some (c, 3 + length ds)) as H.
    { apply re_residue_mass_Some. by exists ds, rest. }
    congruence.
  - intros Hno. destruct (re_residue_mass s) as [[c n]|] eqn:H; [|done].
    apply re_residue_mass_Some in H as (ds & rest & Hrm & -> & _).
    exfalso. apply Hno. by exists c, ds, rest.
Qed.

Lemma sub_from_skip {G} (pat : pystr → option (G * nat)) (repl : G → pystr) (n : nat) (s : pystr) :
  sub_from pat repl n s = sub_from pat repl 0 (drop n s).
Proof.
  revert n. induction s as [|c s IH]; intros n.
  - by destruct n.
  - destruct n as [|k]; [done|]. simpl. apply IH.
Qed.

Lemma sub_from_match {G} (pat : pystr → option (G * nat)) (repl : G → pystr)
    (c : ascii) (s : pystr) (g : G) (n : nat) :
  pat (c :: s) = Some (g, n) →
  sub_from pat repl 0 (c :: s) = repl g ++ sub_from pat repl (n - 1) s.
Proof. intros H. simpl. by rewrite H. Qed.

Lemma sub_from_no_match {G} (pat : pystr → option (G * nat)) (repl : G → pystr)
    (c : ascii) (s : pystr) :
  pat (c :: s) = None → sub_from pat repl 0 (c :: s) = c :: sub_from pat repl 0 s.
Proof. intros H. simpl. by rewrite H. Qed.

Lemma scorepep_fmt_residue_mass (c : ascii) (ds rest : pystr) :
  is_residue_mass c ds →
  scorepep_fmt (c :: "["%char :: ds ++ "]"%char :: rest) = lower_char c :: scorepep_fmt rest.
Proof.
  intros Hrm. unfold scorepep_fmt, re_sub.
  assert (re_residue_mass (c :: "["%char :: ds ++ "]"%char :: rest) = Some (c, 3 + length ds)) as H.
  { apply re_residue_mass_Some. by exists ds, rest. }
  rewrite (sub_from_match _ _ _ _ _ _ H), (sub_from_skip _ _ (3 + length ds - 1)).
  replace (drop (3 + length ds - 1) ("["%char :: ds ++ "]"%char :: rest)) with rest; [done|].
  replace (3 + length ds - 1) with (S (length ds + 1)) by lia.
  change (drop (S (length ds + 1)) ("["%char :: ds ++ "]"%char :: rest))
    with (drop (length ds + 1) (ds ++ "]"%char :: rest)).
  by rewrite drop_app_add.
Qed.

Lemma scorepep_fmt_other (c : ascii) (s : pystr) :
  ¬ starts_with_residue_mass (c :: s) → scorepep_fmt (c :: s) = c :: scorepep_fmt s.
Proof.
  intros Hno. apply re_residue_mass_None in Hno. unfold scorepep_fmt, re_sub.
  by rewrite (sub_from_no_match _ _ _ _ Hno).
Qed.

Lemma lowered_scorepep_fmt_bounded (n : nat) (s : pystr) :
  length s ≤ n → lowered s (scorepep_fmt s).
Proof.
  revert s. induction n as [|n IH]; intros s Hlen.
  - destruct s; [constructor | simpl in Hlen; lia].
  - destruct s as [|c s]; [constructor|].
    destruct (re_residue_mass (c :: s)) as [[c' m]|] eqn:Hre.
    + apply re_residue_mass_Some in Hre as (ds & rest & Hrm & Hs & _).
      injection Hs as <- ->. rewrite scorepep_fmt_residue_mass by done.
      constructor; [done|]. apply IH. simpl in Hlen. rewrite length_app in Hlen. simpl in Hlen. lia.
    + apply re_residue_mass_None in Hre. rewrite scorepep_fmt_other by done.
      constructor; [done|]. apply IH. simpl in Hlen. lia.
Qed.

Lemma lowered_unique (s out : pystr) : lowered s out → out = scorepep_fmt s.
Proof.
  induction 1 as [|c ds rest out Hrm _ IH|c s out Hno _ IH].
  - reflexivity.
  - rewrite scorepep_fmt_residue_mass by done. by rewrite IH.
  - rewrite scorepep_fmt_other by done. by rewrite IH.
Qed.

(** C5, as amended: the score-permutation form of a peptide of the
    second tool is the peptide with every uppercase residue that is
    immediately followed by a bracketed integer mass replaced by its
    lowercase letter alone, and every other character kept; the form of
    [AC[79]DE] is [AcDE]. *)
Theorem score_permutation_form :
  (∀ s, lowered s (scorepep_fmt s) ∧ ∀ out, lowered s out → out = scorepep_fmt s)
  ∧ (∀ self line ptms_map labileptms stabileptms psm,
       parse_luciphor_peptide self line ptms_map labileptms stabileptms = Ok psm →
       seq_in_scorepep_fmt psm = Some (scorepep_fmt (predictedPep1 line)))
  ∧ scorepep_fmt (s2l "AC[79]DE") = s2l "AcDE".
Proof.
  split; [|split].
  - intros s. split; [by apply (lowered_scorepep_fmt_bounded (length s)) | apply lowered_unique].
  - intros self line ptms_map lab stab psm H. unfold parse_luciphor_peptide in H.
    apply bind_Ok in H as ([[b st] obs] & _ & [= <-]). reflexivity.
  - vm_compute. reflexivity.
Qed.

(** The form of [AC[79]DE], from the words of the specification. *)
Lemma score_permutation_form_witness : s2l "AcDE" = scorepep_fmt (s2l "AC[79]DE").
Proof.
  apply (proj2 (proj1 score_permutation_form (s2l "AC[79]DE")) (s2l "AcDE")).
  apply lowered_other; [apply re_residue_mass_None; vm_compute; reflexivity|].
  apply (lowered_residue_mass "C" (s2l "79") (s2l "DE")).
  - split; [reflexivity|]. split; [discriminate|]. repeat constructor.
  - apply lowered_other; [apply re_residue_mass_None; vm_compute; reflexivity|].
    apply lowered_other; [apply re_residue_mass_None; vm_compute; reflexivity|].
    apply lowered_nil.
Defined.

(** C5 as stated fails in its example: the form of [AC[79]DE] is [AcDE];
    the residue A carries no mass and stays uppercase. *)
Lemma form_of_AC79DE_is_not_acDE :
  scorepep_fmt (s2l "AC[79]DE") = s2l "AcDE"
  ∧ scorepep_fmt (s2l "AC[79]DE") ≠ s2l "acDE"
  ∧ (seq_in_scorepep_fmt
       <$> parse_luciphor_peptide new_PSM
             (LuciLine (s2l "0.01") (s2l "12.3") (s2l "spec1") (s2l "AC[79]DE"))
             {[ s2l "C79" := mk_mod "Fake" (-24.00919) "C" true "any" ]} [s2l "fake"] [])
    = Ok (Some (s2l "AcDE")).
Proof.
  split; [vm_compute; reflexivity|]. split; [vm_compute; discriminate|].
  vm_compute. reflexivity.
Qed.

(** ** Further properties of the program *)

(** the value of a statement that ended well *)
Lemma ok_value {A} (r : result A) (d : A) :
  is_ok r = true → r = Ok (match r with Ok a => a | Raise _ => d end).
Proof. by destruct r. Qed.

(** ** Modifications added from the PSM table *)

Lemma mods_by_name_lookup (ms : list obs_mod) (nm : pystr) :
  mods_by_name ms !! nm = None ↔ nm ∉ obs_name <$> ms.
Proof.
  unfold mods_by_name.
  induction ms as [|m ms IH] using rev_ind.
  { split; [intros _ ?%elem_of_nil; done | intros _; apply lookup_empty]. }
  rewrite fold_left_app, fmap_app, elem_of_app. simpl. rewrite list_elem_of_singleton.
  destruct (decide (obs_name m = nm)) as [->|Hne].
  - rewrite lookup_insert_eq. split; [done | tauto].
  - rewrite lookup_insert_ne by done. rewrite IH. split; [intros ? [?|?]; congruence | tauto].
Qed.

Lemma add_ptms_loop (existing : gmap pystr obs_mod) (psmmods acc : list obs_mod) :
  fold_left (fun mods psmmod =>
               if bool_decide (existing !! obs_name psmmod = None)
               then mods ++ [psmmod] else mods) psmmods acc
  = acc ++ filter (fun p => existing !! obs_name p = None) psmmods.
Proof.
  revert acc. induction psmmods as [|p ps IH]; intros acc; simpl; [by rewrite app_nil_r|].
  rewrite IH. case_bool_decide as Hp.
  - rewrite filter_cons_True by done. by rewrite <- app_assoc.
  - by rewrite filter_cons_False.
Qed.

Lemma filter_none {A} (P : A → Prop) `{∀ x, Decision (P x)} (l : list A) :
  (∀ x, x ∈ l → ¬ P x) → filter P l = [].
Proof.
  induction l as [|x l IH]; intros Hl; [done|].
  rewrite filter_cons_False by (apply Hl; constructor).
  apply IH. intros y Hy. apply Hl. by constructor.
Qed.

Lemma psm_mods_add_ptms_from_psm (self : PSM) (psmmods : list obs_mod) :
  psm_mods (add_ptms_from_psm self psmmods)
  = psm_mods self ++ filter (fun p => obs_name p ∉ obs_name <$> psm_mods self) psmmods.
Proof.
  unfold add_ptms_from_psm. simpl. rewrite add_ptms_loop. f_equal.
  apply list_filter_iff. intros p. apply mods_by_name_lookup.
Qed.

(** X1: [add_ptms_from_psm] keeps the modifications of the record, in
    their order, and appends those of the table whose name no modification
    of the record had before the call, in their order: a modification of
    the table whose name the record has is left out whatever its site, and
    two modifications of the table with one new name are both added.
    Adding the same modifications once more changes nothing. *)
Theorem add_ptms_from_psm_new_names (self : PSM) (psmmods : list obs_mod) :
  psm_mods (add_ptms_from_psm self psmmods)
    = psm_mods self ++ filter (fun p => obs_name p ∉ obs_name <$> psm_mods self) psmmods
  ∧ add_ptms_from_psm (add_ptms_from_psm self psmmods) psmmods = add_ptms_from_psm self psmmods.
Proof.
  split; [apply psm_mods_add_ptms_from_psm|].
  assert (psm_mods (add_ptms_from_psm (add_ptms_from_psm self psmmods) psmmods)
          = psm_mods (add_ptms_from_psm self psmmods)) as Hm.
  { rewrite (psm_mods_add_ptms_from_psm (add_ptms_from_psm self psmmods)).
    rewrite <- (app_nil_r (psm_mods (add_ptms_from_psm self psmmods))) at 2. f_equal.
    apply filter_none. intros p Hp Hnot. apply Hnot.
    rewrite psm_mods_add_ptms_from_psm, fmap_app, elem_of_app.
    destruct (decide (obs_name p ∈ obs_name <$> psm_mods self)) as [?|Hn]; [by left|].
    right. apply list_elem_of_fmap. exists p. split; [done|]. by apply list_elem_of_filter. }
  unfold add_ptms_from_psm in *. simpl in *. unfold set_psm_mods. simpl. by rewrite Hm.
Qed.

(** ** The output of the top peptide *)

Lemma elem_of_first_occurrences (l : list pystr) (x : pystr) :
  x ∈ first_occurrences l ↔ x ∈ l.
Proof.
  induction l as [|y l IH]; simpl; [done|].
  rewrite !elem_of_cons, list_elem_of_filter, IH.
  destruct (decide (x = y)) as [->|Hne]; [tauto|]. split; [intros [?|[_ ?]]; tauto | tauto].
Qed.

Lemma NoDup_first_occurrences (l : list pystr) : NoDup (first_occurrences l).
Proof.
  induction l as [|y l IH]; simpl; constructor.
  - rewrite list_elem_of_filter. intros [Hy _]. by apply Hy.
  - by apply NoDup_filter.
Qed.

Lemma first_occurrences_snoc (l : list pystr) (x : pystr) :
  first_occurrences (l ++ [x])
  = if decide (x ∈ l) then first_occurrences l else first_occurrences l ++ [x].
Proof.
  induction l as [|y l IH]; simpl.
  - destruct (decide (x ∈ [])) as [Hin|_]; [by apply elem_of_nil in Hin | done].
  - rewrite IH. destruct (decide (x ∈ y :: l)) as [Hin|Hin]; destruct (decide (x ∈ l)) as [Hl|Hl].
    + done.
    + apply elem_of_cons in Hin as [->|?]; [|done]. f_equal.
      rewrite filter_app, (filter_cons_False _ y) by (intros ?; done).
      by rewrite filter_nil, app_nil_r.
    + destruct Hin. by constructor.
    + f_equal. rewrite filter_app, filter_cons_True; [done|].
      intros ->. apply Hin. constructor.
Qed.

Lemma ptmsites_add_fmap (g : pystr → list pystr) (ks : list pystr) (k v : pystr) :
  NoDup ks → (k ∉ ks → g k = []) →
  ptmsites_add ((fun n => (n, g n)) <$> ks) k v
  = (fun n => (n, g n ++ if decide (k = n) then [v] else []))
      <$> (if decide (k ∈ ks) then ks else ks ++ [k]).
Proof.
  intros Hnd Hk. induction ks as [|a ks IH].
  - destruct (decide (k ∈ [])) as [Hin|_]; [by apply elem_of_nil in Hin|].
    cbn. rewrite decide_True by done. rewrite Hk by apply not_elem_of_nil. done.
  - apply NoDup_cons in Hnd as [Ha Hnd]. rewrite fmap_cons. cbn [ptmsites_add].
    case_bool_decide as Hak.
    + subst a. rewrite decide_True by constructor. rewrite fmap_cons.
      rewrite decide_True by done. f_equal.
      apply list_fmap_ext. intros i n Hn. apply list_elem_of_lookup_2 in Hn.
      rewrite decide_False by (intros ->; done). by rewrite app_nil_r.
    + rewrite IH; [|done|intros ?; apply Hk; rewrite elem_of_cons; intros [?|?]; congruence].
      destruct (decide (k ∈ ks)) as [Hin|Hin].
      * rewrite decide_True by (by constructor). rewrite fmap_cons.
        rewrite decide_False by congruence. by rewrite app_nil_r.
      * rewrite decide_False by (rewrite elem_of_cons; intros [?|?]; congruence).
        rewrite <- app_comm_cons, fmap_cons.
        rewrite decide_False by congruence. by rewrite app_nil_r.
Qed.

Lemma sites_of_snoc (nm : pystr) (ms : list obs_mod) (m : obs_mod) :
  sites_of nm (ms ++ [m])
  = sites_of nm ms ++ if decide (obs_name m = nm) then [site_str m] else [].
Proof.
  unfold sites_of. rewrite filter_app, fmap_app. f_equal.
  case_decide; [by rewrite filter_cons_True | by rewrite filter_cons_False].
Qed.

(** [ptmsites] after the loop: a key for each name, in the order in which
    the names came, with the sites of the name in the order of the
    modifications. *)
Lemma ptmsites_loop (ms : list obs_mod) :
  fold_left (fun ptmsites ptm => ptmsites_add ptmsites (obs_name ptm) (site_str ptm)) ms []
  = (fun nm => (nm, sites_of nm ms)) <$> first_occurrences (obs_name <$> ms).
Proof.
  induction ms as [|m ms IH] using rev_ind; [done|].
  rewrite fold_left_app. simpl. rewrite IH.
  rewrite (ptmsites_add_fmap (fun nm => sites_of nm ms)).
  - rewrite fmap_app. simpl. rewrite first_occurrences_snoc.
    assert (obs_name m ∈ first_occurrences (obs_name <$> ms) ↔ obs_name m ∈ obs_name <$> ms) as Hiff
      by apply elem_of_first_occurrences.
    destruct (decide (obs_name m ∈ obs_name <$> ms)) as [Hin|Hin].
    + rewrite decide_True by tauto. apply list_fmap_ext. intros i n _. by rewrite sites_of_snoc.
    + rewrite decide_False by tauto. apply list_fmap_ext. intros i n _. by rewrite sites_of_snoc.
  - apply NoDup_first_occurrences.
  - rewrite elem_of_first_occurrences. intros Hn. unfold sites_of.
    rewrite filter_none; [done|]. intros x Hx Hname. apply Hn.
    apply list_elem_of_fmap. by exists x.
Qed.

Lemma ptmsites_shown (ms : list obs_mod) (acc : list (pystr * list pystr)) :
  fold_left (fun ptmsites ptm =>
               if bool_decide (type ptm ∈ output_types)
               then ptmsites_add ptmsites (obs_name ptm) (site_str ptm)
               else ptmsites) ms acc
  = fold_left (fun ptmsites ptm => ptmsites_add ptmsites (obs_name ptm) (site_str ptm))
              (filter (fun m => type m = labile ∨ type m = stable) ms) acc.
Proof.
  revert acc. induction ms as [|m ms IH]; intros acc; [done|]. simpl.
  assert (type m ∈ output_types ↔ type m = labile ∨ type m = stable) as Hiff
    by (unfold output_types; rewrite !elem_of_cons, elem_of_nil; tauto).
  case_bool_decide as Ht.
  - rewrite filter_cons_True by tauto. simpl. apply IH.
  - rewrite filter_cons_False by tauto. apply IH.
Qed.

(** X2: the output of the top peptide is made of one group for each name
    among the labile and stable modifications of the record, in the order
    in which the names first occur, the groups joined by [_]; the group of
    a name is the name, [:], and the sites of the labile and stable
    modifications of that name joined by commas, in their order, each the
    residue and its index counted from 1.  Fixed and other variable
    modifications are not shown. *)
Theorem topptm_output_groups (self : PSM) :
  topptm_output self
  = join (s2l "_")
      ((fun nm => nm ++ s2l ":" ++ join (s2l ",") (sites_of nm (shown_mods self)))
         <$> first_occurrences (obs_name <$> shown_mods self)).
Proof.
  unfold topptm_output, shown_mods. rewrite ptmsites_shown, ptmsites_loop.
  by rewrite <- list_fmap_compose.
Qed.

(** ** Reading the modification file *)

Lemma bind_fmap_result {A B C} (f : A → B) (r : result A) (k : B → result C) :
  (x ← r; k (f x)) = (y ← f <$> r; k y).
Proof. by destruct r. Qed.

Lemma mapM_concat_filter {A B} (f : A → result (list B)) (P : A → Prop)
    `{∀ x, Decision (P x)} (l : list A) :
  (∀ x, ¬ P x → f x = Ok []) →
  @concat B <$> mapM f l = @concat B <$> mapM f (filter P l).
Proof.
  intros Hf. induction l as [|x l IH]; [done|].
  destruct (decide (P x)) as [Hx|Hx].
  - rewrite filter_cons_True by done. rewrite !mapM_cons.
    destruct (f x) as [y|e]; [|done]. rewrite !bind_Ok_eq.
    destruct (mapM f l) as [k|e], (mapM f (filter P l)) as [k'|e']; simpl in *; congruence.
  - rewrite filter_cons_False by done. rewrite mapM_cons, (Hf x Hx), bind_Ok_eq, <- IH.
    by destruct (mapM f l).
Qed.

Lemma modfile_line_skipped (mods_to_find : list pystr) (line : pystr) :
  skipped_line line ≠ false → modfile_line mods_to_find line = Ok [].
Proof. unfold modfile_line. by destruct (skipped_line line). Qed.

(** X3: the lines of the modification file that are empty, start with [#]
    or contain [NumMods] are not read: the catalog, or the exception, of
    [parse_msgf_modfile] is that of the file without these lines. *)
Theorem skipped_lines_are_not_read (modfile mods_passed : list pystr) :
  parse_msgf_modfile modfile mods_passed
  = parse_msgf_modfile (filter (fun line => skipped_line line = false) modfile) mods_passed.
Proof.
  unfold parse_msgf_modfile, read_mods. f_equal.
  rewrite (bind_fmap_result (@concat mod_def) (mapM _ modfile)
             (fun y => from_user ← mapM passed_mod mods_passed; Ok (y ++ concat from_user))).
  rewrite (bind_fmap_result (@concat mod_def) (mapM _ (filter _ modfile))
             (fun y => from_user ← mapM passed_mod mods_passed; Ok (y ++ concat from_user))).
  f_equal. apply mapM_concat_filter. intros line. apply modfile_line_skipped.
Qed.

Lemma index_short {A} (l : list A) (i : nat) : length l ≤ i → index l i = Raise IndexError.
Proof. intros H. unfold index. by rewrite lookup_ge_None_2. Qed.

Lemma read_mods_raises (modfile mods_passed : list pystr) (line : pystr) (e : exn) :
  line ∈ modfile → modfile_line (lower <$> mods_passed) line = Raise e →
  ∃ e', read_mods modfile mods_passed = Raise e'.
Proof.
  intros Hin He. unfold read_mods.
  destruct (mapM _ modfile) as [k|e'] eqn:Hk; [|by exists e'].
  apply mapM_Ok in Hk. apply list_elem_of_lookup in Hin as [i Hi].
  destruct (Forall2_lookup_l _ _ _ _ _ Hk Hi) as (y & _ & Hy). congruence.
Qed.

(** X4: a line of the modification file that is read and has fewer than
    five fields between commas raises [IndexError], whatever names were
    passed, and a file with such a line gives no catalog. *)
Theorem short_line_raises_IndexError (line : pystr) :
  skipped_line line = false → length (split "," line) < 5 →
  (∀ mods_to_find, modfile_line mods_to_find line = Raise IndexError)
  ∧ (∀ modfile mods_passed, line ∈ modfile →
       ∃ e, parse_msgf_modfile modfile mods_passed = Raise e).
Proof.
  intros Hs Hlen.
  assert (∀ mods_to_find, modfile_line mods_to_find line = Raise IndexError) as Hline.
  { intros finds. unfold modfile_line. rewrite Hs. by rewrite (index_short _ 4) by lia. }
  split; [exact Hline|]. intros modfile mods_passed Hin.
  destruct (read_mods_raises modfile mods_passed line IndexError Hin (Hline _)) as [e He].
  exists e. unfold parse_msgf_modfile. by rewrite He.
Qed.

(** A line without the name of the modification. *)
Lemma short_line_raises_IndexError_witness :
  ∃ e, parse_msgf_modfile [s2l "# phospho"; s2l "79.966331,STY,opt,any"] [s2l "Phospho"]
       = Raise e.
Proof.
  apply (proj2 (short_line_raises_IndexError (s2l "79.966331,STY,opt,any")
                  ltac:(vm_compute; reflexivity) ltac:(vm_compute; lia))).
  right; left.
Defined.

(** ** The definitions of the catalog *)

Lemma index_Ok {A} (l : list A) (i : nat) (v : A) : index l i = Ok v ↔ l !! i = Some v.
Proof. unfold index. destruct (l !! i); split; congruence. Qed.

Lemma mod_entries_Ok (fields : list pystr) (lowername : pystr) (l : list mod_def) :
  mod_entries fields lowername = Ok l →
  NoDup (residue <$> l)
  ∧ (∀ d, d ∈ l → entry_of_fields fields d ∧ name_lower d = lowername ∧ adjusted_mass d = None)
  ∧ (∀ residues c, fields !! 1 = Some residues → c ∈ residues →
       ∃ d, d ∈ l ∧ residue d = c).
Proof.
  unfold mod_entries. intros H. inv_ok H.
  apply index_Ok in Ha, Ha0, Ha1, Ha2. apply mapM_Ok in H.
  assert (residue <$> l = set_of a2) as Hres.
  { clear -H. induction H as [|res d rs l Hd _ IH]; [done|].
    inv_ok Hd. subst d. rewrite fmap_cons. simpl. by rewrite IH. }
  split; [rewrite Hres; apply NoDup_remove_dups|]. split.
  - intros d Hd. apply list_elem_of_lookup in Hd as [i Hi].
    destruct (Forall2_lookup_r _ _ _ _ _ H Hi) as (res & Hres' & Hd).
    inv_ok Hd. apply index_Ok in Ha3. subst d. simpl.
    split; [|done]. split; [done|]. split; [done|]. split; [|split].
    + exists a1. split; [done|]. apply bool_decide_eq_true.
    + exists a2. split; [done|]. apply (elem_of_remove_dups a2).
      by apply list_elem_of_lookup_2 in Hres'.
    + by exists a3.
  - intros residues c Hr Hc. rewrite Ha2 in Hr. injection Hr as <-.
    apply elem_of_remove_dups in Hc. fold (set_of a2) in Hc. rewrite <- Hres in Hc.
    apply list_elem_of_fmap in Hc as (d & -> & Hd). by exists d.
Qed.

Lemma modfile_line_Ok (mods_to_find : list pystr) (line : pystr) (l : list mod_def) :
  modfile_line mods_to_find line = Ok l →
  (∀ d, d ∈ l →
     skipped_line line = false ∧ entry_of_fields (split "," line) d
     ∧ adjusted_mass d = None ∧ name_lower d ∈ mods_to_find
     ∧ (name_lower d = lower (name d)
        ∨ (name_lower d = s2l "tmt10plex" ∧ lower (name d) = s2l "tmt6plex")))
  ∧ (∀ nm residues c, skipped_line line = false →
       split "," line !! 4 = Some nm → split "," line !! 1 = Some residues →
       wanted mods_to_find nm → c ∈ residues →
       ∃ d, d ∈ l ∧ residue d = c ∧ name d = nm).
Proof.
  unfold modfile_line. destruct (skipped_line line) eqn:Hs.
  { intros [= <-]. split; [by intros d ?%elem_of_nil | done]. }
  intros H. inv_ok H. apply index_Ok in Ha. clear Ha0 Ha1 Ha2.
  destruct (bool_decide (lower a = s2l "tmt6plex") && bool_decide (s2l "tmt10plex" ∈ mods_to_find))
    eqn:Htmt.
  - apply andb_true_iff in Htmt as [H6%bool_decide_eq_true H10%bool_decide_eq_true].
    apply mod_entries_Ok in H as (_ & Hd & Hc). split.
    + intros d Hin. destruct (Hd d Hin) as (He & -> & Hadj).
      split; [done|]. split; [done|]. split; [done|]. split; [done|]. right.
      split; [done|]. destruct He as (Hn & _). rewrite Ha in Hn. by injection Hn as <-.
    + intros nm residues c _ Hnm Hr _ Hin. destruct (Hc residues c Hr Hin) as (d & Hdl & Hdr).
      exists d. split; [done|]. split; [done|].
      destruct (Hd d Hdl) as ((Hn & _) & _). congruence.
  - case_bool_decide as Hw.
    + apply mod_entries_Ok in H as (_ & Hd & Hc). split.
      * intros d Hin. destruct (Hd d Hin) as (He & -> & Hadj).
        split; [done|]. split; [done|]. split; [done|]. split; [done|]. left.
        destruct He as (Hn & _). rewrite Ha in Hn. by injection Hn as <-.
      * intros nm residues c _ Hnm Hr _ Hin. destruct (Hc residues c Hr Hin) as (d & Hdl & Hdr).
        exists d. split; [done|]. split; [done|].
        destruct (Hd d Hdl) as ((Hn & _) & _). congruence.
    + injection H as <-. split; [by intros d ?%elem_of_nil|].
      intros nm residues c _ Hnm _ Hwant _. rewrite Ha in Hnm. injection Hnm as <-.
      destruct Hwant as [?|[H6 H10]]; [done|].
      rewrite H6 in Htmt. rewrite !bool_decide_eq_true_2 in Htmt by done. discriminate.
Qed.

Lemma passed_mod_Ok (mtofind : pystr) (l : list mod_def) :
  passed_mod mtofind = Ok l →
  ∀ d, d ∈ l →
    length (split "," mtofind) = 5 ∧ entry_of_fields (split "," mtofind) d
    ∧ adjusted_mass d = None ∧ name_lower d = lower (name d).
Proof.
  unfold passed_mod. case_bool_decide as Hlen.
  - intros H. inv_ok H. apply index_Ok in Ha. apply mod_entries_Ok in H as (_ & Hd & _).
    intros d Hin. destruct (Hd d Hin) as (He & -> & Hadj).
    split; [done|]. split; [done|]. split; [done|].
    destruct He as (Hn & _). rewrite Ha in Hn. by injection Hn as <-.
  - intros [= <-] d ?%elem_of_nil. done.
Qed.

Lemma elem_of_concat {A} (x : A) (ls : list (list A)) :
  x ∈ concat ls ↔ ∃ l, x ∈ l ∧ l ∈ ls.
Proof.
  induction ls as [|l ls IH]; simpl.
  - split; [by intros ?%elem_of_nil | by intros (l & _ & ?%elem_of_nil)].
  - rewrite elem_of_app, IH. split.
    + intros [?|(l' & ? & ?)]; [exists l; split; [done | constructor]|].
      exists l'. split; [done | by constructor].
    + intros (l' & Hx & [->|?]%elem_of_cons); [by left|]. right. by exists l'.
Qed.

Lemma mapM_concat_elem {A B} (f : A → result (list B)) (l : list A) (k : list (list B)) (y : B) :
  mapM f l = Ok k → y ∈ concat k → ∃ x ys, x ∈ l ∧ f x = Ok ys ∧ y ∈ ys.
Proof.
  intros Hk Hy. apply mapM_Ok in Hk. apply elem_of_concat in Hy as (ys & Hy & Hys).
  apply list_elem_of_lookup in Hys as [i Hi].
  destruct (Forall2_lookup_r _ _ _ _ _ Hk Hi) as (x & Hx & Hfx).
  exists x, ys. split; [by apply list_elem_of_lookup_2 in Hx | done].
Qed.

Lemma mapM_elem_concat {A B} (f : A → result (list B)) (l : list A) (k : list (list B))
    (x : A) (ys : list B) (y : B) :
  mapM f l = Ok k → x ∈ l → f x = Ok ys → y ∈ ys → y ∈ concat k.
Proof.
  intros Hk Hx Hfx Hy. apply mapM_Ok in Hk. apply list_elem_of_lookup in Hx as [i Hi].
  destruct (Forall2_lookup_l _ _ _ _ _ Hk Hi) as (ys' & Hys' & Hfx').
  rewrite Hfx in Hfx'. injection Hfx' as <-.
  apply elem_of_concat. exists ys. split; [done|]. by apply list_elem_of_lookup_2 in Hys'.
Qed.

(** the definitions read, before the masses are adjusted *)
Lemma read_mods_Ok (modfile mods_passed : list pystr) (ms : list mod_def) :
  read_mods modfile mods_passed = Ok ms →
  (∀ d, d ∈ ms →
     adjusted_mass d = None
     ∧ ((∃ line, line ∈ modfile ∧ skipped_line line = false
                 ∧ entry_of_fields (split "," line) d
                 ∧ name_lower d ∈ lower <$> mods_passed
                 ∧ (name_lower d = lower (name d)
                    ∨ (name_lower d = s2l "tmt10plex" ∧ lower (name d) = s2l "tmt6plex")))
        ∨ (∃ p, p ∈ mods_passed ∧ length (split "," p) = 5
                ∧ entry_of_fields (split "," p) d ∧ name_lower d = lower (name d))))
  ∧ (∀ line nm residues c, line ∈ modfile → skipped_line line = false →
       split "," line !! 4 = Some nm → split "," line !! 1 = Some residues →
       wanted (lower <$> mods_passed) nm → c ∈ residues →
       ∃ d, d ∈ ms ∧ residue d = c ∧ name d = nm).
Proof.
  unfold read_mods. intros H. inv_ok H. subst ms. split.
  - intros d [Hd|Hd]%elem_of_app.
    + destruct (mapM_concat_elem _ _ _ _ Ha Hd) as (line & l & Hline & Hl & Hdl).
      destruct (proj1 (modfile_line_Ok _ _ _ Hl) d Hdl) as (? & ? & ? & ? & ?).
      split; [done|]. left. by exists line.
    + destruct (mapM_concat_elem _ _ _ _ Ha0 Hd) as (p & l & Hp & Hl & Hdl).
      destruct (passed_mod_Ok _ _ Hl d Hdl) as (? & ? & ? & ?).
      split; [done|]. right. by exists p.
  - intros line nm residues c Hline Hs Hnm Hr Hw Hc.
    destruct (modfile_line (lower <$> mods_passed) line) as [l|e] eqn:Hl.
    + destruct (proj2 (modfile_line_Ok _ _ _ Hl) nm residues c Hs Hnm Hr Hw Hc)
        as (d & Hd & ? & ?).
      exists d. split; [|done]. apply elem_of_app. left.
      by eapply mapM_elem_concat.
    + apply mapM_Ok in Ha. apply list_elem_of_lookup in Hline as [i Hi].
      destruct (Forall2_lookup_l _ _ _ _ _ Ha Hi) as (y & _ & Hy). congruence.
Qed.

Lemma adjust_fields fp m :
  name (adjust fp m) = name m ∧ mass (adjust fp m) = mass m
  ∧ residue (adjust fp m) = residue m ∧ var (adjust fp m) = var m
  ∧ pos (adjust fp m) = pos m ∧ name_lower (adjust fp m) = name_lower m
  ∧ is_Some (adjusted_mass (adjust fp m)).
Proof. unfold adjust. simpl. repeat split. by eexists. Qed.

Lemma entry_of_fields_adjust fields fp m :
  entry_of_fields fields m → entry_of_fields fields (adjust fp m).
Proof. done. Qed.

Lemma mods_finalize (ms : list mod_def) (d : mod_def) :
  d ∈ mods (finalize ms) ↔
  ∃ d0, d0 ∈ ms ∧ d = if var d0 then adjust (build_fixedpos ms) d0 else d0.
Proof.
  unfold finalize. simpl. rewrite list_elem_of_fmap. split; intros (d0 & ? & ?); by exists d0.
Qed.

(** X5: every definition of the catalog of [parse_msgf_modfile] holds the
    fields of a line of the file that is read and whose name was passed,
    in any case of the letters (a line named TMT6plex also when tmt10plex
    was passed, under that name key), or the fields of a passed definition
    of five fields; and every residue of such a line has a definition in
    the catalog. *)
Theorem catalog_entries_from_lines (modfile mods_passed : list pystr) (c : Mods) :
  parse_msgf_modfile modfile mods_passed = Ok c →
  (∀ d, d ∈ mods c →
     (∃ line, line ∈ modfile ∧ skipped_line line = false
              ∧ entry_of_fields (split "," line) d
              ∧ name_lower d ∈ lower <$> mods_passed
              ∧ (name_lower d = lower (name d)
                 ∨ (name_lower d = s2l "tmt10plex" ∧ lower (name d) = s2l "tmt6plex")))
     ∨ (∃ p, p ∈ mods_passed ∧ length (split "," p) = 5
             ∧ entry_of_fields (split "," p) d ∧ name_lower d = lower (name d)))
  ∧ (∀ line nm residues r, line ∈ modfile → skipped_line line = false →
       split "," line !! 4 = Some nm → split "," line !! 1 = Some residues →
       wanted (lower <$> mods_passed) nm → r ∈ residues →
       ∃ d, d ∈ mods c ∧ residue d = r ∧ name d = nm).
Proof.
  unfold parse_msgf_modfile. intros H. apply fmap_Ok in H as (ms & Hms & ->).
  apply read_mods_Ok in Hms as [Hsound Hcomplete]. split.
  - intros d Hd. apply mods_finalize in Hd as (d0 & Hd0 & ->).
    destruct (Hsound d0 Hd0) as [_ H]. by destruct (var d0).
  - intros line nm residues r Hline Hs Hnm Hr Hw Hin.
    destruct (Hcomplete line nm residues r Hline Hs Hnm Hr Hw Hin) as (d0 & Hd0 & <- & <-).
    exists (if var d0 then adjust (build_fixedpos ms) d0 else d0).
    split; [apply mods_finalize; by exists d0 | by destruct (var d0)].
Qed.

(** Phospho on S, T and Y: a definition for T. *)
Lemma catalog_entries_from_lines_witness :
  ∃ c d, parse_msgf_modfile [s2l "79.966331,STY,opt,any,Phospho"] [s2l "phospho"] = Ok c
         ∧ d ∈ mods c ∧ residue d = "T"%char ∧ name d = s2l "Phospho".
Proof.
  destruct (parse_msgf_modfile [s2l "79.966331,STY,opt,any,Phospho"] [s2l "phospho"])
    as [c|e] eqn:Hc; [|vm_compute in Hc; discriminate].
  exists c.
  destruct (proj2 (catalog_entries_from_lines _ _ c Hc)
              (s2l "79.966331,STY,opt,any,Phospho") (s2l "Phospho") (s2l "STY") "T"%char)
    as (d & Hd & Hr & Hn).
  - left.
  - vm_compute; reflexivity.
  - vm_compute; reflexivity.
  - vm_compute; reflexivity.
  - left. vm_compute. left.
  - right; left.
  - exists d. split; [reflexivity|]. split; [exact Hd|]. split; [exact Hr | exact Hn].
Defined.

(** ** Fixed and variable definitions *)

Lemma fixedmods_of_mods ms :
  fixedmods (finalize ms) = filter (fun m => var m = false) (mods (finalize ms)).
Proof.
  unfold finalize. simpl. generalize (build_fixedpos ms). intros fp.
  induction ms as [|m ms IH]; [done|].
  rewrite fmap_cons. destruct (var m) eqn:Hv.
  - rewrite (filter_cons_False _ m) by congruence.
    rewrite filter_cons_False by (destruct (adjust_fields fp m) as (_ & _ & _ & ? & _); congruence).
    apply IH.
  - rewrite !filter_cons_True by done. by rewrite IH.
Qed.

(** X6: in the catalog of [parse_msgf_modfile], the fixed and the
    variable definitions are those of [mods], in their order, and [mods]
    holds nothing else; a fixed definition has no adjusted mass, so its
    effective mass is its mass, and every variable definition has an
    adjusted mass. *)
Theorem catalog_partition (modfile mods_passed : list pystr) (c : Mods) :
  parse_msgf_modfile modfile mods_passed = Ok c →
  fixedmods c = filter (fun m => var m = false) (mods c)
  ∧ varmods c = filter (fun m => var m = true) (mods c)
  ∧ fixedmods c ++ varmods c ≡ₚ mods c
  ∧ (∀ m, m ∈ fixedmods c → adjusted_mass m = None ∧ get_mass_or_adj m = mass m)
  ∧ (∀ m, m ∈ varmods c → is_Some (adjusted_mass m)).
Proof.
  unfold parse_msgf_modfile. intros H. apply fmap_Ok in H as (ms & Hms & ->).
  split; [apply fixedmods_of_mods|]. split; [apply varmods_of_mods|]. split; [|split].
  - rewrite fixedmods_of_mods, varmods_of_mods.
    rewrite (list_filter_iff (fun m => var m = true) (fun m => ¬ var m = false))
      by (intros m; destruct (var m); split; congruence).
    apply filter_app_complement.
  - intros m Hm. unfold finalize in Hm. simpl in Hm. apply list_elem_of_filter in Hm as [_ Hm].
    apply read_mods_Ok in Hms as [Hsound _]. destruct (Hsound m Hm) as [Hadj _].
    split; [done|]. unfold get_mass_or_adj. by rewrite Hadj.
  - intros m Hm. unfold finalize in Hm. simpl in Hm.
    apply list_elem_of_fmap in Hm as (m0 & -> & _). apply adjust_fields.
Qed.

(** TMT6plex fixed on K, and Phospho and Acetyl. *)
Lemma catalog_partition_witness :
  ∃ c, parse_msgf_modfile tmt_modfile [s2l "Phospho"; s2l "TMT6plex"; s2l "Acetyl"] = Ok c
       ∧ fixedmods c ++ varmods c ≡ₚ mods c.
Proof.
  destruct (parse_msgf_modfile tmt_modfile [s2l "Phospho"; s2l "TMT6plex"; s2l "Acetyl"])
    as [c|e] eqn:Hc; [|vm_compute in Hc; discriminate].
  exists c. split; [reflexivity|]. apply (catalog_partition _ _ c Hc).
Defined.

(** X7: [has_varmods_on_fixmod_residues] is set exactly when a variable
    definition of the catalog is on the residue of one of its fixed
    definitions. *)
Theorem varmods_on_fixmod_residues (ms : list mod_def) :
  has_varmods_on_fixmod_residues (finalize ms) = true
  ↔ ∃ v f, v ∈ varmods (finalize ms) ∧ f ∈ fixedmods (finalize ms) ∧ residue v = residue f.
Proof.
  unfold finalize. simpl. rewrite existsb_exists. split.
  - intros (v & Hv & Hres). apply list_elem_of_In in Hv. apply bool_decide_eq_true in Hres.
    apply build_fixedpos_is_Some in Hres as (f & Hf & Hvf & Hr).
    exists (adjust (build_fixedpos ms) v), f.
    split; [apply list_elem_of_fmap; by exists v|]. split; [by apply list_elem_of_filter | done].
  - intros (v & f & Hv & Hf & Hr). apply list_elem_of_fmap in Hv as (v0 & -> & Hv0).
    apply list_elem_of_filter in Hf as [Hvf Hf].
    exists v0. split; [by apply list_elem_of_In|]. apply bool_decide_eq_true.
    apply build_fixedpos_is_Some. exists f. by repeat split.
Qed.

(** ** Residues without a monoisotopic mass *)

(** X8: when a variable definition of the catalog is on a residue that
    has no monoisotopic mass in [aa_weights_monoiso], as [*] is,
    [lucimass_mod_dict] gives no lookup: it raises, and [KeyError] when
    that definition is the first of the variable definitions. *)
Theorem lucimass_mod_dict_unknown_residue (self : Mods) (v : mod_def) :
  v ∈ varmods self → aa_weights_monoiso !! residue v = None →
  (∃ e, lucimass_mod_dict self = Raise e)
  ∧ (head (varmods self) = Some v → lucimass_mod_dict self = Raise KeyError).
Proof.
  intros Hv Hres. split.
  - destruct (lucimass_mod_dict self) as [modmap|e] eqn:Hd; [|by exists e].
    unfold lucimass_mod_dict in Hd. apply lucimass_loop_keys in Hd.
    apply (proj1 (Forall_forall _ _)) with (x := v) in Hd as [k Hk]; [|done].
    unfold lucimass_key, getitem in Hk. by rewrite Hres in Hk.
  - unfold lucimass_mod_dict. destruct (varmods self) as [|v' vs]; [done|].
    intros [= ->]. rewrite foldM_cons.
    assert (lucimass_key v = Raise KeyError) as Hk
      by (unfold lucimass_key, getitem; by rewrite Hres).
    by rewrite Hk.
Qed.

(** Acetyl on the N-terminus of the protein is written with the residue [*]. *)
Lemma lucimass_mod_dict_unknown_residue_witness :
  lucimass_mod_dict (finalize [mk_mod "Acetyl" 42.010565 "*" true "Prot-N-term"; phospho_S])
  = Raise KeyError.
Proof.
  apply (proj2 (lucimass_mod_dict_unknown_residue
                  (finalize [mk_mod "Acetyl" 42.010565 "*" true "Prot-N-term"; phospho_S])
                  (set_adjusted_mass (mk_mod "Acetyl" 42.010565 "*" true "Prot-N-term")
                                     42.01056%float)
                  ltac:(vm_compute; left) ltac:(vm_compute; reflexivity))).
  vm_compute. reflexivity.
Defined.

(** ** What the dict keyed by masses holds *)

Lemma mass_lookup_append (d : massdict) (k f : float) (m : mod_def) :
  mass_lookup (mass_append d k m) f
  = if PyFloat.eq k f then Some (default [] (mass_lookup d f) ++ [m]) else mass_lookup d f.
Proof.
  induction d as [|[k' l'] d IH]; simpl.
  - by destruct (PyFloat.eq k f).
  - destruct (PyFloat.eq k' k) eqn:Hk'k; simpl.
    + destruct (PyFloat.eq k f) eqn:Hkf.
      * by rewrite (pyeq_trans _ _ _ Hk'k Hkf).
      * destruct (PyFloat.eq k' f) eqn:Hk'f; [|done].
        by rewrite (pyeq_trans _ _ _ (pyeq_sym _ _ Hk'k) Hk'f) in Hkf.
    + destruct (PyFloat.eq k' f) eqn:Hk'f; [|exact IH].
      destruct (PyFloat.eq k f) eqn:Hkf; [|done].
      by rewrite (pyeq_trans _ _ _ Hk'f (pyeq_sym _ _ Hkf)) in Hk'k.
Qed.

Lemma mass_append_None (d : massdict) (k : float) (m : mod_def) :
  mass_lookup d k = None → mass_append d k m = d ++ [(k, [m])].
Proof.
  induction d as [|[k' l'] d IH]; simpl; [done|].
  destruct (PyFloat.eq k' k); [done|]. intros H. by rewrite IH.
Qed.

(** the dict of the definitions [ms] grouped by the mass [key] *)
Lemma grouped_lookup (key : mod_def → float) (ms : list mod_def) (f : float) :
  mass_lookup (fold_left (fun d m => mass_append d (key m) m) ms []) f
  = match filter (fun m => PyFloat.eq (key m) f = true) ms with
    | [] => None
    | l => Some l
    end.
Proof.
  induction ms as [|m ms IH] using rev_ind; [done|].
  rewrite fold_left_app, filter_app. simpl. rewrite mass_lookup_append, IH.
  destruct (PyFloat.eq (key m) f) eqn:Hk.
  - rewrite filter_cons_True by done. rewrite filter_nil.
    by destruct (filter _ ms).
  - rewrite filter_cons_False by congruence. by rewrite filter_nil, app_nil_r.
Qed.

(** X9: the lookup of the first tool holds, under a mass, the definitions
    of the catalog whose effective mass rounded to three decimals is [==]
    to that mass, all of them and in the order of the catalog, and no entry
    for a mass that none has.  The definition [parse_msgf_peptide] takes
    for a mass is so the first of them in the catalog, whatever its
    residue and its name. *)
Theorem msgfmass_mod_dict_lookup (self : Mods) (f : float) :
  mass_lookup (msgfmass_mod_dict self) f
  = match filter (fun m => PyFloat.eq (PyFloat.round_nd (get_mass_or_adj m) 3) f = true)
                 (mods self) with
    | [] => None
    | l => Some l
    end.
Proof. apply (grouped_lookup (fun m => PyFloat.round_nd (get_mass_or_adj m) 3)). Qed.

(** ** The lines of modifications for the first tool *)

Lemma single_dups (xs : list pystr) (x : pystr) :
  x ∈ xs → (length (remove_dups xs) = 1 ↔ ∀ y, y ∈ xs → y = x).
Proof.
  intros Hx. split.
  - intros Hlen y Hy. apply elem_of_remove_dups in Hx, Hy.
    destruct (remove_dups xs) as [|a [|b l]]; try discriminate.
    apply list_elem_of_singleton in Hx, Hy. congruence.
  - intros Hall. pose proof (NoDup_remove_dups xs) as Hnd.
    assert (∀ y, y ∈ remove_dups xs → y = x) as Hall'
      by (intros y Hy; apply Hall; by apply elem_of_remove_dups).
    apply elem_of_remove_dups in Hx.
    destruct (remove_dups xs) as [|a [|b l]]; [by apply elem_of_nil in Hx | done |].
    apply NoDup_cons in Hnd as [Hab _]. destruct Hab.
    rewrite (Hall' a), (Hall' b); [constructor | right; left | left].
Qed.

Lemma pyeq_refl_l a b : PyFloat.eq a b = true → PyFloat.eq a a = true.
Proof. intros H. eapply pyeq_trans; [exact H | by apply pyeq_sym]. Qed.

Section Grouping.
Variable key : mod_def → float.

Lemma grouped_by_snoc ms m :
  grouped_by key (ms ++ [m]) = mass_append (grouped_by key ms) (key m) m.
Proof. unfold grouped_by. by rewrite fold_left_app. Qed.

Lemma grouped_by_invariant (ms : list mod_def) :
  (∀ k l, (k, l) ∈ grouped_by key ms →
     l ≠ [] ∧ ((∃ m, l = [m]) ∨ PyFloat.eq k k = true)
     ∧ ∀ m, m ∈ l → m ∈ ms ∧ same_number k (key m))
  ∧ distinct_keys (grouped_by key ms)
  ∧ ∀ m, m ∈ ms → ∃ k l, (k, l) ∈ grouped_by key ms ∧ m ∈ l ∧ same_number k (key m).
Proof.
  induction ms as [|m ms IH] using rev_ind.
  - split; [intros ? ? ?%elem_of_nil; done|]. split; [done|]. by intros ? ?%elem_of_nil.
  - rewrite grouped_by_snoc. destruct IH as (Hw & Hd & Hf). split; [|split].
    + intros k l Hin.
      apply mass_append_elem in Hin as [(-> & -> & _)|(l0 & Hl0 & Hl)].
      * split; [done|]. split; [left; by eexists|].
        intros m' ->%list_elem_of_singleton.
        split; [apply elem_of_app; right; constructor | by left].
      * destruct (Hw _ _ Hl0) as (Hne & Hk & Hms). destruct Hl as [->|[-> Hkm]].
        -- split; [done|]. split; [done|]. intros m' Hm'. destruct (Hms _ Hm') as [? ?].
           split; [apply elem_of_app; by left | done].
        -- split; [by destruct l0|]. split; [right; by eapply pyeq_refl_l|].
           intros m' [Hm'| ->%list_elem_of_singleton]%elem_of_app.
           ++ destruct (Hms _ Hm') as [? ?]. split; [apply elem_of_app; by left | done].
           ++ split; [apply elem_of_app; right; constructor | by right].
    + by apply mass_append_distinct.
    + intros m' [Hm'| ->%list_elem_of_singleton]%elem_of_app.
      * destruct (Hf _ Hm') as (k & l & Hin & Hml & Hk).
        destruct (mass_append_keeps _ (key m) m _ _ _ Hin Hml) as (l2 & Hl2 & Hm2).
        by exists k, l2.
      * destruct (mass_append_filed (grouped_by key ms) (key m) m) as (k & l & Hin & Hml & Hk).
        exists k, l. split; [done|]. split; [done|]. destruct Hk as [->|Hk]; [by left | by right].
Qed.

(** Two definitions of one list of the dict are the same definition, or
    their masses are [==]. *)
Lemma grouped_by_same_mass ms k l m1 m2 :
  (k, l) ∈ grouped_by key ms → m1 ∈ l → m2 ∈ l →
  m1 = m2 ∨ PyFloat.eq (key m1) (key m2) = true.
Proof.
  intros Hin H1 H2. destruct (grouped_by_invariant ms) as (Hw & _ & _).
  destruct (Hw _ _ Hin) as (_ & [[m ->]|Hk] & Hms).
  - apply list_elem_of_singleton in H1, H2. left. congruence.
  - right. destruct (Hms _ H1) as [_ Hs1]. destruct (Hms _ H2) as [_ Hs2].
    assert (∀ a, same_number k a → PyFloat.eq k a = true) as Heq
      by (intros a [<-|?]; done).
    eapply pyeq_trans; [apply pyeq_sym|]; by apply Heq.
Qed.
End Grouping.

Lemma grouped_by_lookup (key : mod_def → float) (ms : list mod_def) (f : float) :
  mass_lookup (grouped_by key ms) f
  = match filter (fun m => PyFloat.eq (key m) f = true) ms with
    | [] => None
    | l => Some l
    end.
Proof. apply grouped_lookup. Qed.

(** *** The check of the names *)

Lemma group_mod_cases (pre : list mod_def) (m : mod_def) :
  (group_mod (grouped_by get_mass_or_adj pre) m = Ok (grouped_by get_mass_or_adj (pre ++ [m]))
   ∧ ∀ m', m' ∈ pre → ¬ same_mass_other_name m' m)
  ∨ (group_mod (grouped_by get_mass_or_adj pre) m = Raise SystemExit
     ∧ ∃ m', m' ∈ pre ∧ same_mass_other_name m' m).
Proof.
  unfold group_mod. rewrite !grouped_by_lookup.
  destruct (filter _ pre) as [|a F] eqn:HF.
  - left. split.
    + rewrite grouped_by_snoc, mass_append_None; [done|].
      by rewrite grouped_by_lookup, HF.
    + intros m' Hm' [Heq _].
      assert (m' ∈ filter (fun m0 => PyFloat.eq (get_mass_or_adj m0) (get_mass_or_adj m) = true) pre)
        as Hin by (by apply list_elem_of_filter).
      rewrite HF in Hin. by apply elem_of_nil in Hin.
  - assert (name m ∈ name <$> ((a :: F) ++ [m])) as Hm.
    { apply list_elem_of_fmap. exists m. split; [done|]. apply elem_of_app. right. constructor. }
    case_bool_decide as Hone.
    + left. split; [by rewrite grouped_by_snoc|].
      intros m' Hm' [Heq Hne]. apply Hne. apply (proj1 (single_dups _ _ Hm) Hone).
      apply list_elem_of_fmap. exists m'. split; [done|]. apply elem_of_app. left.
      rewrite <- HF. by apply list_elem_of_filter.
    + right. split; [done|].
      destruct (decide (Forall (fun m' => name m' = name m) (a :: F))) as [Hall|Hnot].
      * destruct Hone. apply (single_dups _ _ Hm). intros y Hy.
        apply list_elem_of_fmap in Hy as (m' & -> & [Hm'| ->%list_elem_of_singleton]%elem_of_app);
          [|done].
        by apply (proj1 (Forall_forall _ _) Hall).
      * apply not_Forall_Exists in Hnot; [|intros x; apply _].
        apply Exists_exists in Hnot as (m' & Hm' & Hne).
        rewrite <- HF in Hm'. apply list_elem_of_filter in Hm' as [Heq Hm'].
        exists m'. by repeat split.
Qed.

Lemma same_mass_other_name_sym m1 m2 :
  same_mass_other_name m1 m2 → same_mass_other_name m2 m1.
Proof. intros [Heq Hne]. split; [by apply pyeq_sym | congruence]. Qed.

(** The first loop of [get_msgf_modlines] over [ms], after it went
    through [pre] without an exit. *)
Lemma group_loop (pre ms : list mod_def) :
  (∀ m1 m2, m1 ∈ pre → m2 ∈ pre → ¬ same_mass_other_name m1 m2) →
  (foldM group_mod (grouped_by get_mass_or_adj pre) ms = Ok (grouped_by get_mass_or_adj (pre ++ ms))
   ∧ ∀ m1 m2, m1 ∈ pre ++ ms → m2 ∈ pre ++ ms → ¬ same_mass_other_name m1 m2)
  ∨ (foldM group_mod (grouped_by get_mass_or_adj pre) ms = Raise SystemExit
     ∧ ∃ m1 m2, m1 ∈ pre ++ ms ∧ m2 ∈ pre ++ ms ∧ same_mass_other_name m1 m2).
Proof.
  revert pre. induction ms as [|m ms IH]; intros pre Hpre.
  - left. by rewrite app_nil_r.
  - rewrite foldM_cons. rewrite (cons_middle m pre ms), app_assoc.
    destruct (group_mod_cases pre m) as [[Hok Hno]|[Hexit (m' & Hm' & Hc)]].
    + rewrite Hok, bind_Ok_eq. apply IH.
      intros m1 m2 [H1| ->%list_elem_of_singleton]%elem_of_app
                   [H2| ->%list_elem_of_singleton]%elem_of_app.
      * by apply Hpre.
      * by apply Hno.
      * intros Hc%same_mass_other_name_sym. by apply (Hno m2).
      * by intros [_ Hne].
    + right. rewrite Hexit. split; [done|]. exists m', m.
      split; [apply elem_of_app; left; apply elem_of_app; by left|].
      split; [apply elem_of_app; left; apply elem_of_app; right; constructor | done].
Qed.

Lemma group_lines_raises (g : float * list mod_def) (e : exn) :
  group_lines g = Raise e → e ≠ SystemExit.
Proof.
  destruct g as [k l]. unfold group_lines, index.
  destruct (l !! 0); [|by intros [= <-]]. rewrite bind_Ok_eq.
  intros H%mapM_Raise. destruct H as ([mid rs] & _ & H).
  destruct (contains _ _); [by injection H as <- | discriminate].
Qed.

(** X10: going through the lines of [get_msgf_modlines] ends the run,
    with the exit of its check, exactly when the catalog holds two
    definitions whose effective masses are [==] and whose names differ. *)
Theorem get_msgf_modlines_exit (self : Mods) :
  get_msgf_modlines self = Raise SystemExit
  ↔ ∃ m1 m2, m1 ∈ mods self ∧ m2 ∈ mods self ∧ same_mass_other_name m1 m2.
Proof.
  unfold get_msgf_modlines.
  destruct (group_loop [] (mods self)) as [[Hok Hno]|[Hexit Hc]];
    [by intros ? ? ?%elem_of_nil | |]; simpl in *.
  - change (@nil (float * list mod_def)) with (grouped_by get_mass_or_adj []). rewrite Hok, bind_Ok_eq.
    split.
    + intros H. destruct (mapM group_lines _) as [lines|e] eqn:Hl; [discriminate|].
      injection H as ->. apply mapM_Raise in Hl as (g & _ & Hg).
      by apply group_lines_raises in Hg.
    + intros (m1 & m2 & H1 & H2 & Hc). by destruct (Hno m1 m2).
  - change (@nil (float * list mod_def)) with (grouped_by get_mass_or_adj []). rewrite Hexit.
    split; [done|]. by intros _.
Qed.

(** *** The lines of a group *)

Lemma line_res_add_elem lr mid res k rs :
  (k, rs) ∈ line_res_add lr mid res → k = mid ∨ ∃ rs0, (k, rs0) ∈ lr.
Proof.
  induction lr as [|[k' l'] lr IH]; simpl.
  - intros [= -> _]%list_elem_of_singleton. by left.
  - case_bool_decide as Hk.
    + intros [[= -> _]|Hin]%elem_of_cons; right; eexists; [left | by right].
    + intros [[= -> ->]|Hin]%elem_of_cons; [right; eexists; left|].
      destruct (IH Hin) as [?|[rs0 ?]]; [by left|]. right. exists rs0. by right.
Qed.

Lemma line_res_add_filed lr mid res :
  ∃ rs, (mid, rs) ∈ line_res_add lr mid res ∧ res ∈ rs.
Proof.
  induction lr as [|[k' l'] lr IH]; simpl.
  - exists [res]. split; constructor.
  - case_bool_decide as Hk.
    + subst k'. exists (l' ++ [res]). split; [constructor|]. apply elem_of_app. right. constructor.
    + destruct IH as (rs & Hin & Hres). exists rs. split; [by right | done].
Qed.

Lemma line_res_add_keeps lr mid res k rs r :
  (k, rs) ∈ lr → r ∈ rs → ∃ rs', (k, rs') ∈ line_res_add lr mid res ∧ r ∈ rs'.
Proof.
  induction lr as [|[k' l'] lr IH]; simpl; [by intros ?%elem_of_nil|].
  intros [[= -> ->]|Hin]%elem_of_cons Hr.
  - case_bool_decide.
    + exists (l' ++ [res]). split; [constructor | apply elem_of_app; by left].
    + exists l'. split; [constructor | done].
  - case_bool_decide.
    + exists rs. split; [by right | done].
    + destruct (IH Hin Hr) as (rs' & ? & ?). exists rs'. split; [by right | done].
Qed.

(** [line_res] of a group: a key for the flag and the position of each
    of its definitions, with the residue of the definition. *)
Lemma line_res_loop (l : list mod_def) :
  let line_res := fold_left (fun lr m => line_res_add lr (mid_of m) (residue m)) l [] in
  (∀ mid rs, (mid, rs) ∈ line_res → ∃ m, m ∈ l ∧ mid = mid_of m)
  ∧ (∀ m, m ∈ l → ∃ rs, (mid_of m, rs) ∈ line_res ∧ residue m ∈ rs).
Proof.
  induction l as [|m l IH] using rev_ind; simpl.
  - split; [by intros ? ? ?%elem_of_nil | by intros ? ?%elem_of_nil].
  - rewrite fold_left_app. simpl. destruct IH as [Hk Hf]. split.
    + intros mid rs Hin. apply line_res_add_elem in Hin as [->|[rs0 Hin]].
      * exists m. split; [apply elem_of_app; right; constructor | done].
      * destruct (Hk _ _ Hin) as (m' & ? & ?). exists m'. split; [apply elem_of_app; by left | done].
    + intros m' [Hm'| ->%list_elem_of_singleton]%elem_of_app.
      * destruct (Hf _ Hm') as (rs & Hin & Hr). by eapply line_res_add_keeps.
      * apply line_res_add_filed.
Qed.

Lemma mid_of_parts (m : mod_def) :
  drop 3 (mid_of m) = pos m ∧ starts_with (s2l "1") (mid_of m) = var m.
Proof. unfold mid_of. by destruct (var m). Qed.

Lemma group_line_of (k : float) (first m : mod_def) (rs : pystr) (line : pystr) :
  name first = name m →
  (let '(mid, residues) := (mid_of m, rs) in
   let parts := drop 3 mid in
   if contains (s2l "__") parts then Raise ValueError
   else
     let vf := s2l (if starts_with (s2l "1") mid then "opt" else "fix") in
     Ok (PyFloat.repr k ++ s2l "," ++ residues ++ s2l "," ++ vf ++ s2l ","
         ++ parts ++ s2l "," ++ name first)) = Ok line →
  line = modline k rs m ∧ contains (s2l "__") (pos m) = false.
Proof.
  intros Hn. cbv zeta beta iota. destruct (mid_of_parts m) as [-> ->].
  destruct (contains _ _); [discriminate|]. intros [= <-]. by rewrite Hn.
Qed.

(** the lines of a group whose definitions have one name *)
Lemma group_lines_Ok (k : float) (l : list mod_def) (lines : list pystr) :
  group_lines (k, l) = Ok lines →
  (∀ m1 m2, m1 ∈ l → m2 ∈ l → name m1 = name m2) →
  ∀ m, m ∈ l → ∃ rs, residue m ∈ rs ∧ modline k rs m ∈ lines.
Proof.
  unfold group_lines. intros H Hnames m Hm. inv_ok H.
  apply index_Ok in Ha. apply list_elem_of_lookup_2 in Ha.
  destruct (line_res_loop l) as [_ Hf]. destruct (Hf m Hm) as (rs & Hin & Hr).
  exists rs. split; [done|].
  apply mapM_Ok in H. apply list_elem_of_lookup in Hin as [i Hi].
  destruct (Forall2_lookup_l _ _ _ _ _ H Hi) as (line & Hline & Hl).
  apply (group_line_of k a m rs line) in Hl as [-> _]; [|by apply Hnames].
  by apply list_elem_of_lookup_2 in Hline.
Qed.

Lemma group_lines_is_Ok (k : float) (l : list mod_def) :
  l ≠ [] → (∀ m, m ∈ l → contains (s2l "__") (pos m) = false) →
  ∃ lines, group_lines (k, l) = Ok lines.
Proof.
  intros Hne Hpos. unfold group_lines. destruct l as [|first l']; [done|].
  change (index (first :: l') 0) with (Ok (A := mod_def) first). rewrite bind_Ok_eq.
  apply mapM_is_Ok. apply Forall_forall. intros [mid rs] Hin.
  destruct (line_res_loop (first :: l')) as [Hk _].
  destruct (Hk mid rs Hin) as (m & Hm & ->).
  destruct (mid_of_parts m) as [-> ->]. rewrite (Hpos m Hm). by eexists.
Qed.

(** X11: when [get_msgf_modlines] gives all its lines, every definition of
    the catalog is on one of them: a line with a mass [==] to the effective
    mass of the definition (the same float, if that is no number), residues
    that hold its residue, [opt] or [fix] as it is variable or not, its
    position and its name.  The lines are given when no two definitions of
    one effective mass differ in their names and no position holds [__]. *)
Theorem get_msgf_modlines_lines (self : Mods) :
  (∀ lines, get_msgf_modlines self = Ok lines →
     ∀ m, m ∈ mods self →
       ∃ k rs, same_number k (get_mass_or_adj m) ∧ residue m ∈ rs ∧ modline k rs m ∈ lines)
  ∧ ((∀ m1 m2, m1 ∈ mods self → m2 ∈ mods self → ¬ same_mass_other_name m1 m2) →
     (∀ m, m ∈ mods self → contains (s2l "__") (pos m) = false) →
     ∃ lines, get_msgf_modlines self = Ok lines).
Proof.
  unfold get_msgf_modlines.
  change (@nil (float * list mod_def)) with (grouped_by get_mass_or_adj []).
  destruct (grouped_by_invariant get_mass_or_adj (mods self)) as (Hw & _ & Hf).
  destruct (group_loop [] (mods self)) as [[Hok Hno]|[Hexit Hc]];
    [by intros ? ? ?%elem_of_nil | |]; simpl in *.
  - rewrite Hok, bind_Ok_eq. split.
    + intros lines H. inv_ok H. subst lines. intros m Hm.
      destruct (Hf m Hm) as (k & l & Hin & Hml & Hk).
      apply mapM_Ok in Ha. apply list_elem_of_lookup in Hin as [i Hi].
      destruct (Forall2_lookup_l _ _ _ _ _ Ha Hi) as (ls & Hls & Hl).
      destruct (group_lines_Ok k l ls Hl) with (m := m) as (rs & Hr & Hline); [|done|].
      * intros m1 m2 H1 H2. apply list_elem_of_lookup_2 in Hi.
        destruct (Hw _ _ Hi) as (_ & _ & Hms).
        destruct (grouped_by_same_mass _ _ _ _ _ _ Hi H1 H2) as [->|Heq]; [done|].
        destruct (decide (name m1 = name m2)) as [?|Hne]; [done|].
        destruct (Hno m1 m2); [by apply Hms | by apply Hms | done].
      * exists k, rs. split; [done|]. split; [done|].
        apply elem_of_concat. exists ls. split; [done|]. by apply list_elem_of_lookup_2 in Hls.
    + intros _ Hpos.
      destruct (mapM_is_Ok group_lines (grouped_by get_mass_or_adj (mods self))) as [lss Hlss].
      * apply Forall_forall. intros [k l] Hin. destruct (Hw _ _ Hin) as (Hne & _ & Hms).
        apply group_lines_is_Ok; [done|]. intros m Hm. apply Hpos. by apply Hms.
      * rewrite Hlss. by eexists.
  - rewrite Hexit. split; [intros lines H; discriminate H|].
    intros Hno. destruct Hc as (m1 & m2 & H1 & H2 & Hc). by destruct (Hno m1 m2).
Qed.

(** The catalog with TMT6plex fixed on K gives its lines. *)
Lemma get_msgf_modlines_lines_witness :
  ∃ lines, get_msgf_modlines (finalize [phospho_S; tmt_K; acetyl_K]) = Ok lines.
Proof.
  assert (mods (finalize [phospho_S; tmt_K; acetyl_K])
          = [set_adjusted_mass phospho_S 79.96633; tmt_K;
             set_adjusted_mass acetyl_K (-187.15237)]) as Hmods by (vm_compute; reflexivity).
  apply (proj2 (get_msgf_modlines_lines (finalize [phospho_S; tmt_K; acetyl_K]))).
  - intros m1 m2 H1 H2 [Heq Hne]. rewrite Hmods in H1, H2. clear Hmods.
    repeat match goal with
           | H : _ ∈ _ :: _ |- _ => apply elem_of_cons in H as [->|H]
           | H : _ ∈ [] |- _ => by apply elem_of_nil in H
           end.
    all: vm_compute in Heq; try discriminate Heq.
    all: apply Hne; reflexivity.
  - intros m Hm. rewrite Hmods in Hm. clear Hmods.
    repeat match goal with
           | H : _ ∈ _ :: _ |- _ => apply elem_of_cons in H as [->|H]
           | H : _ ∈ [] |- _ => by apply elem_of_nil in H
           end.
    all: vm_compute; reflexivity.
Defined.

(** ** The bare sequence of a peptide *)

Lemma finditer_from_ext {G} (p q : pystr → option (G * nat)) (pos skip : nat) (s : pystr) :
  (∀ s, p s = q s) → finditer_from p pos skip s = finditer_from q pos skip s.
Proof.
  intros H. revert pos skip. induction s as [|c s IH]; intros pos skip; simpl; [done|].
  destruct skip as [|k]; [|apply IH]. rewrite H. destruct (q (c :: s)) as [[g n]|]; by rewrite IH.
Qed.

Lemma re_msgf_opt_residue (s : pystr) : re_msgf s = opt_residue delta_run s.
Proof.
  unfold re_msgf, opt_residue, delta_run. destruct s as [|c s']; [done|].
  destruct (is_upper c); destruct (re_delta_run s'), (re_delta_run (c :: s')); done.
Qed.

Lemma re_luci_opt_residue (s : pystr) : re_luci s = opt_residue re_bracket s.
Proof.
  unfold re_luci, opt_residue. destruct s as [|c s']; [done|].
  destruct (is_upper c); [|done]. by destruct (re_bracket s') as [[ds n]|].
Qed.

Lemma slice_pending (pre : pystr) (c : ascii) (u : pystr) (st : nat) :
  st ≤ length pre → slice st (length pre + 1) (pre ++ c :: u) = drop st pre ++ [c].
Proof.
  intros Hst. unfold slice. rewrite drop_app_le by done.
  replace (length pre + 1 - st) with (length (drop st pre) + 1) by (rewrite length_drop; lia).
  rewrite take_app_add. done.
Qed.

Lemma bare_scan_cons (t : pystr) (x : rmatch) (xs : list rmatch) (b : pystr) (st : nat) :
  bare_scan t (x :: xs) (b, st) = bare_scan t xs (bare_after t b st x, m_end x).
Proof. reflexivity. Qed.

Lemma finditer_from_match {G} (pat : pystr → option (G * nat)) (pos : nat) (c : ascii)
    (s : pystr) (g : G) (n : nat) :
  pat (c :: s) = Some (g, n) →
  finditer_from pat pos 0 (c :: s) = RMatch pos (pos + n) g :: finditer_from pat (S pos) (n - 1) s.
Proof. intros H. simpl. by rewrite H. Qed.

Lemma finditer_from_no_match {G} (pat : pystr → option (G * nat)) (pos : nat) (c : ascii)
    (s : pystr) :
  pat (c :: s) = None → finditer_from pat pos 0 (c :: s) = finditer_from pat (S pos) 0 s.
Proof. intros H. simpl. by rewrite H. Qed.

Lemma finditer_from_skip {G} (pat : pystr → option (G * nat)) (pos k : nat) (c : ascii)
    (s : pystr) :
  finditer_from pat pos (S k) (c :: s) = finditer_from pat (S pos) k s.
Proof. reflexivity. Qed.

Lemma opt_residue_upper (core : pystr → option (pystr * nat)) (c : ascii) (s g : pystr) (n : nat) :
  is_upper c = true → core s = Some (g, n) →
  opt_residue core (c :: s) = Some ((Some c, g), S n).
Proof. intros Hc Hs. unfold opt_residue. by rewrite Hc, Hs. Qed.

Lemma opt_residue_without (core : pystr → option (pystr * nat)) (c : ascii) (s : pystr) :
  is_upper c = false ∨ core s = None →
  opt_residue core (c :: s) = (fun '(g, n) => ((None, g), n)) <$> core (c :: s).
Proof.
  intros H. unfold opt_residue. destruct (is_upper c); [|done].
  destruct H as [?| ->]; done.
Qed.

Section Scan.
Variable core : pystr → option (pystr * nat).
Hypothesis core_pos : ∀ s g n, core s = Some (g, n) → 0 < n.
Hypothesis core_upper : ∀ c s, is_upper c = true → core (c :: s) = None.

Lemma sub_from_deleted (u g : pystr) (n : nat) :
  core u = Some (g, n) →
  sub_from core (fun _ => []) 0 u = sub_from core (fun _ => []) n u.
Proof.
  intros H. pose proof (core_pos _ _ _ H) as Hn. destruct u as [|c u]; [by destruct n|].
  rewrite (sub_from_match _ _ _ _ _ _ H). destruct n as [|k]; [lia|]. simpl.
  by rewrite Nat.sub_0_r.
Qed.

(** The loop over the matches found from [u] on, after the text [pre]:
    the bare sequence is what came before, the text not yet taken and the
    rest without its matches. *)
Lemma bare_scan_from (t u pre b : pystr) (st skip : nat) (b' : pystr) (st' : nat) :
  t = pre ++ u →
  Forall (fun c => is_upper c = true) (sub_from core (fun _ => []) skip u) →
  (skip = 0 → st ≤ length pre ∧ Forall (fun c => is_upper c = true) (drop st pre)
               ∧ (drop st pre ≠ [] → core u = None)) →
  (0 < skip → st = length pre + skip) →
  bare_scan t (finditer_from (opt_residue core) (length pre) skip u) (b, st) = (b', st') →
  b' ++ drop st' t = b ++ drop st pre ++ sub_from core (fun _ => []) skip u.
Proof.
  revert pre b st skip. induction u as [|c u IH]; intros pre b st skip Ht Hup H0 Hskip Hscan.
  { injection Hscan as <- <-. subst t. simpl. by rewrite !app_nil_r. }
  subst t. assert (pre ++ c :: u = (pre ++ [c]) ++ u) as Ht' by (by rewrite <- app_assoc).
  assert (S (length pre) = length (pre ++ [c])) as Hlen by (rewrite length_app; simpl; lia).
  destruct skip as [|k].
  - destruct H0 as (Hst & Hpend & Hcore); [done|].
    destruct (is_upper c) eqn:Hc.
    + assert (core (c :: u) = None) as Hnone by (by apply core_upper).
      rewrite (sub_from_no_match _ _ _ _ Hnone) in Hup |- *.
      apply Forall_cons in Hup as [_ Hup].
      destruct (core u) as [[g n]|] eqn:Hu.
      * pose proof (core_pos _ _ _ Hu) as Hn.
        rewrite (finditer_from_match _ _ _ _ _ _ (opt_residue_upper core c u g n Hc Hu)) in Hscan.
        rewrite bare_scan_cons in Hscan. unfold bare_after in Hscan. cbn [m_groups m_start m_end fst] in Hscan.
        rewrite (slice_pending pre c u st Hst) in Hscan.
        replace (S n - 1) with n in Hscan by lia. rewrite Hlen in Hscan.
        rewrite (sub_from_deleted u g n Hu) in Hup |- *.
        rewrite (IH (pre ++ [c]) (b ++ drop st pre ++ [c]) (length pre + S n) n Ht' Hup
                  ltac:(lia) ltac:(rewrite <- Hlen; lia) Hscan).
        rewrite (drop_ge (pre ++ [c])) by (rewrite <- Hlen; lia). by rewrite <- !app_assoc.
      * rewrite finditer_from_no_match in Hscan
          by (rewrite opt_residue_without by (by right); by rewrite Hnone).
        rewrite Hlen in Hscan.
        rewrite (IH (pre ++ [c]) b st 0 Ht' Hup); [| |lia|done].
        -- rewrite drop_app_le by done. by rewrite <- !app_assoc.
        -- intros _. split; [rewrite <- Hlen; lia|]. rewrite drop_app_le by done. split; [|done].
           apply Forall_app. split; [done|]. by constructor.
    + destruct (core (c :: u)) as [[g n]|] eqn:Hcu.
      * pose proof (core_pos _ _ _ Hcu) as Hn.
        assert (drop st pre = []) as Hnil.
        { destruct (drop st pre) as [|d pend]; [done|]. by specialize (Hcore ltac:(done)). }
        rewrite (sub_from_match _ _ _ _ _ _ Hcu) in Hup |- *. simpl in Hup |- *.
        rewrite (finditer_from_match _ _ _ _ (None, g) n) in Hscan
          by (rewrite opt_residue_without by (by left); by rewrite Hcu).
        rewrite bare_scan_cons in Hscan. unfold bare_after in Hscan. cbn [m_groups m_start m_end fst] in Hscan.
        rewrite Hlen in Hscan.
        rewrite (IH (pre ++ [c]) b (length pre + n) (n - 1) Ht' Hup); [| |rewrite <- Hlen; lia|done].
        -- rewrite Hnil. rewrite (drop_ge (pre ++ [c])) by (rewrite <- Hlen; lia). done.
        -- intros Hn1. split; [rewrite <- Hlen; lia|].
           rewrite (drop_ge (pre ++ [c])) by (rewrite <- Hlen; lia). done.
      * rewrite (sub_from_no_match _ _ _ _ Hcu) in Hup.
        apply Forall_cons in Hup as [Hup _]. congruence.
  - simpl in Hup |- *. specialize (Hskip ltac:(lia)).
    rewrite finditer_from_skip, Hlen in Hscan.
    rewrite (IH (pre ++ [c]) b st k Ht' Hup); [| |rewrite <- Hlen; lia|done].
    + rewrite (drop_ge (pre ++ [c])), (drop_ge pre) by (rewrite <- ?Hlen; lia). done.
    + intros ->. split; [rewrite <- Hlen; lia|].
      rewrite (drop_ge (pre ++ [c])) by (rewrite <- Hlen; lia). done.
Qed.

(** The bare sequence of a text whose characters outside the matches are
    residues is the text without the matches. *)
Lemma bare_scan_residues (t b' : pystr) (st' : nat) :
  Forall (fun c => is_upper c = true) (without_matches core t) →
  bare_scan t (finditer (opt_residue core) t) ([], 0) = (b', st') →
  b' ++ drop st' t = without_matches core t.
Proof.
  intros Hup Hscan.
  rewrite (bare_scan_from t t [] [] 0 0 b' st'); [done|done|done| |lia|done].
  intros _. split; [simpl; lia|]. split; [constructor | done].
Qed.
End Scan.

(** *** The two notations *)

Lemma upper_not_delta (c : ascii) : is_upper c = true → is_delta_char c = false.
Proof. destruct c as [[] [] [] [] [] [] [] []]; vm_compute; congruence. Qed.

Lemma upper_not_bracket (c : ascii) (s : pystr) : is_upper c = true → re_bracket (c :: s) = None.
Proof. destruct c as [[] [] [] [] [] [] [] []]; try (vm_compute; congruence); reflexivity. Qed.

Lemma delta_run_pos (s g : pystr) (n : nat) : delta_run s = Some (g, n) → 0 < n.
Proof.
  unfold delta_run, re_delta_run. destruct (span is_delta_char s) as [[|d run] rest]; [done|].
  intros [= <- <-]. simpl. lia.
Qed.

Lemma delta_run_upper (c : ascii) (s : pystr) : is_upper c = true → delta_run (c :: s) = None.
Proof.
  intros Hc%upper_not_delta. unfold delta_run, re_delta_run. simpl. by rewrite Hc.
Qed.

Lemma re_bracket_pos (s g : pystr) (n : nat) : re_bracket s = Some (g, n) → 0 < n.
Proof. intros (_ & _ & -> & _)%re_bracket_Some. lia. Qed.

Lemma span_take (p : ascii → bool) (s : pystr) :
  take (length (fst (span p s))) s = fst (span p s).
Proof. rewrite (span_app p s) at 2. by rewrite take_app_length. Qed.

(** a text without its runs of digits, points and signs *)
Lemma without_delta_runs_from (skip : nat) (u : pystr) :
  Forall (fun c => is_delta_char c = true) (take skip u) →
  sub_from delta_run (fun _ => []) skip u = filter (fun c => is_delta_char c = false) u.
Proof.
  revert skip. induction u as [|c u IH]; intros skip Hskip; [done|].
  destruct skip as [|k].
  - destruct (is_delta_char c) eqn:Hc.
    + assert (delta_run (c :: u)
              = Some (c :: fst (span is_delta_char u), S (length (fst (span is_delta_char u)))))
        as Hrun.
      { unfold delta_run, re_delta_run. simpl. rewrite Hc.
        by destruct (span is_delta_char u) as [a b]. }
      rewrite (sub_from_match _ _ _ _ _ _ Hrun), app_nil_l.
      replace (S (length (fst (span is_delta_char u))) - 1)
        with (length (fst (span is_delta_char u))) by lia.
      rewrite (filter_cons_False _ c) by congruence. apply IH.
      rewrite span_take. apply span_Forall.
    + assert (delta_run (c :: u) = None) as Hrun.
      { unfold delta_run, re_delta_run. simpl. by rewrite Hc. }
      rewrite (sub_from_no_match _ _ _ _ Hrun). rewrite (filter_cons_True _ c) by done.
      f_equal. apply IH. constructor.
  - rewrite firstn_cons in Hskip. apply Forall_cons in Hskip as [Hc Hskip].
    rewrite (filter_cons_False _ c) by congruence.
    change (sub_from delta_run (fun _ => []) (S k) (c :: u))
      with (sub_from delta_run (fun _ => []) k u). by apply IH.
Qed.

Lemma filter_not_delta (s : pystr) :
  Forall (fun c => is_upper c = true ∨ is_delta_char c = true) s →
  filter (fun c => is_delta_char c = false) s = filter (fun c => is_upper c = true) s.
Proof.
  induction 1 as [|c s [Hc|Hc] _ IH]; [done| |].
  - rewrite (filter_cons_True _ c) by (by apply upper_not_delta).
    rewrite (filter_cons_True _ c) by done. f_equal. exact IH.
  - rewrite (filter_cons_False _ c) by congruence.
    rewrite (filter_cons_False _ c); [exact IH|]. intros Hu%upper_not_delta. congruence.
Qed.

Lemma without_delta_runs (s : pystr) :
  Forall (fun c => is_upper c = true ∨ is_delta_char c = true) s →
  without_matches delta_run s = filter (fun c => is_upper c = true) s.
Proof.
  intros Hs. unfold without_matches, re_sub. rewrite without_delta_runs_from by constructor.
  by apply filter_not_delta.
Qed.

(** *** The loops of the two parsers *)

Lemma site_in_app (b r : pystr) (o : obs_mod) : site_in b o → site_in (b ++ r) o.
Proof.
  intros [?|(i & Hi & Hb)]; [by left|]. right. exists i. split; [done|].
  by apply lookup_app_l_Some.
Qed.

Lemma site_in_last (b : pystr) (c : ascii) (o : obs_mod) :
  last b = Some c → site o = (c, (Z.of_nat (length b) - 1)%Z) → site_in b o.
Proof.
  intros Hl Hs. right. exists (pred (length b)). rewrite Hs.
  cbn [fst snd]. split.
  - destruct b; [done|]. cbn [length]. lia.
  - rewrite <- Hl. symmetry. apply last_lookup.
Qed.

Lemma bare_after_prefix (s b : pystr) (st : nat) (x : rmatch) : ∃ r, bare_after s b st x = b ++ r.
Proof.
  unfold bare_after. destruct (fst (m_groups x)); [by eexists|]. exists []. by rewrite app_nil_r.
Qed.

Lemma msgf_step_bare s d lab stab b st obs x b1 st1 obs1 :
  msgf_step s d lab stab (b, st, obs) x = Ok (b1, st1, obs1) →
  b1 = bare_after s b st x ∧ st1 = m_end x
  ∧ ∃ new, obs1 = obs ++ new ∧ Forall (site_in b1) new.
Proof.
  unfold msgf_step, bare_after. intros H. apply bind_Ok in H as ([[b2 res] sn] & Hb & H).
  apply bind_Ok in H as (new & Hnew & H). injection H as <- <- <-.
  assert (Forall (fun o => site o = (res, sn)) new) as Hsites.
  { apply mapM_Ok in Hnew. clear -Hnew. induction Hnew as [|tok o toks new Ho _ IH]; constructor.
    - by apply resolve_delta_Ok in Ho as [_ ?].
    - done. }
  destruct (fst (m_groups x)).
  - apply bind_Ok in Hb as (r & Hr & [= <- <- <-]). split; [done|]. split; [done|].
    exists new. split; [done|]. eapply Forall_impl; [exact Hsites|]. intros o Ho.
    unfold last_char in Hr. destruct (last _) as [c|] eqn:Hl; [|discriminate].
    injection Hr as <-. by eapply site_in_last.
  - injection Hb as <- <- <-. split; [done|]. split; [done|].
    exists new. split; [done|]. eapply Forall_impl; [exact Hsites|]. intros o Ho. by left.
Qed.

Lemma msgf_loop_bare s d lab stab xs b st obs b' st' obs' :
  foldM (msgf_step s d lab stab) (b, st, obs) xs = Ok (b', st', obs') →
  Forall (site_in b) obs →
  bare_scan s xs (b, st) = (b', st') ∧ Forall (site_in b') obs'.
Proof.
  revert b st obs. induction xs as [|x xs IH]; intros b st obs.
  - by intros [= <- <- <-] Hobs.
  - rewrite foldM_cons. intros H Hobs. apply bind_Ok in H as ([[b1 st1] obs1] & Hstep & H).
    apply msgf_step_bare in Hstep as (-> & -> & new & -> & Hnew).
    rewrite bare_scan_cons. apply (IH _ _ _ H). apply Forall_app. split; [|done].
    destruct (bare_after_prefix s b st x) as [r ->].
    eapply Forall_impl; [exact Hobs|]. intros o. apply site_in_app.
Qed.

Lemma site_in_anchor (b : pystr) (o : obs_mod) : site o = anchor b → site_in b o.
Proof.
  unfold anchor. destruct (last b) as [c|] eqn:Hl; [by apply site_in_last | by left].
Qed.

Lemma luci_loop_bare modpep ptms_map lab stab xs b st obs b' st' obs' :
  foldM (luci_step modpep ptms_map lab stab) (b, st, obs) xs = Ok (b', st', obs') →
  Forall (site_in b) obs →
  bare_scan modpep xs (b, st) = (b', st') ∧ Forall (site_in b') obs'.
Proof.
  revert b st obs. induction xs as [|x xs IH]; intros b st obs.
  - by intros [= <- <- <-] Hobs.
  - rewrite foldM_cons. intros H Hobs. apply bind_Ok in H as ([[b1 st1] obs1] & Hstep & H).
    destruct (luci_step_Ok _ _ _ _ _ _ _ _ _ Hstep) as [Hlen [ptm Hptm]].
    rewrite (luci_step_eq _ _ _ _ _ _ _ _ _ Hlen Hptm) in Hstep. injection Hstep as <- <- <-.
    rewrite bare_scan_cons. apply (IH _ _ _ H).
    assert (Forall (site_in (bare_after modpep b st x)) obs) as Hobs'.
    { destruct (bare_after_prefix modpep b st x) as [r ->].
      eapply Forall_impl; [exact Hobs|]. intros o. apply site_in_app. }
    case_bool_decide; [|done]. apply Forall_app. split; [done|].
    constructor; [|constructor]. by apply site_in_anchor.
Qed.

(** X12: for a peptide of the first tool made of residues (capital
    letters) and of masses (digits, points and signs), the sequence of the
    record is the peptide without its masses: its residues, in their
    order. *)
Theorem parse_msgf_peptide_sequence (self : PSM) (msgfseq : pystr) (msgf_mods : massdict)
    (labileptmnames stableptmnames : list pystr) (psm : PSM) :
  Forall (fun c => is_upper c = true ∨ is_delta_char c = true) msgfseq →
  parse_msgf_peptide self msgfseq msgf_mods labileptmnames stableptmnames = Ok psm →
  sequence psm = Some (filter (fun c => is_upper c = true) msgfseq).
Proof.
  intros Hs H. unfold parse_msgf_peptide in H.
  apply bind_Ok in H as ([[b st] obs] & Hloop & [= <-]). simpl. f_equal.
  apply msgf_loop_bare in Hloop as [Hscan _]; [|constructor].
  unfold finditer in Hscan.
  rewrite (finditer_from_ext re_msgf (opt_residue delta_run)) in Hscan by apply re_msgf_opt_residue.
  rewrite <- (without_delta_runs msgfseq Hs).
  apply (bare_scan_residues delta_run delta_run_pos delta_run_upper); [|done].
  rewrite without_delta_runs by done. apply Forall_forall. intros c Hc.
  by apply list_elem_of_filter in Hc as [? _].
Qed.

(** The peptide of the catalog with TMT6plex fixed on K. *)
Lemma parse_msgf_peptide_sequence_witness :
  ∃ psm, parse_msgf_peptide new_PSM (s2l tmt_peptide)
           (msgfmass_mod_dict (finalize [phospho_S; tmt_K; acetyl_K])) [s2l "phospho"] [] = Ok psm
         ∧ sequence psm = Some (s2l "PEPSTIKDEKR").
Proof.
  destruct (parse_msgf_peptide new_PSM (s2l tmt_peptide)
              (msgfmass_mod_dict (finalize [phospho_S; tmt_K; acetyl_K])) [s2l "phospho"] [])
    as [psm|e] eqn:Hp; [|vm_compute in Hp; discriminate Hp].
  exists psm. split; [reflexivity|].
  apply (parse_msgf_peptide_sequence _ _ _ _ _ psm) in Hp; [exact Hp|].
  clear Hp. unfold tmt_peptide. cbv [s2l list_ascii_of_string].
  repeat (apply Forall_cons; split; [first [left; reflexivity | right; reflexivity]|]).
  constructor.
Defined.

(** X13: for a peptide of the second tool in which all that stands
    outside the bracketed masses is residues (capital letters), the
    sequence of the record is the peptide without its bracketed masses. *)
Theorem parse_luciphor_peptide_sequence (self : PSM) (line : luciline)
    (ptms_map : gmap pystr mod_def) (labileptms stabileptms : list pystr) (psm : PSM) :
  Forall (fun c => is_upper c = true) (without_matches re_bracket (predictedPep1 line)) →
  parse_luciphor_peptide self line ptms_map labileptms stabileptms = Ok psm →
  sequence psm = Some (without_matches re_bracket (predictedPep1 line)).
Proof.
  intros Hs H. unfold parse_luciphor_peptide in H.
  apply bind_Ok in H as ([[b st] obs] & Hloop & [= <-]). simpl. f_equal.
  apply luci_loop_bare in Hloop as [Hscan _]; [|constructor].
  unfold finditer in Hscan.
  rewrite (finditer_from_ext re_luci (opt_residue re_bracket)) in Hscan by apply re_luci_opt_residue.
  by apply (bare_scan_residues re_bracket re_bracket_pos upper_not_bracket).
Qed.

(** The peptide [PEPS[167]TIDE] with Phospho on S. *)
Lemma parse_luciphor_peptide_sequence_witness :
  ∃ psm, parse_luciphor_peptide new_PSM
           (LuciLine (s2l "0.01") (s2l "12.3") (s2l "spec1") (s2l "PEPS[167]TIDE"))
           {[ s2l "S167" := set_adjusted_mass phospho_S 79.96633%float ]} [s2l "phospho"] []
         = Ok psm
         ∧ sequence psm = Some (s2l "PEPSTIDE").
Proof.
  destruct (parse_luciphor_peptide new_PSM
              (LuciLine (s2l "0.01") (s2l "12.3") (s2l "spec1") (s2l "PEPS[167]TIDE"))
              {[ s2l "S167" := set_adjusted_mass phospho_S 79.96633%float ]} [s2l "phospho"] [])
    as [psm|e] eqn:Hp; [|vm_compute in Hp; discriminate Hp].
  exists psm. split; [reflexivity|].
  apply (parse_luciphor_peptide_sequence _ _ _ _ _ psm) in Hp; [exact Hp|].
  clear Hp. vm_compute. repeat constructor.
Defined.

(** ** The sites of a parsed peptide *)

(** X14: every modification that [parse_msgf_peptide] records is on the
    N-terminus of the protein, with the site ([, -100), or has as site a
    residue and an index from 0 at which the sequence of the record holds
    that residue. *)
Theorem parse_msgf_peptide_sites (self : PSM) (msgfseq : pystr) (msgf_mods : massdict)
    (labileptmnames stableptmnames : list pystr) (psm : PSM) :
  parse_msgf_peptide self msgfseq msgf_mods labileptmnames stableptmnames = Ok psm →
  ∃ seq, sequence psm = Some seq ∧ Forall (site_in seq) (psm_mods psm).
Proof.
  intros H. unfold parse_msgf_peptide in H.
  apply bind_Ok in H as ([[b st] obs] & Hloop & [= <-]). simpl.
  eexists. split; [done|].
  apply msgf_loop_bare in Hloop as [_ Hsites]; [|constructor].
  eapply Forall_impl; [exact Hsites|]. intros o. apply site_in_app.
Qed.

(** The peptide of the catalog with TMT6plex fixed on K. *)
Lemma parse_msgf_peptide_sites_witness :
  ∃ psm seq, parse_msgf_peptide new_PSM (s2l tmt_peptide)
               (msgfmass_mod_dict (finalize [phospho_S; tmt_K; acetyl_K])) [s2l "phospho"] []
             = Ok psm
             ∧ sequence psm = Some seq ∧ Forall (site_in seq) (psm_mods psm).
Proof.
  destruct (parse_msgf_peptide new_PSM (s2l tmt_peptide)
              (msgfmass_mod_dict (finalize [phospho_S; tmt_K; acetyl_K])) [s2l "phospho"] [])
    as [psm|e] eqn:Hp; [|vm_compute in Hp; discriminate Hp].
  destruct (parse_msgf_peptide_sites _ _ _ _ _ psm Hp) as (seq & Hseq & Hsites).
  exists psm, seq. split; [reflexivity|]. split; [exact Hseq | exact Hsites].
Defined.

(** X15: every modification that [parse_luciphor_peptide] records is on
    the N-terminus of the protein, with the site ([, -100), or has as site
    a residue and an index from 0 at which the sequence of the record holds
    that residue. *)
Theorem parse_luciphor_peptide_sites (self : PSM) (line : luciline)
    (ptms_map : gmap pystr mod_def) (labileptms stabileptms : list pystr) (psm : PSM) :
  parse_luciphor_peptide self line ptms_map labileptms stabileptms = Ok psm →
  ∃ seq, sequence psm = Some seq ∧ Forall (site_in seq) (psm_mods psm).
Proof.
  intros H. unfold parse_luciphor_peptide in H.
  apply bind_Ok in H as ([[b st] obs] & Hloop & [= <-]). simpl.
  eexists. split; [done|].
  apply luci_loop_bare in Hloop as [_ Hsites]; [|constructor].
  eapply Forall_impl; [exact Hsites|]. intros o. apply site_in_app.
Qed.

(** The peptide [PEPS[167]TIDE] with Phospho on S. *)
Lemma parse_luciphor_peptide_sites_witness :
  ∃ psm seq, parse_luciphor_peptide new_PSM
               (LuciLine (s2l "0.01") (s2l "12.3") (s2l "spec1") (s2l "PEPS[167]TIDE"))
               {[ s2l "S167" := set_adjusted_mass phospho_S 79.96633%float ]} [s2l "phospho"] []
             = Ok psm
             ∧ sequence psm = Some seq ∧ Forall (site_in seq) (psm_mods psm).
Proof.
  destruct (parse_luciphor_peptide new_PSM
              (LuciLine (s2l "0.01") (s2l "12.3") (s2l "spec1") (s2l "PEPS[167]TIDE"))
              {[ s2l "S167" := set_adjusted_mass phospho_S 79.96633%float ]} [s2l "phospho"] [])
    as [psm|e] eqn:Hp; [|vm_compute in Hp; discriminate Hp].
  destruct (parse_luciphor_peptide_sites _ _ _ _ _ psm Hp) as (seq & Hseq & Hsites).
  exists psm, seq. split; [reflexivity|]. split; [exact Hseq | exact Hsites].
Defined.

(** ** Masses of the second tool without an entry *)

Lemma luci_step_missing modpep ptms_map lab stab st x :
  length (snd (m_groups x)) ≤ 4300 →
  ptms_map !! luci_key (m_groups x) = None →
  luci_step modpep ptms_map lab stab st x = Raise KeyError.
Proof.
  intros Hlen H. destruct st as [[b s] o]. unfold luci_step, getitem.
  unfold luci_key in H. unfold pystr in *.
  rewrite (py_int_short _ Hlen), bind_Ok_eq. by rewrite H.
Qed.

Lemma luci_loop_result modpep ptms_map lab stab xs st :
  Forall (fun x : rmatch (G := option ascii * pystr) => length (snd (m_groups x)) ≤ 4300) xs →
  (Forall (fun x : rmatch => is_Some (ptms_map !! luci_key (m_groups x))) xs
   ∧ ∃ st', foldM (luci_step modpep ptms_map lab stab) st xs = Ok st')
  ∨ (Exists (fun x : rmatch => ptms_map !! luci_key (m_groups x) = None) xs
     ∧ foldM (luci_step modpep ptms_map lab stab) st xs = Raise KeyError).
Proof.
  revert st. induction xs as [|x xs IH]; intros st Hs.
  - left. split; [constructor | by eexists].
  - apply Forall_cons in Hs as [Hx Hs].
    rewrite foldM_cons. destruct (ptms_map !! luci_key (m_groups x)) as [ptm|] eqn:Hptm.
    + destruct st as [[b s] o]. rewrite (luci_step_eq _ _ _ _ _ _ _ _ _ Hx Hptm), bind_Ok_eq.
      destruct (IH (bare_after modpep b s x, m_end x,
                    if bool_decide (name_lower ptm ∈ lab)
                    then o ++ [ObsMod (anchor (bare_after modpep b s x))
                                      (get_modtype ptm lab stab) (mass ptm) (name ptm)
                                      (name_lower ptm) None]
                    else o) Hs) as [[Hall Hok]|[Hex Hraise]].
      * left. split; [constructor; [by rewrite Hptm | done] | done].
      * right. split; [by apply Exists_cons_tl | done].
    + right. split; [by apply Exists_cons_hd|]. by rewrite luci_step_missing.
Qed.

Lemma luci_missing_raises (self : PSM) (line : luciline) (ptms_map : gmap pystr mod_def)
    (labileptms stabileptms : list pystr) :
  short_masses (predictedPep1 line) →
  Exists (fun x : rmatch => ptms_map !! luci_key (m_groups x) = None)
         (finditer re_luci (predictedPep1 line)) →
  parse_luciphor_peptide self line ptms_map labileptms stabileptms = Raise KeyError.
Proof.
  intros Hs Hex. unfold parse_luciphor_peptide.
  destruct (luci_loop_result (predictedPep1 line) ptms_map labileptms stabileptms
              (finditer re_luci (predictedPep1 line)) ([], 0, []) Hs)
    as [[Hall _]|[_ Hraise]]; [|by rewrite Hraise].
  apply Exists_exists in Hex as (x & Hx & Hnone).
  apply (proj1 (Forall_forall _ _) Hall) in Hx as [ptm Hptm]. congruence.
Qed.

Lemma short_masses_check (modpep : pystr) :
  forallb (fun x : rmatch (G := option ascii * pystr) => length (snd (m_groups x)) <=? 4300)
          (finditer re_luci modpep) = true →
  short_masses modpep.
Proof.
  intros H. apply Forall_forall. intros x Hx%list_elem_of_In.
  apply Nat.leb_le. by apply (proj1 (forallb_forall _ _) H).
Qed.

(** X16: on a peptide whose bracketed masses have at most 4300 digits,
    [parse_luciphor_peptide] raises [KeyError] exactly when the residue and
    the integer of one of the bracketed masses are no key of the lookup,
    and it raises nothing else. *)
Theorem parse_luciphor_peptide_KeyError (self : PSM) (line : luciline)
    (ptms_map : gmap pystr mod_def) (labileptms stabileptms : list pystr) :
  short_masses (predictedPep1 line) →
  (parse_luciphor_peptide self line ptms_map labileptms stabileptms = Raise KeyError
   ↔ Exists (fun x : rmatch => ptms_map !! luci_key (m_groups x) = None)
            (finditer re_luci (predictedPep1 line)))
  ∧ (∀ e, parse_luciphor_peptide self line ptms_map labileptms stabileptms = Raise e →
          e = KeyError).
Proof.
  intros Hs. unfold parse_luciphor_peptide.
  destruct (luci_loop_result (predictedPep1 line) ptms_map labileptms stabileptms
              (finditer re_luci (predictedPep1 line)) ([], 0, []) Hs)
    as [[Hall [[[b s] o] Hok]]|[Hex Hraise]].
  - rewrite Hok, bind_Ok_eq. split; [|discriminate]. split; [discriminate|].
    intros Hex. apply Exists_exists in Hex as (x & Hx & Hnone).
    apply (proj1 (Forall_forall _ _) Hall) in Hx as [ptm Hptm]. congruence.
  - rewrite Hraise. split; [done|]. by intros e [= <-].
Qed.

(** The peptide [PEPS[167]TIDE] and a lookup without the key S167. *)
Lemma parse_luciphor_peptide_KeyError_witness :
  parse_luciphor_peptide new_PSM
    (LuciLine (s2l "0.01") (s2l "12.3") (s2l "spec1") (s2l "PEPS[167]TIDE"))
    {[ s2l "T181" := set_adjusted_mass phospho_S 79.96633%float ]} [s2l "phospho"] []
  = Raise KeyError.
Proof.
  apply (proj1 (parse_luciphor_peptide_KeyError new_PSM
                  (LuciLine (s2l "0.01") (s2l "12.3") (s2l "spec1") (s2l "PEPS[167]TIDE"))
                  {[ s2l "T181" := set_adjusted_mass phospho_S 79.96633%float ]}
                  [s2l "phospho"] []
                  ltac:(apply short_masses_check; vm_compute; reflexivity))).
  vm_compute. left. reflexivity.
Defined.

Lemma str_int_head (z : Z) :
  ∃ c rest, str_int z = c :: rest ∧ c ≠ "o"%char.
Proof.
  unfold str_int, NilZero.string_of_int, NilZero.string_of_uint.
  destruct (Z.to_int z) as [u|u].
  - destruct u; simpl; eexists _, _; (split; [reflexivity | discriminate]).
  - simpl. eexists _, _. split; [reflexivity | discriminate].
Qed.

Lemma lucimass_key_residue (v : mod_def) (k : pystr) :
  lucimass_key v = Ok k → ∃ c rest, k = residue v :: c :: rest ∧ c ≠ "o"%char.
Proof.
  unfold lucimass_key. intros H. inv_ok H. subst k.
  destruct (str_int_head a0) as (c & rest & -> & Hc). by exists c, rest.
Qed.

Lemma lucimass_mod_dict_values (self : Mods) (modmap : gmap pystr mod_def) (k : pystr) (v : mod_def) :
  lucimass_mod_dict self = Ok modmap → modmap !! k = Some v →
  v ∈ varmods self ∧ lucimass_key v = Ok k.
Proof.
  unfold lucimass_mod_dict. intros H Hk.
  rewrite (lucimass_loop_lookup _ _ _ k H), lookup_empty in Hk.
  destruct (last_with_key (varmods self) k) as [v'|] eqn:Hl; [|discriminate].
  injection Hk as ->. by apply last_with_key_Some.
Qed.

(** X17: the lookup that [lucimass_mod_dict] makes has no key for a
    bracketed mass without a residue before it: with that lookup,
    [parse_luciphor_peptide] raises [KeyError] on a peptide that holds such
    a mass, as one that starts with a mass does (the bracketed masses
    having at most 4300 digits), and records no modification at ([, -100). *)
Theorem luciphor_mass_without_residue (c : Mods) (ptms_map : gmap pystr mod_def)
    (self : PSM) (line : luciline) (labileptms stabileptms : list pystr) :
  lucimass_mod_dict c = Ok ptms_map →
  short_masses (predictedPep1 line) →
  Exists (fun x : rmatch => fst (m_groups x) = None) (finditer re_luci (predictedPep1 line)) →
  parse_luciphor_peptide self line ptms_map labileptms stabileptms = Raise KeyError.
Proof.
  intros Hc Hs Hex. apply luci_missing_raises; [exact Hs|].
  eapply Exists_impl; [exact Hex|]. intros x Hx.
  destruct (ptms_map !! luci_key (m_groups x)) as [v|] eqn:Hv; [|done].
  apply (lucimass_mod_dict_values c) in Hv as [_ Hk]; [|done].
  apply lucimass_key_residue in Hk as (d & rest & Hk & Hd).
  unfold luci_key, luci_key_of in Hk. rewrite Hx in Hk. injection Hk as _ Hk. by destruct Hd.
Qed.

(** The peptide [[79]PEPS], with the lookup of the catalog of Phospho on S. *)
Lemma luciphor_mass_without_residue_witness :
  ∃ ptms_map, lucimass_mod_dict (finalize [phospho_S]) = Ok ptms_map
    ∧ parse_luciphor_peptide new_PSM
        (LuciLine (s2l "0.01") (s2l "12.3") (s2l "spec1") (s2l "[79]PEPS"))
        ptms_map [s2l "phospho"] [] = Raise KeyError.
Proof.
  destruct (lucimass_mod_dict (finalize [phospho_S])) as [ptms_map|e] eqn:Hc;
    [|vm_compute in Hc; discriminate Hc].
  exists ptms_map. split; [reflexivity|].
  apply (luciphor_mass_without_residue (finalize [phospho_S]) ptms_map _ _ _ _ Hc).
  - clear Hc. apply short_masses_check. vm_compute. reflexivity.
  - clear Hc. vm_compute. left. reflexivity.
Defined.

(** ** A lookup made from the catalog *)

Lemma varmods_finalize_var (ms : list mod_def) (v : mod_def) :
  v ∈ varmods (finalize ms) → var v = true.
Proof.
  unfold finalize. simpl. intros (v0 & -> & Hv0)%list_elem_of_fmap.
  by apply list_elem_of_filter in Hv0 as [? _].
Qed.

(** X18: with the lookup that [lucimass_mod_dict] makes from the catalog
    of [parse_msgf_modfile], every modification that
    [parse_luciphor_peptide] records is labile: the record has no stable
    modification, and it has a labile one as soon as it has a
    modification. *)
Theorem luciphor_record_is_labile (modfile mods_passed : list pystr) (c : Mods)
    (ptms_map : gmap pystr mod_def) (self : PSM) (line : luciline)
    (labileptms stabileptms : list pystr) (psm : PSM) :
  parse_msgf_modfile modfile mods_passed = Ok c →
  lucimass_mod_dict c = Ok ptms_map →
  parse_luciphor_peptide self line ptms_map labileptms stabileptms = Ok psm →
  Forall (fun o => type o = labile) (psm_mods psm)
  ∧ has_stableptms psm = false
  ∧ (has_labileptms psm = true ↔ psm_mods psm ≠ []).
Proof.
  intros Hc Hmap Hpsm. unfold parse_msgf_modfile in Hc. apply fmap_Ok in Hc as (ms & _ & ->).
  assert (Forall (fun o => type o = labile) (psm_mods psm)) as Hall.
  { unfold parse_luciphor_peptide in Hpsm.
    apply bind_Ok in Hpsm as ([[b st] obs] & Hloop & [= <-]). simpl.
    apply luci_loop_Ok in Hloop as (new & -> & Hnew). simpl.
    clear -Hnew Hmap. induction Hnew as [|o x os xs (ptm & Hptm & Hlab & Htype & _) _ IH];
      constructor; [|done].
    apply (lucimass_mod_dict_values _ _ _ _ Hmap) in Hptm as [Hv%varmods_finalize_var _].
    rewrite Htype. unfold get_modtype. rewrite Hv. simpl. by rewrite bool_decide_eq_true_2. }
  split; [done|]. split.
  - unfold has_stableptms. apply not_true_iff_false. rewrite existsb_exists.
    intros (o & Ho%list_elem_of_In & Hs%bool_decide_eq_true).
    apply (proj1 (Forall_forall _ _) Hall) in Ho. congruence.
  - rewrite has_labileptms_true. split.
    + intros Hex Hnil. rewrite Hnil in Hex. by apply Exists_nil in Hex.
    + destruct (psm_mods psm) as [|o os]; [done|]. intros _.
      apply Forall_cons in Hall as [Ho _]. by apply Exists_cons_hd.
Qed.

(** The peptide [PEPS[167]TIK], with Phospho labile and TMT6plex fixed. *)
Lemma luciphor_record_is_labile_witness :
  ∃ c ptms_map psm,
    parse_msgf_modfile tmt_modfile [s2l "Phospho"; s2l "TMT6plex"; s2l "Acetyl"] = Ok c
    ∧ lucimass_mod_dict c = Ok ptms_map
    ∧ parse_luciphor_peptide new_PSM
        (LuciLine (s2l "0.01") (s2l "12.3") (s2l "spec1") (s2l "PEPS[167]TIK"))
        ptms_map [s2l "phospho"] [s2l "acetyl"] = Ok psm
    ∧ has_stableptms psm = false.
Proof.
  pose (c := match parse_msgf_modfile tmt_modfile [s2l "Phospho"; s2l "TMT6plex"; s2l "Acetyl"]
             with Ok a => a | Raise _ => finalize [] end).
  assert (parse_msgf_modfile tmt_modfile [s2l "Phospho"; s2l "TMT6plex"; s2l "Acetyl"] = Ok c)
    as Hc by (apply ok_value; vm_compute; reflexivity).
  pose (ptms_map := match lucimass_mod_dict c with Ok a => a | Raise _ => ∅ end).
  assert (lucimass_mod_dict c = Ok ptms_map) as Hmap by (apply ok_value; vm_compute; reflexivity).
  pose (psm := match parse_luciphor_peptide new_PSM
                       (LuciLine (s2l "0.01") (s2l "12.3") (s2l "spec1") (s2l "PEPS[167]TIK"))
                       ptms_map [s2l "phospho"] [s2l "acetyl"]
               with Ok a => a | Raise _ => new_PSM end).
  assert (parse_luciphor_peptide new_PSM
            (LuciLine (s2l "0.01") (s2l "12.3") (s2l "spec1") (s2l "PEPS[167]TIK"))
            ptms_map [s2l "phospho"] [s2l "acetyl"] = Ok psm)
    as Hpsm by (apply ok_value; vm_compute; reflexivity).
  exists c, ptms_map, psm. split; [exact Hc|]. split; [exact Hmap|]. split; [exact Hpsm|].
  exact (proj1 (proj2 (luciphor_record_is_labile _ _ c ptms_map _ _ _ _ psm Hc Hmap Hpsm))).
Defined.

(** ** The PSM table *)

Lemma list_index_Ok (x : pystr) (l : list pystr) (i : nat) :
  list_index x l = Ok i → first_position x l i.
Proof.
  revert i. induction l as [|y l IH]; intros i; simpl; [discriminate|].
  case_bool_decide as Hy.
  - intros [= <-]. subst y. split; [done|]. intros j Hj. lia.
  - intros H. apply fmap_Ok in H as (i' & Hi' & ->). destruct (IH _ Hi') as [Hl Hfirst].
    split; [done|]. intros [|j] Hj; simpl; [congruence|]. apply Hfirst. lia.
Qed.

Lemma list_index_Raise (x : pystr) (l : list pystr) :
  (∃ i, list_index x l = Ok i ∧ x ∈ l) ∨ (list_index x l = Raise ValueError ∧ x ∉ l).
Proof.
  induction l as [|y l IH]; simpl.
  - right. split; [done | apply not_elem_of_nil].
  - case_bool_decide as Hy.
    + left. exists 0. split; [done|]. subst y. constructor.
    + destruct IH as [(i & -> & Hin)|[-> Hnot]].
      * left. exists (S i). split; [done | by constructor].
      * right. split; [done|]. rewrite not_elem_of_cons. split; [congruence | done].
Qed.

(** X19: the columns [main] reads are the first columns of the header
    named Peptide, SpectraFile, Charge, ScanNum and PSM q-value; when the
    header lacks one of these names [main] raises [ValueError], and it
    raises nothing else there. *)
Theorem find_columns_first_positions (header : list pystr) :
  (∀ cols, find_columns header = Ok cols →
     first_position (s2l "Peptide") header (pepcol cols)
     ∧ first_position (s2l "SpectraFile") header (spfile cols)
     ∧ first_position (s2l "Charge") header (charge cols)
     ∧ first_position (s2l "ScanNum") header (scan cols)
     ∧ first_position (s2l "PSM q-value") header (evalue cols))
  ∧ (find_columns header = Raise ValueError ↔ ∃ nm, nm ∈ psm_column_names ∧ nm ∉ header)
  ∧ (∀ e, find_columns header = Raise e → e = ValueError).
Proof.
  unfold find_columns, psm_column_names. split; [|split].
  - intros cols H. inv_ok H. subst cols. simpl. repeat split; by apply list_index_Ok.
  - rewrite !fmap_cons, fmap_nil. split.
    + intros H.
      destruct (list_index_Raise (s2l "Peptide") header) as [(i1 & H1 & _)|[_ Hn]];
        [rewrite H1, bind_Ok_eq in H | eexists; split; [|exact Hn]; left].
      destruct (list_index_Raise (s2l "SpectraFile") header) as [(i2 & H2 & _)|[_ Hn]];
        [rewrite H2, bind_Ok_eq in H | eexists; split; [|exact Hn]; right; left].
      destruct (list_index_Raise (s2l "Charge") header) as [(i3 & H3 & _)|[_ Hn]];
        [rewrite H3, bind_Ok_eq in H | eexists; split; [|exact Hn]; right; right; left].
      destruct (list_index_Raise (s2l "ScanNum") header) as [(i4 & H4 & _)|[_ Hn]];
        [rewrite H4, bind_Ok_eq in H | eexists; split; [|exact Hn]; do 3 right; left].
      destruct (list_index_Raise (s2l "PSM q-value") header) as [(i5 & H5 & _)|[_ Hn]];
        [rewrite H5, bind_Ok_eq in H; discriminate H
        | eexists; split; [|exact Hn]; do 4 right; left].
    + intros (nm & Hnm & Hnot).
      destruct (list_index_Raise (s2l "Peptide") header) as [(i1 & -> & H1)|[-> _]]; [|done].
      destruct (list_index_Raise (s2l "SpectraFile") header) as [(i2 & -> & H2)|[-> _]]; [|done].
      destruct (list_index_Raise (s2l "Charge") header) as [(i3 & -> & H3)|[-> _]]; [|done].
      destruct (list_index_Raise (s2l "ScanNum") header) as [(i4 & -> & H4)|[-> _]]; [|done].
      destruct (list_index_Raise (s2l "PSM q-value") header) as [(i5 & -> & H5)|[-> _]]; [|done].
      repeat (apply elem_of_cons in Hnm as [->|Hnm]; [done|]). by apply elem_of_nil in Hnm.
  - intros e.
    destruct (list_index_Raise (s2l "Peptide") header) as [(i1 & -> & _)|[-> _]];
      [|by intros [= <-]].
    destruct (list_index_Raise (s2l "SpectraFile") header) as [(i2 & -> & _)|[-> _]];
      [|by intros [= <-]].
    destruct (list_index_Raise (s2l "Charge") header) as [(i3 & -> & _)|[-> _]];
      [|by intros [= <-]].
    destruct (list_index_Raise (s2l "ScanNum") header) as [(i4 & -> & _)|[-> _]];
      [|by intros [= <-]].
    destruct (list_index_Raise (s2l "PSM q-value") header) as [(i5 & -> & _)|[-> _]];
      [discriminate | by intros [= <-]].
Qed.

Lemma list_index_is_Ok (x : pystr) (l : list pystr) : x ∈ l → ∃ i, list_index x l = Ok i.
Proof.
  intros Hx. destruct (list_index_Raise x l) as [(i & Hi & _)|[_ Hn]]; [by exists i | done].
Qed.

Lemma find_columns_is_Ok (header : list pystr) :
  (∀ nm, nm ∈ psm_column_names → nm ∈ header) → ∃ cols, find_columns header = Ok cols.
Proof.
  intros Hall. unfold find_columns.
  destruct (list_index_is_Ok (s2l "Peptide") header) as [i1 ->]; [apply Hall; left|].
  destruct (list_index_is_Ok (s2l "SpectraFile") header) as [i2 ->];
    [apply Hall; right; left|].
  destruct (list_index_is_Ok (s2l "Charge") header) as [i3 ->];
    [apply Hall; do 2 right; left|].
  destruct (list_index_is_Ok (s2l "ScanNum") header) as [i4 ->];
    [apply Hall; do 3 right; left|].
  destruct (list_index_is_Ok (s2l "PSM q-value") header) as [i5 ->];
    [apply Hall; do 4 right; left|].
  by eexists.
Qed.

Lemma find_columns_missing (header : list pystr) (nm : pystr) :
  nm ∈ psm_column_names → nm ∉ header → find_columns header = Raise ValueError.
Proof.
  intros Hnm Hnot. unfold find_columns.
  destruct (list_index_Raise (s2l "Peptide") header) as [(i1 & -> & H1)|[-> _]]; [|done].
  destruct (list_index_Raise (s2l "SpectraFile") header) as [(i2 & -> & H2)|[-> _]]; [|done].
  destruct (list_index_Raise (s2l "Charge") header) as [(i3 & -> & H3)|[-> _]]; [|done].
  destruct (list_index_Raise (s2l "ScanNum") header) as [(i4 & -> & H4)|[-> _]]; [|done].
  destruct (list_index_Raise (s2l "PSM q-value") header) as [(i5 & -> & H5)|[-> _]]; [|done].
  unfold psm_column_names in Hnm. rewrite !fmap_cons, fmap_nil in Hnm.
  repeat (apply elem_of_cons in Hnm as [->|Hnm]; [done|]). by apply elem_of_nil in Hnm.
Qed.

(** X20: once the catalog is read, [main] raises [StopIteration] on a
    PSM table without any line and [ValueError] on a table whose header
    lacks one of the five columns; on a table that holds its header only it
    writes the header of the second tool and nothing else; and the
    exception of a row ends the run: on a table whose first row has no
    field for the column of the peptide, [main] raises [IndexError]. *)
Theorem main_lucipsms_table_edges (modfile args_labileptms args_mods : list pystr) (c : Mods) :
  parse_msgf_modfile modfile (args_labileptms ++ args_mods) = Ok c →
  main_lucipsms modfile args_labileptms args_mods [] = Raise StopIteration
  ∧ (∀ header rows nm, nm ∈ psm_column_names → nm ∉ split tab header →
       main_lucipsms modfile args_labileptms args_mods (header :: rows) = Raise ValueError)
  ∧ (∀ header, (∀ nm, nm ∈ psm_column_names → nm ∈ split tab header) →
       main_lucipsms modfile args_labileptms args_mods [header] = Ok lucipsms_header)
  ∧ (∀ header cols row rows, find_columns (split tab header) = Ok cols →
       length (split tab row) ≤ pepcol cols →
       main_lucipsms modfile args_labileptms args_mods (header :: row :: rows)
       = Raise IndexError).
Proof.
  intros Hc. unfold main_lucipsms. rewrite Hc. split; [done|]. split; [|split].
  - intros header rows nm Hnm Hnot. rewrite !bind_Ok_eq.
    by rewrite (find_columns_missing _ nm Hnm Hnot).
  - intros header Hall. rewrite !bind_Ok_eq.
    destruct (find_columns_is_Ok _ Hall) as [cols ->]. rewrite bind_Ok_eq.
    change (drop 1 [header]) with (@nil pystr).
    change (mapM (psm_row cols (msgfmass_mod_dict c) (lower <$> args_labileptms)
                    (lower <$> args_mods)) [])
      with (Ok (A := list (option pystr)) []).
    rewrite bind_Ok_eq.
    change (concat (default [] <$> [])) with (@nil ascii). by rewrite app_nil_r.
  - intros header cols row rows Hcols Hlen. rewrite !bind_Ok_eq, Hcols, bind_Ok_eq.
    change (drop 1 (header :: row :: rows)) with (row :: rows). rewrite mapM_cons.
    assert (psm_row cols (msgfmass_mod_dict c) (lower <$> args_labileptms) (lower <$> args_mods) row
            = Raise IndexError) as Hrow by (unfold psm_row; by rewrite (index_short _ _ Hlen)).
    by rewrite Hrow.
Qed.

(** The catalog of Phospho on S, and a table without any line. *)
Lemma main_lucipsms_table_edges_witness :
  main_lucipsms [s2l "79.966331,S,opt,any,Phospho"] [s2l "Phospho"] [] [] = Raise StopIteration.
Proof.
  pose (c := match parse_msgf_modfile [s2l "79.966331,S,opt,any,Phospho"] ([s2l "Phospho"] ++ [])
             with Ok a => a | Raise _ => finalize [] end).
  apply (proj1 (main_lucipsms_table_edges [s2l "79.966331,S,opt,any,Phospho"] [s2l "Phospho"] [] c
                  ltac:(apply ok_value; vm_compute; reflexivity))).
Defined.

(** ** The values for the template *)

Lemma float_set_add_elem (s : list float) (x f : float) :
  f ∈ float_set_add s x → f ∈ s ∨ f = x.
Proof.
  unfold float_set_add. destruct (existsb _ s); [by left|].
  intros [?|?%list_elem_of_singleton]%elem_of_app; [by left | by right].
Qed.

Lemma float_set_add_keeps (s : list float) (x f : float) : f ∈ s → f ∈ float_set_add s x.
Proof.
  unfold float_set_add. destruct (existsb _ s); [done|]. intros ?. apply elem_of_app. by left.
Qed.

Lemma float_set_add_holds (s : list float) (x : float) :
  ∃ f, f ∈ float_set_add s x ∧ same_number f x.
Proof.
  unfold float_set_add. destruct (existsb _ s) eqn:Hex.
  - apply existsb_exists in Hex as (y & Hy%list_elem_of_In & Heq). exists y. split; [done | by right].
  - exists x. split; [apply elem_of_app; right; constructor | by left].
Qed.

Lemma float_set_add_distinct (s : list float) (x : float) :
  (∀ i j f g, s !! i = Some f → s !! j = Some g → i < j → PyFloat.eq f g = false) →
  ∀ i j f g, float_set_add s x !! i = Some f → float_set_add s x !! j = Some g → i < j →
             PyFloat.eq f g = false.
Proof.
  intros Hs. unfold float_set_add. destruct (existsb _ s) eqn:Hex; [done|].
  intros i j f g Hi Hj Hij.
  apply lookup_app_Some in Hj as [Hj|[Hlen Hj]].
  - apply lookup_app_Some in Hi as [Hi|[Hlen' _]]; [by eapply Hs|].
    apply lookup_lt_Some in Hj. lia.
  - apply lookup_app_Some in Hi as [Hi|[Hlen' Hi]].
    + apply list_lookup_singleton_Some in Hj as [_ <-].
      apply not_true_iff_false. intros Heq. apply not_true_iff_false in Hex. apply Hex.
      apply existsb_exists. exists f. split; [|done].
      apply list_elem_of_In. by apply list_elem_of_lookup_2 in Hi.
    + apply list_lookup_singleton_Some in Hi as [Hi _].
      apply list_lookup_singleton_Some in Hj as [Hj' _]. lia.
Qed.

Lemma decoy_mods_loop (P : mod_def → bool) (ms : list mod_def) :
  let s := fold_left (fun s m => if P m then float_set_add s (get_mass_or_adj m) else s) ms [] in
  (∀ f, f ∈ s → ∃ m, m ∈ ms ∧ P m = true ∧ get_mass_or_adj m = f)
  ∧ (∀ m, m ∈ ms → P m = true → ∃ f, f ∈ s ∧ same_number f (get_mass_or_adj m))
  ∧ (∀ i j f g, s !! i = Some f → s !! j = Some g → i < j → PyFloat.eq f g = false).
Proof.
  induction ms as [|m ms IH] using rev_ind; simpl.
  - split; [by intros f ?%elem_of_nil|]. split; [by intros m ?%elem_of_nil | done].
  - rewrite fold_left_app. simpl. destruct IH as (Hfrom & Hall & Hdist).
    destruct (P m) eqn:Hm.
    + split; [|split].
      * intros f [Hf| ->]%float_set_add_elem.
        -- destruct (Hfrom f Hf) as (m' & ? & ? & ?). exists m'.
           split; [apply elem_of_app; by left | done].
        -- exists m. split; [apply elem_of_app; right; constructor | done].
      * intros m' [Hm'| ->%list_elem_of_singleton]%elem_of_app Hp.
        -- destruct (Hall m' Hm' Hp) as (f & Hf & Hsame). exists f.
           split; [by apply float_set_add_keeps | done].
        -- apply float_set_add_holds.
      * by apply float_set_add_distinct.
    + split; [|split; [|done]].
      * intros f Hf. destruct (Hfrom f Hf) as (m' & ? & ? & ?). exists m'.
        split; [apply elem_of_app; by left | done].
      * intros m' [Hm'| ->%list_elem_of_singleton]%elem_of_app Hp; [by apply Hall | congruence].
Qed.

Lemma lucifixed_loop_lines (ms : list mod_def) (acc : list pystr) :
  fold_left (fun lucifixed m => lucifixed ++ [get_luci_input_mod_line m]) ms acc
  = acc ++ (get_luci_input_mod_line <$> ms).
Proof.
  revert acc. induction ms as [|m ms IH]; intros acc; simpl; [by rewrite app_nil_r|].
  by rewrite IH, <- app_assoc.
Qed.

Lemma lucivar_loop_lines (lab : list pystr) (ms : list mod_def) (acc : list pystr) :
  fold_left (fun lucivar m =>
               if bool_decide (name_lower m ∈ lab) then lucivar
               else lucivar ++ [get_luci_input_mod_line m]) ms acc
  = acc ++ (get_luci_input_mod_line <$> filter (fun m => name_lower m ∉ lab) ms).
Proof.
  revert acc. induction ms as [|m ms IH]; intros acc; simpl; [by rewrite app_nil_r|].
  rewrite IH. case_bool_decide as Hm.
  - rewrite (filter_cons_False _ m) by (intros Hn; by apply Hn). done.
  - rewrite (filter_cons_True _ m) by done. by rewrite fmap_cons, <- app_assoc.
Qed.

Lemma target_loop_lines (lab : list pystr) (ms : list mod_def)
    (t : list pystr) (d : list float) (n dn : list pystr) :
  fold_left (target_step lab) ms (t, d, n, dn)
  = (t ++ (get_luci_input_mod_line <$> filter (fun m => name_lower m ∈ lab) ms),
     fold_left (fun s m => if bool_decide (name_lower m ∈ lab)
                           then float_set_add s (get_mass_or_adj m) else s) ms d,
     n ++ ((fun _ => s2l "sty -H3PO4 -97.97690") <$> filter (fun m => name m = s2l "Phospho") ms),
     dn ++ ((fun _ => s2l "X -H3PO4 -97.07690") <$> filter (fun m => name m = s2l "Phospho") ms)).
Proof.
  revert t d n dn. induction ms as [|m ms IH]; intros t d n dn.
  { simpl. by rewrite !app_nil_r. }
  cbn [fold_left]. unfold target_step at 2.
  destruct (decide (name_lower m ∈ lab)) as [Hl|Hl];
    destruct (decide (name m = s2l "Phospho")) as [Hp|Hp].
  - rewrite (bool_decide_eq_true_2 _ Hl), (bool_decide_eq_true_2 _ Hp), IH.
    rewrite (filter_cons_True _ m _ Hl), (filter_cons_True _ m _ Hp), !fmap_cons.
    by rewrite <- !app_assoc.
  - rewrite (bool_decide_eq_true_2 _ Hl), (bool_decide_eq_false_2 _ Hp), IH.
    rewrite (filter_cons_True _ m _ Hl), (filter_cons_False _ m _ Hp), !fmap_cons.
    by rewrite <- !app_assoc.
  - rewrite (bool_decide_eq_false_2 _ Hl), (bool_decide_eq_true_2 _ Hp), IH.
    rewrite (filter_cons_False _ m _ Hl), (filter_cons_True _ m _ Hp), !fmap_cons.
    by rewrite <- !app_assoc.
  - rewrite (bool_decide_eq_false_2 _ Hl), (bool_decide_eq_false_2 _ Hp), IH.
    rewrite (filter_cons_False _ m _ Hl), (filter_cons_False _ m _ Hp). done.
Qed.

(** X21: the lines [main] makes for the template.  The fixed
    modifications are the lines of the fixed definitions of the catalog, in
    their order.  The variable definitions are split by their name key: the
    lines of those whose name key is none of the labile names in small
    letters are the variable modifications, the lines of those whose name
    key is one of them are the PTMs, each in the order of the catalog, so
    that no definition has a line in both.  There is one neutral loss
    [sty -H3PO4 -97.97690], and one for the decoys [X -H3PO4 -97.07690], for
    each variable definition named Phospho, labile or not.  The masses for
    the decoys are the effective masses of the labile definitions, a number
    once. *)
Theorem main_config_lines (msgfmods : Mods) (args_labileptms : list pystr) :
  lucifixed (main_config msgfmods args_labileptms)
    = get_luci_input_mod_line <$> fixedmods msgfmods
  ∧ lucivar (main_config msgfmods args_labileptms)
    = get_luci_input_mod_line
        <$> filter (fun m => name_lower m ∉ lower <$> args_labileptms) (varmods msgfmods)
  ∧ target_mods (main_config msgfmods args_labileptms)
    = get_luci_input_mod_line
        <$> filter (fun m => name_lower m ∈ lower <$> args_labileptms) (varmods msgfmods)
  ∧ nlosses (main_config msgfmods args_labileptms)
    = (fun _ => s2l "sty -H3PO4 -97.97690")
        <$> filter (fun m => name m = s2l "Phospho") (varmods msgfmods)
  ∧ decoy_nloss (main_config msgfmods args_labileptms)
    = (fun _ => s2l "X -H3PO4 -97.07690")
        <$> filter (fun m => name m = s2l "Phospho") (varmods msgfmods)
  ∧ (∀ f, f ∈ decoy_mods (main_config msgfmods args_labileptms) →
       ∃ m, m ∈ varmods msgfmods ∧ name_lower m ∈ lower <$> args_labileptms
            ∧ get_mass_or_adj m = f)
  ∧ (∀ m, m ∈ varmods msgfmods → name_lower m ∈ lower <$> args_labileptms →
       ∃ f, f ∈ decoy_mods (main_config msgfmods args_labileptms)
            ∧ same_number f (get_mass_or_adj m))
  ∧ (∀ i j f g, decoy_mods (main_config msgfmods args_labileptms) !! i = Some f →
       decoy_mods (main_config msgfmods args_labileptms) !! j = Some g → i < j →
       PyFloat.eq f g = false).
Proof.
  unfold main_config, lucifixed_loop, lucivar_loop.
  rewrite target_loop_lines, lucifixed_loop_lines, lucivar_loop_lines.
  cbn [lucifixed lucivar target_mods nlosses decoy_nloss decoy_mods app].
  destruct (decoy_mods_loop (fun m => bool_decide (name_lower m ∈ lower <$> args_labileptms))
              (varmods msgfmods)) as (Hfrom & Hall & Hdist).
  split; [reflexivity|]. split; [reflexivity|]. split; [reflexivity|].
  split; [reflexivity|]. split; [reflexivity|]. split; [|split].
  - intros f Hf. destruct (Hfrom f Hf) as (m & ? & ?%bool_decide_eq_true & ?). by exists m.
  - intros m Hm Hlab. apply (Hall m Hm). by apply bool_decide_eq_true.
  - exact Hdist.
Qed.

(** ** The exceptions of the parser of the first tool *)

Lemma float_of_str_raises (s : pystr) (e : exn) :
  PyFloat.float_of_str s = Raise e → e = ValueError.
Proof.
  unfold PyFloat.float_of_str. destruct (PyFloat.drop_underscores _ _) as [t|]; [|by intros [= <-]].
  destruct (PyFloat.take_sign t) as [neg body].
  destruct (_ || _); [discriminate|]. destruct (bool_decide _); [discriminate|].
  destruct (PyFloat.parse_decimal _ _); [discriminate | by intros [= <-]].
Qed.

(** A token that [resolve_delta] does not resolve is no number, or a
    number without an entry. *)
Lemma resolve_delta_raises d lab stab res sitenum tok e :
  (∀ f, mass_lookup d f ≠ Some []) →
  resolve_delta d lab stab res sitenum tok = Raise e →
  (e = ValueError ∧ PyFloat.float_of_str tok = Raise ValueError)
  ∨ (e = KeyError ∧ ∃ f, PyFloat.float_of_str tok = Ok f ∧ mass_lookup d f = None).
Proof.
  intros Hne. unfold resolve_delta.
  destruct (PyFloat.float_of_str tok) as [f|e'] eqn:Hf.
  - rewrite bind_Ok_eq. destruct (mass_lookup d f) as [l|] eqn:Hl.
    + rewrite bind_Ok_eq. destruct l as [|m l]; [by destruct (Hne f)|]. discriminate.
    + intros [= <-]. right. split; [done|]. by exists f.
  - intros [= <-]. apply float_of_str_raises in Hf as ->. by left.
Qed.

Lemma msgf_step_raises s d lab stab barepep start obs x e :
  start ≤ m_start x → m_start x < length s →
  (∀ f, mass_lookup d f ≠ Some []) →
  msgf_step s d lab stab (barepep, start, obs) x = Raise e →
  ∃ tok, tok ∈ delta_tokens (snd (m_groups x))
    ∧ ((e = ValueError ∧ PyFloat.float_of_str tok = Raise ValueError)
       ∨ (e = KeyError ∧ ∃ f, PyFloat.float_of_str tok = Ok f ∧ mass_lookup d f = None)).
Proof.
  intros Hs1 Hs2 Hne. unfold msgf_step.
  destruct (fst (m_groups x)) as [c|].
  - destruct (last_char_slice barepep start (m_start x + 1) s) as [r Hr]; [lia..|].
    rewrite Hr, !bind_Ok_eq. intros H.
    destruct (mapM _ _) as [new|e'] eqn:Hnew; [discriminate|]. injection H as ->.
    apply mapM_Raise in Hnew as (tok & Htok & Hraise). exists tok. split; [done|].
    by eapply resolve_delta_raises.
  - rewrite bind_Ok_eq. intros H.
    destruct (mapM _ _) as [new|e'] eqn:Hnew; [discriminate|]. injection H as ->.
    apply mapM_Raise in Hnew as (tok & Htok & Hraise). exists tok. split; [done|].
    by eapply resolve_delta_raises.
Qed.

Lemma msgf_loop_raises s d lab stab xs barepep start obs e :
  ordered_from start (length s) xs →
  (∀ f, mass_lookup d f ≠ Some []) →
  foldM (msgf_step s d lab stab) (barepep, start, obs) xs = Raise e →
  ∃ tok, tok ∈ concat ((fun x : rmatch => delta_tokens (snd (m_groups x))) <$> xs)
    ∧ ((e = ValueError ∧ PyFloat.float_of_str tok = Raise ValueError)
       ∨ (e = KeyError ∧ ∃ f, PyFloat.float_of_str tok = Ok f ∧ mass_lookup d f = None)).
Proof.
  intros Hord Hne. revert barepep start obs Hord.
  induction xs as [|x xs IH]; intros barepep start obs Hord; [discriminate|].
  destruct Hord as (Hs1 & Hs2 & Hord). rewrite foldM_cons, fmap_cons. cbn [concat].
  destruct (msgf_step s d lab stab (barepep, start, obs) x) as [[[b1 st1] obs1]|e'] eqn:Hstep.
  - rewrite bind_Ok_eq. intros H.
    apply msgf_step_bare in Hstep as (_ & -> & _).
    destruct (IH _ _ _ Hord H) as (tok & Htok & He). exists tok.
    split; [apply elem_of_app; by right | done].
  - intros [= <-].
    destruct (msgf_step_raises _ _ _ _ _ _ _ _ _ Hs1 Hs2 Hne Hstep) as (tok & Htok & He).
    exists tok. split; [apply elem_of_app; by left | done].
Qed.

(** X22: with the lookup of [msgfmass_mod_dict], [parse_msgf_peptide]
    raises [ValueError] or [KeyError] and nothing else: [ValueError] for a
    signed mass of the peptide that is no number, as one with two points,
    and [KeyError] for one whose float has no entry in the lookup. *)
Theorem parse_msgf_peptide_exceptions (c : Mods) (self : PSM) (msgfseq : pystr)
    (labileptmnames stableptmnames : list pystr) (e : exn) :
  parse_msgf_peptide self msgfseq (msgfmass_mod_dict c) labileptmnames stableptmnames = Raise e →
  ∃ tok, tok ∈ all_delta_tokens msgfseq
    ∧ ((e = ValueError ∧ PyFloat.float_of_str tok = Raise ValueError)
       ∨ (e = KeyError
          ∧ ∃ f, PyFloat.float_of_str tok = Ok f ∧ mass_lookup (msgfmass_mod_dict c) f = None)).
Proof.
  unfold parse_msgf_peptide. intros H.
  destruct (foldM _ _ _) as [[[b st] obs]|e'] eqn:Hloop; [discriminate|]. injection H as ->.
  apply (msgf_loop_raises msgfseq) in Hloop; [done|apply finditer_ordered|].
  intros f Hf. by apply msgfmass_lookup in Hf as [? _].
Qed.

(** A mass with two points. *)
Lemma parse_msgf_peptide_exceptions_witness :
  ∃ tok, tok ∈ all_delta_tokens (s2l "PEPS+79.9.66TIK")
    ∧ ((ValueError = ValueError ∧ PyFloat.float_of_str tok = Raise ValueError)
       ∨ (ValueError = KeyError
          ∧ ∃ f, PyFloat.float_of_str tok = Ok f
                 ∧ mass_lookup (msgfmass_mod_dict (finalize [phospho_S])) f = None)).
Proof.
  apply (parse_msgf_peptide_exceptions (finalize [phospho_S]) new_PSM (s2l "PEPS+79.9.66TIK")
           [s2l "phospho"] [] ValueError).
  vm_compute. reflexivity.
Defined.
(** ** The peptide of the second tool as residues and masses *)

Lemma finditer_from_skip_app {G} (pat : pystr → option (G * nat)) (pos : nat) (a s : pystr) :
  finditer_from pat pos (length a) (a ++ s) = finditer_from pat (pos + length a) 0 s.
Proof.
  revert pos. induction a as [|c a IH]; intros pos.
  - simpl. by rewrite Nat.add_0_r.
  - cbn [length app]. rewrite finditer_from_skip, IH. f_equal. lia.
Qed.

Lemma re_luci_residue_mass (c : ascii) (ds rest : pystr) :
  is_upper c = true → ds ≠ [] → Forall (fun d => is_digit d = true) ds →
  re_luci (c :: "["%char :: ds ++ "]"%char :: rest) = Some ((Some c, ds), S (2 + length ds)).
Proof.
  intros Hc Hne Hds. rewrite re_luci_opt_residue. apply (opt_residue_upper re_bracket); [exact Hc|].
  apply re_bracket_Some. split; [exact Hne|]. split; [exact Hds|]. split; [reflexivity|].
  by exists rest.
Qed.

Lemma re_luci_mass (ds rest : pystr) :
  ds ≠ [] → Forall (fun d => is_digit d = true) ds →
  re_luci ("["%char :: ds ++ "]"%char :: rest) = Some ((None, ds), 2 + length ds).
Proof.
  intros Hne Hds. rewrite re_luci_opt_residue, opt_residue_without by (left; reflexivity).
  assert (re_bracket ("["%char :: ds ++ "]"%char :: rest) = Some (ds, 2 + length ds)) as ->.
  { apply re_bracket_Some. split; [exact Hne|]. split; [exact Hds|]. split; [reflexivity|].
    by exists rest. }
  reflexivity.
Qed.

Lemma re_luci_residue (c : ascii) (s : pystr) :
  is_upper c = true → re_bracket s = None → re_luci (c :: s) = None.
Proof.
  intros Hc Hs. rewrite re_luci_opt_residue, opt_residue_without by (by right).
  by rewrite upper_not_bracket.
Qed.

Lemma render_tokens_Res (c : ascii) (toks : list luci_token) :
  render_tokens (Res c :: toks) = c :: render_tokens toks.
Proof. reflexivity. Qed.

Lemma render_tokens_Mass (ds : pystr) (toks : list luci_token) :
  render_tokens (Mass ds :: toks) = "["%char :: ds ++ "]"%char :: render_tokens toks.
Proof.
  unfold render_tokens. rewrite fmap_cons. cbn [concat render_token app].
  by rewrite <- app_assoc.
Qed.

Lemma render_tokens_no_mass (toks : list luci_token) :
  Forall well_formed_token toks →
  match toks with Mass _ :: _ => False | _ => True end →
  re_bracket (render_tokens toks) = None.
Proof.
  intros Hwf Hm. destruct toks as [|[c|ds] rest]; [reflexivity| |destruct Hm].
  apply Forall_cons in Hwf as [Hc _]. rewrite render_tokens_Res. by apply upper_not_bracket.
Qed.

(** The loop over the matches found from the tokens [toks] on, after the
    text [pre]: [pend] is the residues met since the last match. *)
Lemma luci_tokens_loop (ptms_map : gmap pystr mod_def) (lab stab : list pystr) (t : pystr)
    (n : nat) :
  ∀ (toks : list luci_token) (pre b pend : pystr) (st : nat) (obs : list obs_mod),
    length toks ≤ n →
    t = pre ++ render_tokens toks →
    Forall well_formed_token toks →
    st ≤ length pre →
    drop st pre = pend →
    (pend ≠ [] → match toks with Mass _ :: _ => False | _ => True end) →
    tokens_resolve ptms_map (last pend) toks →
    ∃ b' st',
      foldM (luci_step t ptms_map lab stab) (b, st, obs)
            (finditer_from re_luci (length pre) 0 (render_tokens toks))
      = Ok (b', st', obs ++ token_mods ptms_map lab stab (b ++ pend) (last pend) toks)
      ∧ b' ++ drop st' t = b ++ pend ++ residues_of toks.
Proof.
  induction n as [|n IH]; intros toks pre b pend st obs Hn Ht Hwf Hst Hpend Hnext Hres.
  { destruct toks as [|tok toks]; [|simpl in Hn; lia].
    exists b, st. cbn. rewrite !app_nil_r. split; [reflexivity|].
    subst t. unfold render_tokens. cbn. by rewrite app_nil_r, Hpend. }
  destruct toks as [|[c|ds] rest].
  - exists b, st. cbn. rewrite !app_nil_r. split; [reflexivity|].
    subst t. unfold render_tokens. cbn. by rewrite app_nil_r, Hpend.
  - apply Forall_cons in Hwf as [Hc Hwf]. cbn in Hc. cbn [length] in Hn.
    destruct rest as [|[d|ds] rest'].
    + (* the last residue *)
      rewrite render_tokens_Res in Ht |- *.
      rewrite (finditer_from_no_match re_luci (length pre) c (render_tokens []))
        by (by apply re_luci_residue).
      destruct (IH [] (pre ++ [c]) b (pend ++ [c]) st obs) as (b' & st' & Hloop & Hseq).
      * simpl. lia.
      * by rewrite <- app_assoc.
      * constructor.
      * rewrite length_app. lia.
      * rewrite drop_app_le by exact Hst. by rewrite Hpend.
      * done.
      * done.
      * exists b', st'. rewrite length_app, Nat.add_1_r in Hloop. split.
        -- rewrite Hloop. cbn [token_mods]. reflexivity.
        -- rewrite Hseq. cbn [residues_of]. by rewrite <- app_assoc.
    + (* a residue before a residue *)
      rewrite render_tokens_Res in Ht |- *.
      rewrite (finditer_from_no_match re_luci (length pre) c (render_tokens (Res d :: rest')))
        by (apply re_luci_residue; [exact Hc | by apply render_tokens_no_mass]).
      destruct (IH (Res d :: rest') (pre ++ [c]) b (pend ++ [c]) st obs)
        as (b' & st' & Hloop & Hseq).
      * cbn [length] in Hn |- *. lia.
      * by rewrite <- app_assoc.
      * exact Hwf.
      * rewrite length_app. lia.
      * rewrite drop_app_le by exact Hst. by rewrite Hpend.
      * done.
      * rewrite last_snoc. exact Hres.
      * exists b', st'. rewrite length_app, Nat.add_1_r in Hloop. split.
        -- rewrite Hloop. rewrite last_snoc. cbn [token_mods]. by rewrite <- !app_assoc.
        -- rewrite Hseq. cbn [residues_of]. by rewrite <- !app_assoc.
    + (* a residue and its mass *)
      apply Forall_cons in Hwf as [(Hne & Hds & Hlen) Hwf].
      cbn [tokens_resolve] in Hres. destruct Hres as [[ptm Hptm] Hres].
      rewrite render_tokens_Res, render_tokens_Mass in Ht |- *.
      rewrite (finditer_from_match re_luci (length pre) c _ (Some c, ds) (S (2 + length ds)))
        by (by apply re_luci_residue_mass).
      rewrite foldM_cons.
      rewrite (luci_step_eq t ptms_map lab stab b st obs _ ptm)
        by (cbn [m_groups snd]; done).
      rewrite bind_Ok_eq.
      assert (bare_after t b st (RMatch (length pre) (length pre + S (2 + length ds)) (Some c, ds))
              = b ++ pend ++ [c]) as Hbare.
      { unfold bare_after. cbn [m_groups m_start fst]. rewrite Ht.
        rewrite (slice_pending pre c _ st Hst). by rewrite Hpend. }
      rewrite Hbare. cbn [m_end].
      assert ("["%char :: ds ++ "]"%char :: render_tokens rest'
              = ("["%char :: ds ++ ["]"%char]) ++ render_tokens rest') as Hsplit
        by (cbn [app]; by rewrite <- app_assoc).
      assert (length ("["%char :: ds ++ ["]"%char]) = 2 + length ds) as Hla
        by (cbn [length]; rewrite length_app; cbn [length]; lia).
      replace (S (2 + length ds) - 1) with (length ("["%char :: ds ++ ["]"%char])) by lia.
      rewrite Hsplit, finditer_from_skip_app.
      set (obs1 := if bool_decide (name_lower ptm ∈ lab)
                   then obs ++ [ObsMod (anchor (b ++ pend ++ [c])) (get_modtype ptm lab stab)
                                       (mass ptm) (name ptm) (name_lower ptm) None]
                   else obs).
      destruct (IH rest' (pre ++ c :: "["%char :: ds ++ ["]"%char]) (b ++ pend ++ [c]) []
                  (length pre + S (2 + length ds)) obs1) as (b' & st' & Hloop & Hseq).
      * cbn [length] in Hn. lia.
      * rewrite Ht, <- (app_assoc pre). cbn [app]. by rewrite <- app_assoc.
      * exact Hwf.
      * rewrite length_app. cbn [length] in Hla |- *. lia.
      * apply drop_ge. rewrite length_app. cbn [length] in Hla |- *. lia.
      * done.
      * exact Hres.
      * exists b', st'.
        replace (length (pre ++ c :: "["%char :: ds ++ ["]"%char]))
          with (S (length pre) + length ("["%char :: ds ++ ["]"%char])) in Hloop
          by (rewrite length_app; cbn [length]; lia).
        split.
        -- rewrite Hloop. rewrite app_nil_r. cbn [token_mods last].
           rewrite Hptm. unfold obs1, recorded.
           case_bool_decide; by rewrite <- !app_assoc.
        -- rewrite Hseq. cbn [residues_of app]. by rewrite <- !app_assoc.
  - (* a mass without a residue before it *)
    apply Forall_cons in Hwf as [(Hne & Hds & Hlen) Hwf]. cbn [length] in Hn.
    assert (pend = []) as Hnil.
    { destruct pend as [|p pend']; [reflexivity|]. destruct Hnext. discriminate. }
    subst pend. rewrite Hnil in Hres |- *. clear Hnext.
    cbn [tokens_resolve last] in Hres. destruct Hres as [[ptm Hptm] Hres].
    rewrite render_tokens_Mass in Ht |- *.
    rewrite (finditer_from_match re_luci (length pre) "["%char _ (None, ds) (2 + length ds))
      by (by apply re_luci_mass).
    rewrite foldM_cons.
    rewrite (luci_step_eq t ptms_map lab stab b st obs _ ptm)
      by (cbn [m_groups snd]; done).
    rewrite bind_Ok_eq.
    assert (bare_after t b st (RMatch (length pre) (length pre + (2 + length ds)) (None, ds)) = b)
      as Hbare by reflexivity.
    rewrite Hbare. cbn [m_end].
    assert (length (ds ++ ["]"%char]) = 1 + length ds) as Hla
      by (rewrite length_app; cbn [length]; lia).
    assert (ds ++ "]"%char :: render_tokens rest = (ds ++ ["]"%char]) ++ render_tokens rest)
      as Hsplit by (by rewrite <- app_assoc).
    replace (2 + length ds - 1) with (length (ds ++ ["]"%char])) by lia.
    rewrite Hsplit, finditer_from_skip_app.
    set (obs1 := if bool_decide (name_lower ptm ∈ lab)
                 then obs ++ [ObsMod (anchor b) (get_modtype ptm lab stab)
                                     (mass ptm) (name ptm) (name_lower ptm) None]
                 else obs).
    destruct (IH rest (pre ++ "["%char :: ds ++ ["]"%char]) b []
                (length pre + (2 + length ds)) obs1) as (b' & st' & Hloop & Hseq).
    + lia.
    + rewrite Ht, <- (app_assoc pre). cbn [app]. by rewrite <- app_assoc.
    + exact Hwf.
    + rewrite length_app. cbn [length]. lia.
    + apply drop_ge. rewrite length_app. cbn [length]. lia.
    + done.
    + exact Hres.
    + exists b', st'.
      replace (length (pre ++ "["%char :: ds ++ ["]"%char]))
        with (S (length pre) + length (ds ++ ["]"%char])) in Hloop
        by (rewrite !length_app; cbn [length]; rewrite length_app; cbn [length]; lia).
      split.
      * rewrite Hloop. rewrite !app_nil_r. cbn [token_mods last].
        rewrite Hptm. unfold obs1, recorded.
        case_bool_decide; [by rewrite <- !app_assoc | reflexivity].
      * rewrite Hseq. reflexivity.
Qed.

Lemma bind_of_Ok {A B} (r : result A) (a : A) (f : A → result B) : r = Ok a → r ≫= f = f a.
Proof. by intros ->. Qed.

(** A peptide written as residues and bracketed masses is parsed when
    each of its masses is a key of the lookup. *)
Lemma parse_luciphor_tokens (self : PSM) (line : luciline) (ptms_map : gmap pystr mod_def)
    (lab stab : list pystr) (toks : list luci_token) :
  predictedPep1 line = render_tokens toks →
  Forall well_formed_token toks →
  tokens_resolve ptms_map None toks →
  ∃ psm, parse_luciphor_peptide self line ptms_map lab stab = Ok psm
         ∧ psm_mods psm = token_mods ptms_map lab stab [] None toks
         ∧ sequence psm = Some (residues_of toks).
Proof.
  intros Hline Hwf Hres. unfold parse_luciphor_peptide, finditer. cbv zeta.
  destruct (luci_tokens_loop ptms_map lab stab (predictedPep1 line) (length toks)
              toks [] [] [] 0 []) as (b' & st' & Hloop & Hseq);
    [lia | exact Hline | exact Hwf | simpl; lia | reflexivity | done | exact Hres |].
  cbn [length app last] in Hloop. rewrite <- Hline in Hloop.
  eexists. split; [etrans; [apply (bind_of_Ok _ _ _ Hloop) | reflexivity]|].
  cbn [psm_mods sequence]. split; [reflexivity|]. by rewrite Hseq.
Qed.

Lemma is_Some_check {A} (o : option A) :
  match o with Some _ => true | None => false end = true → is_Some o.
Proof. destruct o; [by eexists | discriminate]. Qed.

(** C6: in the notation of the second tool, the step for a match whose
    mass [int()] converts (4300 digits at most) and whose key resolves to
    the definition [ptm] records a modification exactly when the name key
    of [ptm] is in the labile set; the modification is anchored at
    ('[', -100) while the bare sequence is empty, and at the last residue
    of the bare sequence with its index from 0 otherwise.  Over a peptide,
    the recorded modifications are those of the matches with a labile
    definition, in their order, and the peptide is parsed when every match
    has such a mass and resolves.  For a peptide written as capital letters
    and bracketed masses, each mass being looked up with the letter right
    before it, the record holds exactly the labile masses, each at the last
    residue before it with the index of that residue in the sequence of the
    residues, or at ('[', -100) when no residue comes before it, and its
    sequence is the residues. *)
Theorem labile_matches_recorded
    (modpep : pystr) (ptms_map : gmap pystr mod_def) (labileptms stabileptms : list pystr) :
  (∀ barepep start obs x ptm,
     length (snd (m_groups x)) ≤ 4300 →
     ptms_map !! luci_key (m_groups x) = Some ptm →
     ∃ obs',
       luci_step modpep ptms_map labileptms stabileptms (barepep, start, obs) x
         = Ok (bare_after modpep barepep start x, m_end x, obs')
       ∧ (name_lower ptm ∉ labileptms → obs' = obs)
       ∧ (name_lower ptm ∈ labileptms →
            ∃ o, obs' = obs ++ [o]
                 ∧ (bare_after modpep barepep start x = [] → site o = ("["%char, (-100)%Z))
                 ∧ (∀ c, last (bare_after modpep barepep start x) = Some c →
                      site o = (c, (Z.of_nat (length (bare_after modpep barepep start x)) - 1)%Z))
                 ∧ obs_name o = name ptm ∧ obs_name_lower o = name_lower ptm
                 ∧ obs_mass o = mass ptm))
  ∧ (∀ self line psm,
       predictedPep1 line = modpep →
       parse_luciphor_peptide self line ptms_map labileptms stabileptms = Ok psm →
       Forall2 (fun o x => ∃ ptm, ptms_map !! luci_key (m_groups x) = Some ptm
                                   ∧ name_lower ptm ∈ labileptms
                                   ∧ type o = get_modtype ptm labileptms stabileptms
                                   ∧ obs_mass o = mass ptm ∧ obs_name o = name ptm
                                   ∧ obs_name_lower o = name_lower ptm)
               (psm_mods psm)
               (filter (fun x => is_labile_match ptms_map labileptms x = true)
                       (finditer re_luci modpep)))
  ∧ (∀ self line,
       predictedPep1 line = modpep →
       short_masses modpep →
       Forall (fun x : rmatch => is_Some (ptms_map !! luci_key (m_groups x)))
              (finditer re_luci modpep) →
       ∃ psm, parse_luciphor_peptide self line ptms_map labileptms stabileptms = Ok psm)
  ∧ (∀ self line toks,
       predictedPep1 line = modpep →
       modpep = render_tokens toks →
       Forall well_formed_token toks →
       tokens_resolve ptms_map None toks →
       ∃ psm, parse_luciphor_peptide self line ptms_map labileptms stabileptms = Ok psm
              ∧ psm_mods psm = token_mods ptms_map labileptms stabileptms [] None toks
              ∧ sequence psm = Some (residues_of toks)).
Proof.
  split; [|split; [|split]].
  - intros barepep start obs x ptm Hlen Hptm.
    rewrite (luci_step_eq _ _ _ _ _ _ _ _ _ Hlen Hptm).
    eexists. split; [reflexivity|]. split.
    + intros Hn. by rewrite bool_decide_eq_false_2.
    + intros Hl. rewrite bool_decide_eq_true_2 by done. eexists. split; [reflexivity|].
      simpl. unfold anchor. split; [by intros ->|]. split; [|done]. by intros c ->.
  - intros self line psm <- H. unfold parse_luciphor_peptide in H.
    apply bind_Ok in H as ([[b st] obs] & Hloop & [= <-]).
    apply luci_loop_Ok in Hloop as (new & -> & Hnew). exact Hnew.
  - intros self line <- Hshort Hall. unfold parse_luciphor_peptide.
    destruct (luci_loop_is_Ok (predictedPep1 line) ptms_map labileptms stabileptms _ ([], 0, [])
                Hshort Hall) as [[[b st] obs] Hst].
    destruct (foldM _ _ _) as [[[b' st'] obs']|e] eqn:Hloop; [by eexists | discriminate Hst].
  - intros self line toks Hline Htoks Hwf Hres. apply parse_luciphor_tokens; [|exact Hwf|exact Hres].
    by rewrite Hline.
Qed.

(** The peptide [PEPS[167]TIM[147]DE] with the lookup made from the
    catalog of Phospho on S, T and Y and Oxidation on M, Phospho being
    labile: the mass on S is recorded at the residue S with the index 3,
    the mass on M is not recorded, and the sequence is PEPSTIMDE. *)
Lemma labile_matches_recorded_witness :
  ∃ c ptms_map psm,
    parse_msgf_modfile phospho_ox_modfile [s2l "Phospho"; s2l "Oxidation"] = Ok c
    ∧ lucimass_mod_dict c = Ok ptms_map
    ∧ parse_luciphor_peptide new_PSM
        (LuciLine (s2l "0.01") (s2l "12.3") (s2l "spec1") (s2l "PEPS[167]TIM[147]DE"))
        ptms_map [s2l "phospho"] [] = Ok psm
    ∧ site <$> psm_mods psm = [("S"%char, 3%Z)]
    ∧ obs_name <$> psm_mods psm = [s2l "Phospho"]
    ∧ sequence psm = Some (s2l "PEPSTIMDE").
Proof.
  pose (c := match parse_msgf_modfile phospho_ox_modfile [s2l "Phospho"; s2l "Oxidation"]
             with Ok a => a | Raise _ => finalize [] end).
  assert (parse_msgf_modfile phospho_ox_modfile [s2l "Phospho"; s2l "Oxidation"] = Ok c)
    as Hc by (apply ok_value; vm_compute; reflexivity).
  pose (ptms_map := match lucimass_mod_dict c with Ok a => a | Raise _ => ∅ end).
  assert (lucimass_mod_dict c = Ok ptms_map) as Hmap by (apply ok_value; vm_compute; reflexivity).
  pose (toks := [Res "P"; Res "E"; Res "P"; Res "S"; Mass (s2l "167"); Res "T"; Res "I";
                 Res "M"; Mass (s2l "147"); Res "D"; Res "E"]%char).
  assert (Forall well_formed_token toks) as Hwf.
  { clear Hc Hmap. unfold toks.
    repeat (apply Forall_cons_2;
            [first [reflexivity
                   | split; [discriminate|]; split;
                     [repeat (apply Forall_cons_2; [reflexivity|]); apply Forall_nil_2
                     | simpl; lia]]|]).
    apply Forall_nil_2. }
  assert (tokens_resolve ptms_map None toks) as Hres.
  { clear Hc Hmap Hwf. unfold toks. cbn [tokens_resolve].
    split; [apply is_Some_check; vm_compute; reflexivity|].
    split; [apply is_Some_check; vm_compute; reflexivity | exact I]. }
  destruct (proj2 (proj2 (proj2
              (labile_matches_recorded (s2l "PEPS[167]TIM[147]DE") ptms_map [s2l "phospho"] [])))
              new_PSM (LuciLine (s2l "0.01") (s2l "12.3") (s2l "spec1") (s2l "PEPS[167]TIM[147]DE"))
              toks eq_refl eq_refl Hwf Hres) as (psm & Hpsm & Hmods & Hseq).
  exists c, ptms_map, psm. split; [exact Hc|]. split; [exact Hmap|]. split; [exact Hpsm|].
  clear Hc Hmap Hwf Hres Hpsm. rewrite Hmods, Hseq. clear Hmods Hseq.
  split; [vm_compute; reflexivity|]. split; [vm_compute; reflexivity | reflexivity].
Defined.
